(** * hum.ai: the melody-matching engine, embedded from the Python sources

    The development follows the backend modules one by one:
    [services/melody.py], [services/dtw.py], [services/matcher.py],
    [dsp_utils.py] and [dsp_engine.py].

    Conventions of the embedding.
    - A Python [int] is a [Z]; a Python or NumPy float is a real number [R]
      (exact arithmetic: rounding error, infinities and NaN are outside the
      model, except where the code tests for them, and then an [option]
      marks the undefined value).
    - A Python list or a one-dimensional NumPy array is a [list].
    - A call that can raise returns a [py] value: [Ok v], [Raise e], or
      [Loop] when a [while] loop did not end within the fuel it was given;
      [try/except] is a match on [Raise].
    - A [dict] with fixed keys read through [.get(key, default)] is a record
      whose fields are [option]s, [None] standing for an absent key. *)

From Stdlib Require Import String Ascii.
From Stdlib Require Import Reals Lra Lia ZArith List Bool Sorted Permutation.
Import ListNotations.

Set Implicit Arguments.

(** ** Python values shared by all modules *)

Module Py.

(** The exceptions the modelled code can meet. *)
Inductive exn : Type :=
| ZeroDivision   (* a division by a zero float, or [int()] of the inf/nan it gives *)
| IndexError
| ValueError
| OSError.

Inductive py (A : Type) : Type :=
| Ok (a : A)
| Raise (e : exn)
| Loop.
Arguments Ok {A} a.
Arguments Raise {A} e.
Arguments Loop {A}.

Definition bind {A B : Type} (m : py A) (k : A -> py B) : py B :=
  match m with
  | Ok a => k a
  | Raise e => Raise e
  | Loop => Loop
  end.

(** [try: m  except Exception: handler]. *)
Definition try_except {A : Type} (m : py A) (handler : py A) : py A :=
  match m with
  | Raise _ => handler
  | other => other
  end.

Notation "x <- m ;; k" := (bind m (fun x => k))
  (at level 61, m at next level, right associativity).

(** [l[i]] for [i >= 0]. *)
Definition getitem {A : Type} (l : list A) (i : nat) : py A :=
  match nth_error l i with
  | Some a => Ok a
  | None => Raise IndexError
  end.

(** A slice bound, as CPython normalises it against the length. *)
Definition clamp_index (len : Z) (i : Z) : Z :=
  if (i <? 0)%Z then Z.max 0 (i + len) else Z.min i len.

(** [l[start:stop]]; an omitted bound is [None]. *)
Definition slice {A : Type} (l : list A) (start stop : option Z) : list A :=
  let len := Z.of_nat (length l) in
  let lo := match start with Some i => clamp_index len i | None => 0%Z end in
  let hi := match stop with Some i => clamp_index len i | None => len end in
  firstn (Z.to_nat (hi - lo)) (skipn (Z.to_nat lo) l).

(** [int(x)] on a float: truncation towards zero. *)
Definition int (x : R) : Z :=
  if Rle_dec 0 x then Zfloor x else Zceil x.

(** [round(x)] (and [np.round]): to the nearest integer, a tie to the even one. *)
Definition round (x : R) : Z :=
  let f := Zfloor x in
  let d := (x - IZR f)%R in
  if Rlt_dec d (1 / 2) then f
  else if Rlt_dec (1 / 2) d then (f + 1)%Z
  else if Z.even f then f else (f + 1)%Z.

(** [round(x, 1)] and [round(x, 2)]: to one and to two decimals. *)
Definition round1 (x : R) : R := (IZR (round (x * 10)) / 10)%R.
Definition round2 (x : R) : R := (IZR (round (x * 100)) / 100)%R.

(** [sum(l)] and [np.mean(l)]. *)
Definition sum (l : list R) : R := fold_right Rplus 0%R l.
Definition mean (l : list R) : R := (sum l / INR (length l))%R.

(** [range(n)]. *)
Definition range (n : nat) : list nat := seq 0 n.

(** [x / y] on floats. *)
Definition truediv (x y : R) : py R :=
  if Req_dec_T y 0 then Raise ZeroDivision else Ok (x / y)%R.

(** [np.clip(x, lo, hi)], that is [minimum(maximum(x, lo), hi)]. *)
Definition clip (lo hi x : R) : R := Rmin (Rmax x lo) hi.

(** [np.diff]. *)
Fixpoint diff (l : list R) : list R :=
  match l with
  | a :: (b :: _) as rest => (b - a)%R :: diff rest
  | _ => []
  end.

(** A stable sort by insertion: [goes_before x y] tells that a new [x] is put
    in front of [y].  It stands for [list.sort] and [np.sort]. *)
Fixpoint insert {A : Type} (goes_before : A -> A -> bool) (x : A) (l : list A)
    : list A :=
  match l with
  | [] => [x]
  | y :: l' => if goes_before x y then x :: l else y :: insert goes_before x l'
  end.

Definition sort {A : Type} (goes_before : A -> A -> bool) (l : list A) : list A :=
  fold_right (insert goes_before) [] l.

Definition Rleb (x y : R) : bool := if Rle_dec x y then true else false.
Definition Rltb (x y : R) : bool := if Rlt_dec x y then true else false.

(** [l.sort(key=key, reverse=True)]: non-increasing keys, and elements of
    equal keys stay in their original order. *)
Definition sort_by_key_reverse {A : Type} (key : A -> R) (l : list A) : list A :=
  sort (fun x y => Rleb (key y) (key x)) l.

(** [np.sort] of a float array. *)
Definition np_sort (l : list R) : list R := sort Rleb l.

(** The order of [sort_by_key_reverse]: keys do not increase. *)
Definition key_not_below {A : Type} (key : A -> R) (a b : A) : Prop :=
  (key b <= key a)%R.

(** The elements of key [k], in list order. *)
Definition with_key {A : Type} (key : A -> R) (k : R) (l : list A) : list A :=
  filter (fun a => if Req_dec_T (key a) k then true else false) l.

End Py.

Import Py.

(** ** services/melody.py *)

Module Melody.

Definition SAMPLE_RATE : Z := 22050.

Definition log2 (x : R) : R := Rlog 2 x.

Definition _get_note_number (pitch_val : R) : Z :=
  if Rle_dec pitch_val 0 then 0%Z
  else
    let n := (12 * log2 (pitch_val / 440) + 49)%R in
    if Rle_dec 1 n then (if Rle_dec n 88 then round n else 0%Z) else 0%Z.

(** The frame index of one onset. *)
Definition frame_idx (duration : R) (total_frames : nat) (onset_time : R) : Z :=
  int (onset_time / duration * INR total_frames).

Definition _pitches_per_interval
    (audio_length : Z) (pitch_values : list R) (onsets : list R) : py (list Z) :=
  let total_frames := length pitch_values in
  let duration := (IZR audio_length / IZR SAMPLE_RATE)%R in
  match onsets with
  | [] => Ok [Z.of_nat total_frames]
  | _ :: _ =>
      if Req_dec_T duration 0 then Raise ZeroDivision
      else Ok (map (frame_idx duration total_frames) onsets
                 ++ [Z.of_nat total_frames])
  end.

(** The body of the loop of [_average_per_interval] for one [i]. *)
Definition interval_note (pitch_values : list R) (start_idx end_idx : Z) : Z :=
  if (start_idx <? end_idx)%Z then
    let segment := slice pitch_values (Some start_idx) (Some end_idx) in
    let valid_pitches := filter (fun p => Rltb 0 p) segment in
    match valid_pitches with
    | [] => 0%Z
    | _ :: _ => _get_note_number (mean valid_pitches)
    end
  else 0%Z.

Fixpoint average_loop (pitch_values : list R) (pitches_per_interval : list Z)
    (indices : list nat) : py (list Z) :=
  match indices with
  | [] => Ok []
  | i :: rest =>
      start_idx <- getitem pitches_per_interval i ;;
      end_idx <- getitem pitches_per_interval (i + 1) ;;
      avg_per_interval <- average_loop pitch_values pitches_per_interval rest ;;
      Ok (interval_note pitch_values start_idx end_idx :: avg_per_interval)
  end.

Definition _average_per_interval
    (pitch_values : list R) (pitches_per_interval : list Z) (onsets : list R)
    : py (list Z) :=
  average_loop pitch_values pitches_per_interval (range (length onsets - 1)).

Fixpoint _find_relative_pitch (avg_pitch_values : list Z) : list Z :=
  match avg_pitch_values with
  | a :: (b :: _) as rest =>
      let pitch_change := (-1 * (a - b))%Z in
      if (pitch_change =? 0)%Z || (22 <=? Z.abs pitch_change)%Z
      then _find_relative_pitch rest
      else pitch_change :: _find_relative_pitch rest
  | _ => []
  end.

(** The feature dictionary of [extract_features]. *)
Record Features : Type := {
  tempo : R;
  relative_pitches : list Z;
  pitch_count : nat;
  duration : R;
  onset_count : nat
}.

(** [extract_features], from the outputs of the three detectors of
    [services/pitch.py] (tempo, pitch track, onsets) on; the [except]
    branch returns [None]. *)
Definition extract_features
    (audio_length : Z) (tempo_bpm : R) (pitch_values : list R) (onsets : list R)
    : py (option Features) :=
  try_except
    (num_of_pitches <- _pitches_per_interval audio_length pitch_values onsets ;;
     avg_pitches <- _average_per_interval pitch_values num_of_pitches onsets ;;
     let rel :=
       if (1 <? length avg_pitches)%nat then _find_relative_pitch avg_pitches
       else [] in
     Ok (Some {| tempo := tempo_bpm;
                 relative_pitches := rel;
                 pitch_count := length rel;
                 duration := (IZR audio_length / IZR SAMPLE_RATE)%R;
                 onset_count := length onsets |}))
    (Ok None).

End Melody.

(** ** The dictionaries exchanged between the services *)

Module Records.

(** An entry of the song database (songs_database.json), and also the feature
    dictionary of a query: both are read through [.get]. *)
Record Dict : Type := {
  id : option string;
  name : option string;
  title : option string;
  artist : option string;
  cover_image : option string;
  theme_color : option string;
  path : option string;
  tempo : option R;
  pitch_count : option Z;
  relative_pitches : option (list Z)
}.

(** [d.get(key, default)]. *)
Definition get {A : Type} (field : option A) (default : A) : A :=
  match field with
  | Some v => v
  | None => default
  end.

(** A feature dictionary with only the two keys that the scorer reads. *)
Definition features (tempo_bpm : option R) (pitches : option (list Z)) : Dict :=
  {| id := None; name := None; title := None; artist := None;
     cover_image := None; theme_color := None; path := None;
     tempo := tempo_bpm; pitch_count := None; relative_pitches := pitches |}.

(** A database entry with an identifier, a name, a tempo and a contour. *)
Definition entry (song_id song_name : string) (tempo_bpm : R) (pitches : list Z)
    : Dict :=
  {| id := Some song_id; name := Some song_name; title := None; artist := None;
     cover_image := None; theme_color := None; path := None;
     tempo := Some tempo_bpm; pitch_count := Some (Z.of_nat (length pitches));
     relative_pitches := Some pitches |}.

(** The feature dictionary of [extract_features], as the routes hand it to
    the matcher: the scorer reads its tempo and its relative pitches. *)
Definition of_features (f : Melody.Features) : Dict :=
  features (Some (Melody.tempo f)) (Some (Melody.relative_pitches f)).

End Records.

(** ** services/dtw.py *)

Module Dtw.

Import Records.
Local Open Scope R_scope.

(** [np.array(l)] of a list of ints. *)
Definition np_array (l : list Z) : list R := map IZR l.

(** [np.std]: the population standard deviation. *)
Definition np_std (x : list R) : R :=
  sqrt (mean (map (fun v => Rsqr (v - mean x)) x)).

(** An entry of [np.cov(x, y)]: the sample covariance (ddof = 1). *)
Definition np_cov (x y : list R) : R :=
  (sum (map (fun p => (fst p - mean x) * (snd p - mean y)) (combine x y))
   / (INR (length x) - 1))%R.

(** [np.corrcoef(x, y)[0, 1]]: the covariance divided by both standard
    deviations and clipped to [-1, 1]; [None] is nan, which NumPy gives when
    a division by zero occurs (fewer than two samples, or a deviation 0). *)
Definition np_corrcoef (x y : list R) : option R :=
  if (length x <? 2)%nat then None
  else
    let stddev_x := sqrt (np_cov x x) in
    let stddev_y := sqrt (np_cov y y) in
    if Req_dec_T stddev_x 0 then None
    else if Req_dec_T stddev_y 0 then None
    else Some (clip (-1) 1 (np_cov x y / stddev_x / stddev_y)).

(** Lines 17-18. *)
Definition tempo_similarity (song_tempo user_tempo : R) : py R :=
  let tempo_diff := Rabs (song_tempo - user_tempo) in
  q <- truediv tempo_diff (Rmax song_tempo user_tempo) ;;
  Ok (Rmax 0 (1 - q)).

(** Lines 21-36. *)
Definition pitch_similarity (song_pitches user_pitches : list Z) : R :=
  if (0 <? length song_pitches)%nat && (0 <? length user_pitches)%nat then
    let min_len := Nat.min (length song_pitches) (length user_pitches) in
    let song_segment := np_array (firstn min_len song_pitches) in
    let user_segment := np_array (firstn min_len user_pitches) in
    if Rltb 0 (np_std song_segment) && Rltb 0 (np_std user_segment) then
      match np_corrcoef song_segment user_segment with
      | None => 0
      | Some pitch_corr => Rmax 0 pitch_corr
      end
    else 1 / 2
  else 0.

Definition is_empty {A : Type} (l : list A) : bool :=
  match l with
  | [] => true
  | _ :: _ => false
  end.

(** The [try] block. *)
Definition similarity_try (song_features user_features : Dict) : py R :=
  let song_pitches := get (relative_pitches song_features) [] in
  let user_pitches := get (relative_pitches user_features) [] in
  if is_empty song_pitches || is_empty user_pitches then Ok 0
  else
    let song_tempo := get (tempo song_features) 120 in
    let user_tempo := get (tempo user_features) 120 in
    tempo_sim <- tempo_similarity song_tempo user_tempo ;;
    let pitch_sim := pitch_similarity song_pitches user_pitches in
    let similarity := ((6 / 10 * pitch_sim + 4 / 10 * tempo_sim) * 100)%R in
    Ok (Rmax 0 (Rmin 100 similarity)).

(** [calculate_similarity]: any exception of the [try] block is answered
    by [return 0.0]. *)
Definition calculate_similarity (song_features user_features : Dict) : py R :=
  try_except (similarity_try song_features user_features) (Ok 0).

(** *** The scoring variant in the words of the specification *)

(** Sum of products of deviations from the means. *)
Definition co_deviation (x y : list R) : R :=
  sum (map (fun p => (fst p - mean x) * (snd p - mean y)) (combine x y)).

(** The sum of squared deviations of a sequence from its mean. *)
Definition sq_deviation (x : list R) : R :=
  sum (map (fun v => (v - mean x) * (v - mean x)) x).

(** Pearson's correlation coefficient; undefined ([None]) when one of the
    sequences has zero variance. *)
Definition pearson (x y : list R) : option R :=
  if Req_dec_T (co_deviation x x) 0 then None
  else if Req_dec_T (co_deviation y y) 0 then None
  else Some (co_deviation x y / sqrt (co_deviation x x * co_deviation y y)).

(** The two interval sequences truncated to equal length. *)
Definition truncated (song_pitches user_pitches : list Z) : list R * list R :=
  let n := Nat.min (length song_pitches) (length user_pitches) in
  (map IZR (firstn n song_pitches), map IZR (firstn n user_pitches)).





(** The pitch component the code computes, in the same words: one half when
    the correlation is undefined. *)
Definition coded_pitch_similarity (song_pitches user_pitches : list Z) : R :=
  let (x, y) := truncated song_pitches user_pitches in
  match pearson x y with
  | None => 1 / 2
  | Some r => Rmax 0 r
  end.

End Dtw.

(** ** services/matcher.py *)

Module Matcher.

Import Records.

(** An entry of the list [matches]. *)
Record Match : Type := {
  m_id : string;
  m_name : string;
  m_title : string;
  m_artist : string;
  m_cover_image : option string;
  m_theme_color : option string;
  m_path : string;
  similarity : R;
  m_tempo : R;
  m_pitch_count : Z
}.

(** The body of the loop over the database. *)
Definition match_entry (user_features song : Dict) : py Match :=
  sim <- Dtw.calculate_similarity song user_features ;;
  Ok {| m_id := get (id song) ""%string;
        m_name := get (name song) "Unknown"%string;
        m_title := get (title song) (get (name song) "Unknown"%string);
        m_artist := get (artist song) "Unknown Artist"%string;
        m_cover_image := cover_image song;
        m_theme_color := theme_color song;
        m_path := get (path song) ""%string;
        similarity := round1 sim;
        m_tempo := get (tempo song) 0%R;
        m_pitch_count := get (pitch_count song) 0%Z |}.

Fixpoint all_matches (user_features : Dict) (database : list Dict) : py (list Match) :=
  match database with
  | [] => Ok []
  | song :: rest =>
      m <- match_entry user_features song ;;
      matches <- all_matches user_features rest ;;
      Ok (m :: matches)
  end.

Definition DEFAULT_TOP_N : Z := 5.

(** [find_best_matches(user_features, database, top_n=5)]; [top_n = None]
    is a call that leaves the argument out.  The printing of the two best
    scores has no effect on the result and is left out. *)
Definition find_best_matches
    (user_features : Dict) (database : list Dict) (top_n : option Z)
    : py (list Match) :=
  matches <- all_matches user_features database ;;
  let matches := sort_by_key_reverse similarity matches in
  Ok (slice matches None (Some (get top_n DEFAULT_TOP_N))).

(** *** Orders on the result, for the statements *)

(** Non-increasing similarity. *)
Definition by_similarity : Match -> Match -> Prop := key_not_below similarity.

(** The tie-break the specification asks for: among equal similarities,
    ascending identifier. *)
Definition ties_by_ascending_id (ms : list Match) : Prop :=
  forall i j a b,
    (i < j)%nat -> nth_error ms i = Some a -> nth_error ms j = Some b ->
    similarity a = similarity b ->
    String.leb (m_id a) (m_id b) = true.

(** The entries of a given similarity, in list order. *)
Definition with_similarity (s : R) (ms : list Match) : list Match :=
  with_key similarity s ms.

End Matcher.

(** ** dsp_utils.py *)

Module DspUtils.

Local Open Scope R_scope.

(** A pitch track of pYIN: a frequency in Hz per frame, [None] (nan) for an
    unvoiced frame. *)
Definition PitchTrack : Type := list (option R).

(** [f0[~np.isnan(f0)]]. *)
Fixpoint voiced (f0 : PitchTrack) : list R :=
  match f0 with
  | [] => []
  | Some f :: rest => f :: voiced rest
  | None :: rest => voiced rest
  end.

(** [librosa.hz_to_midi]. *)
Definition hz_to_midi (f : R) : R := 12 * (Melody.log2 f - Melody.log2 440) + 69.

(** The median of an odd number of values. *)
Definition median (w : list R) : R := nth (length w / 2) (np_sort w) 0.

(** [scipy.signal.medfilt(x, kernel_size)]: the median of the window of
    [kernel_size] samples centred on each sample, zeros beyond both ends. *)
Definition medfilt (x : list R) (kernel_size : nat) : list R :=
  let half := (kernel_size / 2)%nat in
  let padded := repeat 0 half ++ x ++ repeat 0 half in
  map (fun i => median (firstn kernel_size (skipn i padded))) (range (length x)).

(** [np.percentile(a, q)], linear interpolation between the two nearest
    ranks of the sorted array. *)
Definition percentile (a : list R) (q : R) : R :=
  let sorted := np_sort a in
  let position := q / 100 * (INR (length a) - 1) in
  let lower := Z.to_nat (Zfloor position) in
  let upper := Nat.min (lower + 1) (length a - 1) in
  let fraction := position - INR lower in
  nth lower sorted 0 + fraction * (nth upper sorted 0 - nth lower sorted 0).

(** [extract_pitch], from the outputs of librosa on the file on: the mean
    RMS energy and the pitch track, or the exception met on the way. *)
Definition extract_pitch (analysis : py (R * PitchTrack)) : py (option (list R)) :=
  try_except
    (a <- analysis ;;
     let (mean_rms, f0) := a in
     if Rltb mean_rms (3 / 1000) then Ok None
     else
       let f0_clean := voiced f0 in
       if (length f0_clean <? 15)%nat then Ok None
       else
         let kernel_size :=
           Nat.min 5 (if Nat.odd (length f0_clean) then length f0_clean
                      else length f0_clean - 1) in
         let f0_clean :=
           if (3 <=? kernel_size)%nat then medfilt f0_clean kernel_size
           else f0_clean in
         let midi := map hz_to_midi f0_clean in
         let p5 := percentile midi 5 in
         let p95 := percentile midi 95 in
         let midi := map (clip p5 p95) midi in
         let midi := map (fun m => m - mean midi) midi in
         Ok (Some midi))
    (Ok None).

Definition normalize_to_intervals (pitch_midi : list R) : list R :=
  if (length pitch_midi <? 2)%nat then []
  else
    let intervals := diff pitch_midi in
    let intervals := map (fun d => IZR (round d)) intervals in
    let intervals := map (clip (-7) 7) intervals in
    intervals.

(** The IntervalContour as the specification words it: first differences,
    rounded, clipped to [-7, 7], then mean-subtracted. *)
Definition spec_interval_contour (pitch : list R) : list R :=
  let intervals := map (clip (-7) 7) (map (fun d => IZR (round d)) (diff pitch)) in
  map (fun d => d - mean intervals) intervals.

(** The alignment library (the package fastdtw) is not part of the
    repository: it is a parameter here.  It takes the two sequences and the
    pointwise distance and gives the distance and the alignment path. *)
Definition FastDTW : Type :=
  list R -> list R -> (R -> R -> R) -> py (R * list (nat * nat)).

Definition compute_dtw_distance (fastdtw : FastDTW) (seq1 seq2 : list R)
    : py (R * nat) :=
  r <- fastdtw seq1 seq2 (fun a b => Rabs (a - b)) ;;
  let (distance, path) := r in
  let normalized := distance / (INR (length path) + 1) in
  Ok (normalized, length path).

End DspUtils.

(** ** dsp_engine.py *)

Module DspEngine.

Import DspUtils.
Local Open Scope R_scope.

Definition SAMPLE_RATE : Z := 22050.
Definition HOP_LENGTH : Z := 512.
Definition WINDOW_DURATION_SEC : R := 15.
Definition WINDOW_OVERLAP_SEC : R := 5.
Definition MIN_VALID_FRAMES : nat := 10.

Record MatchResult : Type := {
  song_title : string;
  confidence_score : R;
  match_start_time : R;
  dtw_distance : R;
  hum_pitch : list R;
  song_pitch : list R
}.

(** [normalize_pitch_contour].  The voiced frequencies are positive, as
    pYIN gives them: on a frequency that is not positive the conversion of
    the code gives nan or -inf, which the reals do not have. *)
Definition normalize_pitch_contour (f0 : PitchTrack) : py (list R) :=
  let midi_notes := map (option_map hz_to_midi) f0 in
  let valid_notes := voiced midi_notes in
  if (length valid_notes <? MIN_VALID_FRAMES)%nat then Raise ValueError
  else
    let mean_pitch := mean valid_notes in
    Ok (map (fun m => m - mean_pitch) valid_notes).

(** The Euclidean distance of two one-element vectors. *)
Definition euclidean (a b : R) : R := sqrt (Rsqr (a - b)).

Definition compute_dtw_distance (fastdtw : FastDTW) (seq1 seq2 : list R) : py R :=
  r <- fastdtw seq1 seq2 euclidean ;;
  Ok (fst r).

(** A window with its start time in seconds. *)
Definition Window : Type := (list R * R)%type.

(** The [while] loop of [create_sliding_windows]: the windows so far and the
    start frame at which the loop ends. *)
Fixpoint window_loop (fuel : nat) (pitch_contour : list R) (frames_per_second : R)
    (window_frames step_frames : Z) (start_frame : Z) (windows : list Window)
    : py (list Window * Z) :=
  match fuel with
  | O => Loop
  | S fuel' =>
      if (start_frame + window_frames <=? Z.of_nat (length pitch_contour))%Z then
        let window :=
          slice pitch_contour (Some start_frame) (Some (start_frame + window_frames)%Z) in
        start_time <- truediv (IZR start_frame) frames_per_second ;;
        window_loop fuel' pitch_contour frames_per_second window_frames step_frames
          (start_frame + step_frames)%Z (windows ++ [(window, start_time)])
      else Ok (windows, start_frame)
  end.

Definition create_sliding_windows (fuel : nat)
    (pitch_contour : list R) (sr : Z) (window_sec overlap_sec : R)
    : py (list Window) :=
  let frames_per_second := IZR sr / IZR HOP_LENGTH in
  let window_frames := int (window_sec * frames_per_second) in
  let step_frames := int ((window_sec - overlap_sec) * frames_per_second) in
  r <- window_loop fuel pitch_contour frames_per_second window_frames step_frames 0 [] ;;
  let (windows, start_frame) := r in
  if (start_frame <? Z.of_nat (length pitch_contour))%Z then
    let window := slice pitch_contour (Some start_frame) None in
    if (MIN_VALID_FRAMES <=? length window)%nat then
      start_time <- truediv (IZR start_frame) frames_per_second ;;
      Ok (windows ++ [(window, start_time)])
    else Ok windows
  else Ok windows.

(** *** The windows in closed form, for the statements *)

(** The window of [window_frames] frames that starts at [start_frame]. *)
Definition full_window (pitch_contour : list R) (frames_per_second : R)
    (window_frames start_frame : Z) : Window :=
  (firstn (Z.to_nat window_frames) (skipn (Z.to_nat start_frame) pitch_contour),
   IZR start_frame / frames_per_second).

(** The window from [start_frame] to the end of the contour. *)
Definition tail_window (pitch_contour : list R) (frames_per_second : R)
    (start_frame : Z) : Window :=
  (skipn (Z.to_nat start_frame) pitch_contour, IZR start_frame / frames_per_second).

(** How many of the starts [start], [start + step], ... satisfy
    [start + window_frames <= len]. *)
Definition remaining (len window_frames step_frames start_frame : Z) : nat :=
  if (start_frame + window_frames <=? len)%Z
  then Z.to_nat ((len - window_frames - start_frame) / step_frames + 1)
  else O.

(** *** The song database *)

(** A file of the songs directory: its name and what [load_audio] followed
    by [extract_pitch_contour] gives on it (the sample rate is always
    [SAMPLE_RATE]). *)
Record AudioFile : Type := {
  file_name : string;
  pitch_track : py PitchTrack
}.

Record SongData : Type := {
  file_path : string;
  full_contour : list R;
  windows : list Window;
  sample_rate : Z
}.

Record SongDatabase : Type := {
  songs_directory : py (list AudioFile);   (* what [iterdir()] gives *)
  songs_cache : list (string * SongData);  (* a dict, in insertion order *)
  _loaded : bool
}.

(** [SongDatabase(songs_directory)]. *)
Definition new_database (directory : py (list AudioFile)) : SongDatabase :=
  {| songs_directory := directory; songs_cache := []; _loaded := false |}.

(** [d[key] = value] on a dict kept in insertion order. *)
Fixpoint dict_set {V : Type} (d : list (string * V)) (key : string) (value : V)
    : list (string * V) :=
  match d with
  | [] => [(key, value)]
  | (k, v) :: rest =>
      if String.eqb k key then (k, value) :: rest
      else (k, v) :: dict_set rest key value
  end.

(** The position of the last dot of a name. *)
Fixpoint rfind_dot (name : string) : option nat :=
  match name with
  | EmptyString => None
  | String c rest =>
      match rfind_dot rest with
      | Some i => Some (S i)
      | None => if Ascii.eqb c "."%char then Some O else None
      end
  end.

(** [Path(name).stem] and [Path(name).suffix]. *)
Definition stem (name : string) : string :=
  match rfind_dot name with
  | Some i =>
      if (0 <? i)%nat && (i <? String.length name - 1)%nat
      then substring 0 i name else name
  | None => name
  end.

Definition suffix (name : string) : string :=
  match rfind_dot name with
  | Some i =>
      if (0 <? i)%nat && (i <? String.length name - 1)%nat
      then substring i (String.length name - i) name else ""%string
  | None => ""%string
  end.

Definition is_upper (c : ascii) : bool :=
  let n := nat_of_ascii c in (65 <=? n)%nat && (n <=? 90)%nat.
Definition is_lower (c : ascii) : bool :=
  let n := nat_of_ascii c in (97 <=? n)%nat && (n <=? 122)%nat.
Definition to_upper (c : ascii) : ascii :=
  if is_lower c then ascii_of_nat (nat_of_ascii c - 32) else c.
Definition to_lower (c : ascii) : ascii :=
  if is_upper c then ascii_of_nat (nat_of_ascii c + 32) else c.

(** [s.lower()], [s.replace(a, b)] for single characters and [s.title()],
    on ASCII names. *)
Fixpoint lower (s : string) : string :=
  match s with
  | EmptyString => EmptyString
  | String c rest => String (to_lower c) (lower rest)
  end.

Fixpoint replace_char (a b : ascii) (s : string) : string :=
  match s with
  | EmptyString => EmptyString
  | String c rest => String (if Ascii.eqb c a then b else c) (replace_char a b rest)
  end.

Fixpoint title_from (previous_is_cased : bool) (s : string) : string :=
  match s with
  | EmptyString => EmptyString
  | String c rest =>
      if is_lower c then
        String (if previous_is_cased then c else to_upper c) (title_from true rest)
      else if is_upper c then
        String (if previous_is_cased then to_lower c else c) (title_from true rest)
      else String c (title_from false rest)
  end.

Definition _get_song_title (filename : string) : string :=
  let name := stem filename in
  let name := replace_char "-"%char " "%char (replace_char "_"%char " "%char name) in
  title_from false name.

Definition audio_extensions : list string :=
  [".mp3"; ".wav"; ".flac"; ".ogg"; ".m4a"; ".webm"]%string.

(** The body of the loop of [load_database] for one file: the cache and the
    count of loaded songs after it. *)
Definition load_file (file : AudioFile) (state : list (string * SongData) * nat)
    : py (list (string * SongData) * nat) :=
  let (cache, loaded_count) := state in
  if negb (existsb (String.eqb (lower (suffix (file_name file)))) audio_extensions)
  then Ok state
  else
    try_except
      (f0 <- pitch_track file ;;
       match normalize_pitch_contour f0 with
       | Raise ValueError => Ok state
       | outcome =>
           normalized <- outcome ;;
           windows <- create_sliding_windows (length normalized + 2) normalized
                        SAMPLE_RATE WINDOW_DURATION_SEC WINDOW_OVERLAP_SEC ;;
           let song_title := _get_song_title (file_name file) in
           Ok (dict_set cache song_title
                 {| file_path := file_name file;
                    full_contour := normalized;
                    windows := windows;
                    sample_rate := SAMPLE_RATE |},
               S loaded_count)
       end)
      (Ok state).

Fixpoint load_files (files : list AudioFile) (state : list (string * SongData) * nat)
    : py (list (string * SongData) * nat) :=
  match files with
  | [] => Ok state
  | file :: rest => state' <- load_file file state ;; load_files rest state'
  end.

(** A file that [load_database] skips: not an audio extension, or its
    decoding or pitch tracking raises, or it has too few voiced frames. *)
Definition unusable (file : AudioFile) : Prop :=
  existsb (String.eqb (lower (suffix (file_name file)))) audio_extensions = false
  \/ (exists e, pitch_track file = Raise e)
  \/ (exists f0, pitch_track file = Ok f0
                 /\ (length (voiced f0) < MIN_VALID_FRAMES)%nat).

(** What every entry of the cache satisfies: a centred contour of at
    least [MIN_VALID_FRAMES] frames at the sample rate of the engine, cut
    into at least one window, each window of [MIN_VALID_FRAMES] to 645
    frames (645 frames are 15 s at 22050 / 512 frames per second). *)
Definition well_indexed (data : SongData) : Prop :=
  (MIN_VALID_FRAMES <= length (full_contour data))%nat
  /\ mean (full_contour data) = 0
  /\ sample_rate data = SAMPLE_RATE
  /\ windows data <> []
  /\ Forall (fun w : Window =>
               (MIN_VALID_FRAMES <= length (fst w) <= 645)%nat) (windows data).

(** What [load_database] stores for a file that it does not skip: the path
    of the file (its name here, the directory being the same for all), its
    normalized contour and the windows cut from it. *)
Definition indexed_as (file : AudioFile) (data : SongData) : Prop :=
  existsb (String.eqb (lower (suffix (file_name file)))) audio_extensions = true
  /\ file_path data = file_name file
  /\ sample_rate data = SAMPLE_RATE
  /\ exists f0,
       pitch_track file = Ok f0
       /\ normalize_pitch_contour f0 = Ok (full_contour data)
       /\ create_sliding_windows (length (full_contour data) + 2) (full_contour data)
            SAMPLE_RATE WINDOW_DURATION_SEC WINDOW_OVERLAP_SEC
          = Ok (windows data).

(** [load_database]: the number returned and the database after the call. *)
Definition load_database (db : SongDatabase) : py (nat * SongDatabase) :=
  if _loaded db then Ok (length (songs_cache db), db)
  else
    files <- songs_directory db ;;
    state <- load_files files (songs_cache db, O) ;;
    let (cache, loaded_count) := state in
    Ok (loaded_count,
        {| songs_directory := songs_directory db;
           songs_cache := cache;
           _loaded := true |}).

(** [get_all_songs] on a loaded database. *)
Definition get_all_songs (db : SongDatabase) : list (string * SongData) := songs_cache db.

(** All the windows of the cache with the title of their song, in the
    order in which [identify_melody] compares them. *)
Definition all_windows (songs : list (string * SongData)) : list (string * Window) :=
  flat_map (fun e => map (pair (fst e)) (windows (snd e))) songs.

(** The best match so far and its distance; no distance yet is [inf]. *)
Definition Best : Type := (option MatchResult * option R)%type.

(** The match recorded for a window at a given distance. *)
Definition match_result (hum_normalized : list R) (title : string) (w : Window)
    (distance : R) : MatchResult :=
  {| song_title := title;
     confidence_score := round2 (Rmax 0 (Rmin 100 (100 - distance / 50)));
     match_start_time := round2 (snd w);
     dtw_distance := round2 distance;
     hum_pitch := hum_normalized;
     song_pitch := fst w |}.

(** The body of the inner loop of [identify_melody], for one window. *)
Definition match_window (fastdtw : FastDTW) (hum_normalized : list R)
    (title : string) (w : Window) (best : Best) : py Best :=
  let (window_contour, window_start_time) := w in
  distance <- compute_dtw_distance fastdtw hum_normalized window_contour ;;
  let improves :=
    match snd best with
    | None => true
    | Some best_distance => Rltb distance best_distance
    end in
  if improves then
    let confidence := Rmax 0 (Rmin 100 (100 - distance / 50)) in
    Ok (Some {| song_title := title;
                confidence_score := round2 confidence;
                match_start_time := round2 window_start_time;
                dtw_distance := round2 distance;
                hum_pitch := hum_normalized;
                song_pitch := window_contour |},
        Some distance)
  else Ok best.

Fixpoint match_windows (fastdtw : FastDTW) (hum_normalized : list R)
    (title : string) (ws : list Window) (best : Best) : py Best :=
  match ws with
  | [] => Ok best
  | w :: rest =>
      best' <- match_window fastdtw hum_normalized title w best ;;
      match_windows fastdtw hum_normalized title rest best'
  end.

Fixpoint match_songs (fastdtw : FastDTW) (hum_normalized : list R)
    (songs : list (string * SongData)) (best : Best) : py Best :=
  match songs with
  | [] => Ok best
  | (title, song_data) :: rest =>
      best' <- match_windows fastdtw hum_normalized title (windows song_data) best ;;
      match_songs fastdtw hum_normalized rest best'
  end.

(** [identify_melody]: [hum] is what [load_audio] and
    [extract_pitch_contour] give on the hummed file; the result comes with
    the database as the call leaves it. *)
Definition identify_melody (fastdtw : FastDTW)
    (hum : py PitchTrack) (directory : py (list AudioFile))
    (database : option SongDatabase)
    : py (option MatchResult * SongDatabase) :=
  let database :=
    match database with
    | None => new_database directory
    | Some db => db
    end in
  loaded <- load_database database ;;
  let (num_songs, database) := loaded in
  if (num_songs =? 0)%nat then Ok (None, database)
  else
    hum_f0 <- hum ;;
    hum_normalized <- normalize_pitch_contour hum_f0 ;;
    best <- match_songs fastdtw hum_normalized (get_all_songs database) (None, None) ;;
    Ok (fst best, database).

(** What the loops of [identify_melody] keep, for a distance [dist] on
    windows: nothing compared yet, or the first window of least distance
    among those compared. *)
Definition least_so_far (hum_normalized : list R) (dist : list R -> R)
    (seen : list (string * Window)) (best : Best) : Prop :=
  match best with
  | (None, None) => seen = []
  | (Some r, Some d) =>
      exists title w before after,
        seen = before ++ (title, w) :: after
        /\ d = dist (fst w)
        /\ r = match_result hum_normalized title w (dist (fst w))
        /\ (forall e, In e before -> d < dist (fst (snd e)))
        /\ (forall e, In e after -> d <= dist (fst (snd e)))
  | _ => False
  end.

(** A small loaded database and an alignment, for examples: one song of
    two windows, and the absolute first value of a window as distance. *)
Definition demo_database : SongDatabase :=
  {| songs_directory := Ok [];
     songs_cache :=
       [("Scale"%string,
         {| file_path := "scale.wav"%string;
            full_contour := [3; 1; -1; -3];
            windows := [([3; 1], 0); ([-1; -3], 2)];
            sample_rate := SAMPLE_RATE |})];
     _loaded := true |}.

(** A recording of twelve voiced frames at 220 Hz under a given name. *)
Definition demo_file (name : string) : AudioFile :=
  {| file_name := name; pitch_track := Ok (repeat (Some 220) 12) |}.

Definition demo_dist (w : list R) : R := Rabs (hd 0 w).

Definition demo_fastdtw : FastDTW := fun _ w _ => Ok (demo_dist w, []).

End DspEngine.

(** ** Facts about the Python helpers *)

Section PyFacts.

Open Scope R_scope.

Lemma int_IZR (z : Z) : int (IZR z) = z.
Proof.
  unfold int. destruct (Rle_dec 0 (IZR z)).
  - apply ZfloorZ.
  - unfold Zceil. rewrite <- opp_IZR, ZfloorZ. lia.
Qed.

Lemma int_nonneg (x : R) : 0 <= x -> (0 <= int x)%Z.
Proof.
  intros Hx. unfold int. destruct (Rle_dec 0 x) as [_ | n]; [ | contradiction ].
  apply Zfloor_lub. exact Hx.
Qed.

Lemma int_le (x y : R) : 0 <= x -> x <= y -> (int x <= int y)%Z.
Proof.
  intros Hx Hxy. unfold int.
  destruct (Rle_dec 0 x) as [_ | n]; [ | contradiction ].
  destruct (Rle_dec 0 y) as [_ | n]; [ | exfalso; lra ].
  apply Zfloor_le. exact Hxy.
Qed.

Lemma round_IZR (z : Z) : round (IZR z) = z.
Proof.
  unfold round. rewrite ZfloorZ.
  destruct (Rlt_dec (IZR z - IZR z) (1 / 2)) as [_ | n]; [ reflexivity | ].
  exfalso. apply n. lra.
Qed.

End PyFacts.

(** ** melody.py: the relative-pitch contour *)

Section RelativePitch.

Open Scope Z_scope.

(** C10: every element of the relative-pitch sequence is nonzero and of
    absolute value below 22, whatever the list of average note numbers:
    repeated notes and jumps of 22 semitones or more are dropped. *)
Theorem find_relative_pitch_bounded (avg_pitch_values : list Z) :
  Forall (fun d => d <> 0 /\ Z.abs d < 22)
         (Melody._find_relative_pitch avg_pitch_values).
Proof.
  induction avg_pitch_values as [ | a rest IH ]; [ constructor | ].
  destruct rest as [ | b rest' ]; [ constructor | ].
  change (Melody._find_relative_pitch (a :: b :: rest')) with
    (let pitch_change := -1 * (a - b) in
     if (pitch_change =? 0) || (22 <=? Z.abs pitch_change)
     then Melody._find_relative_pitch (b :: rest')
     else pitch_change :: Melody._find_relative_pitch (b :: rest')).
  cbv zeta.
  destruct (Z.eqb_spec (-1 * (a - b)) 0) as [ E | NE ]; [ exact IH | ].
  destruct (Z.leb_spec 22 (Z.abs (-1 * (a - b)))) as [ L | L ]; [ exact IH | ].
  cbn [orb]. constructor; [ split; assumption | exact IH ].
Qed.

End RelativePitch.

(** ** melody.py: the onset intervals *)

Section OnsetIntervals.

Open Scope Z_scope.

Lemma slice_nonneg (A : Type) (l : list A) (s e : Z) :
  0 <= s -> 0 <= e ->
  slice l (Some s) (Some e)
  = firstn (Z.to_nat e - Z.to_nat s) (skipn (Z.to_nat s) l).
Proof.
  intros Hs He. unfold slice, clamp_index.
  destruct (Z.ltb_spec s 0) as [ ? | _ ]; [ lia | ].
  destruct (Z.ltb_spec e 0) as [ ? | _ ]; [ lia | ].
  set (len := Z.of_nat (length l)).
  destruct (Z.le_gt_cases len s) as [ Hls | Hls ].
  - (* the slice starts at or after the end *)
    rewrite (skipn_all2 (n := Z.to_nat (Z.min s len))) by (unfold len in *; lia).
    rewrite (skipn_all2 (n := Z.to_nat s)) by (unfold len in *; lia).
    now rewrite !firstn_nil.
  - replace (Z.min s len) with s by lia.
    destruct (Z.le_gt_cases len e) as [ Hle | Hle ].
    + replace (Z.min e len) with len by lia.
      rewrite !firstn_all2; [ reflexivity | | ];
        rewrite length_skipn; unfold len in *; lia.
    + replace (Z.min e len) with e by lia.
      f_equal. lia.
Qed.

(** A slice that ends at or before [bound] only reads the first [bound]
    elements. *)
Lemma slice_below (A : Type) (l l' : list A) (s e bound : Z) :
  0 <= s -> 0 <= e -> e <= bound ->
  firstn (Z.to_nat bound) l' = firstn (Z.to_nat bound) l ->
  slice l' (Some s) (Some e) = slice l (Some s) (Some e).
Proof.
  intros Hs He Hb Hagree.
  rewrite !slice_nonneg by assumption.
  destruct (Z.le_gt_cases e s) as [ Hes | Hes ].
  - replace (Z.to_nat e - Z.to_nat s)%nat with O by lia. reflexivity.
  - rewrite !firstn_skipn_comm.
    replace (Z.to_nat s + (Z.to_nat e - Z.to_nat s))%nat with (Z.to_nat e) by lia.
    assert (Hcut : forall m : list A,
               firstn (Z.to_nat e) m
               = firstn (Z.to_nat e) (firstn (Z.to_nat bound) m)).
    { intros m. rewrite firstn_firstn. f_equal. lia. }
    rewrite (Hcut l'), (Hcut l), Hagree. reflexivity.
Qed.

Lemma interval_note_below (pv pv' : list R) (s e bound : Z) :
  0 <= s -> e <= bound ->
  firstn (Z.to_nat bound) pv' = firstn (Z.to_nat bound) pv ->
  Melody.interval_note pv' s e = Melody.interval_note pv s e.
Proof.
  intros Hs Hb Hagree. unfold Melody.interval_note.
  destruct (Z.ltb_spec s e) as [ Hse | _ ]; [ | reflexivity ].
  rewrite (@slice_below R pv pv' s e bound) by (assumption || lia).
  reflexivity.
Qed.

(** The loop of [_average_per_interval] gives one note per index, and the
    same notes on two pitch tracks that agree below [bound], as long as the
    table entries it reads lie between 0 and [bound]. *)
Lemma average_loop_below (pv pv' : list R) (table : list Z) (bound : Z)
    (indices : list nat) :
  (forall i, In i indices ->
     exists s e, nth_error table i = Some s /\ nth_error table (i + 1) = Some e
                 /\ 0 <= s /\ e <= bound) ->
  firstn (Z.to_nat bound) pv' = firstn (Z.to_nat bound) pv ->
  exists avgs,
    Melody.average_loop pv table indices = Ok avgs
    /\ Melody.average_loop pv' table indices = Ok avgs
    /\ length avgs = length indices.
Proof.
  intros Hread Hagree.
  induction indices as [ | i rest IH ].
  - exists []. repeat split.
  - destruct IH as [ avgs [ E1 [ E2 EL ] ] ].
    { intros j Hj. apply Hread. now right. }
    destruct (Hread i (or_introl eq_refl)) as [ s [ e [ Es [ Ee [ Hs He ] ] ] ] ].
    exists (Melody.interval_note pv s e :: avgs).
    cbn [Melody.average_loop]. unfold getitem.
    rewrite Es, Ee. cbn [bind]. rewrite E1, E2. cbn [bind].
    rewrite (@interval_note_below pv pv' s e bound) by assumption.
    repeat split. cbn [length]. now rewrite EL.
Qed.

Open Scope R_scope.

Lemma frame_idx_nonneg (d : R) (total : nat) (t : R) :
  0 < d -> 0 <= t -> (0 <= Melody.frame_idx d total t)%Z.
Proof.
  intros Hd Ht. unfold Melody.frame_idx. apply int_nonneg.
  apply Rmult_le_pos; [ | apply pos_INR ].
  apply Rmult_le_pos; [ exact Ht | ]. left. now apply Rinv_0_lt_compat.
Qed.

Lemma frame_idx_le (d : R) (total : nat) (t u : R) :
  0 < d -> 0 <= t -> t <= u ->
  (Melody.frame_idx d total t <= Melody.frame_idx d total u)%Z.
Proof.
  intros Hd Ht Htu. unfold Melody.frame_idx.
  assert (Hinv : 0 < / d) by now apply Rinv_0_lt_compat.
  assert (HN : 0 <= INR total) by apply pos_INR.
  apply int_le.
  - apply Rmult_le_pos; [ | exact HN ].
    apply Rmult_le_pos; [ exact Ht | now left ].
  - apply Rmult_le_compat_r; [ exact HN | ].
    apply Rmult_le_compat_r; [ now left | exact Htu ].
Qed.

Lemma sorted_le_last (l : list R) (t : R) :
  Sorted Rle l -> In t l -> t <= last l 0.
Proof.
  intros HS. apply Sorted_StronglySorted in HS; [ | intros x y z; apply Rle_trans ].
  revert t.
  induction HS as [ | a l HS IH Hall ]; intros t Hin; [ contradiction | ].
  destruct l as [ | b l' ].
  - destruct Hin as [ <- | [] ]. cbn. lra.
  - change (last (a :: b :: l') 0) with (last (b :: l') 0).
    destruct Hin as [ <- | Hin ]; [ | now apply IH ].
    apply Rle_trans with b.
    + rewrite Forall_forall in Hall. apply Hall. now left.
    + apply IH. now left.
Qed.

Lemma pitches_per_interval_table (audio_length : Z) (pv : list R) (onsets : list R) :
  (0 < audio_length)%Z ->
  Melody._pitches_per_interval audio_length pv onsets
  = Ok (map (Melody.frame_idx (IZR audio_length / IZR Melody.SAMPLE_RATE) (length pv))
            onsets ++ [Z.of_nat (length pv)]).
Proof.
  intros Hlen. unfold Melody._pitches_per_interval.
  destruct onsets as [ | t rest ]; [ reflexivity | ].
  destruct (Req_dec_T (IZR audio_length / IZR Melody.SAMPLE_RATE) 0) as [ E | _ ];
    [ | reflexivity ].
  exfalso. apply IZR_lt in Hlen. unfold Melody.SAMPLE_RATE in E.
  assert (0 < IZR audio_length / 22050); [ | lra ].
  apply Rdiv_lt_0_compat; lra.
Qed.

End OnsetIntervals.

Section FinalInterval.

Open Scope R_scope.

(** C9: for N onsets the boundary table of [_pitches_per_interval] has
    N + 1 entries, [_average_per_interval] gives only N - 1 averages, and
    the pitch frames from the last onset to the end of the audio contribute
    neither to the averages nor to the extracted features: two pitch tracks
    of the same length that agree before the frame of the last onset give
    the same averages and the same features. *)
Theorem final_onset_interval_unused
    (audio_length : Z) (tempo_bpm : R) (pv pv' : list R) (onsets : list R) :
  (0 < audio_length)%Z ->
  Sorted Rle onsets ->
  Forall (Rle 0) onsets ->
  length pv' = length pv ->
  (let last_frame :=
     Melody.frame_idx (IZR audio_length / IZR Melody.SAMPLE_RATE) (length pv)
       (last onsets 0) in
   firstn (Z.to_nat last_frame) pv' = firstn (Z.to_nat last_frame) pv) ->
  exists table avgs,
    Melody._pitches_per_interval audio_length pv onsets = Ok table
    /\ length table = S (length onsets)
    /\ Melody._average_per_interval pv table onsets = Ok avgs
    /\ length avgs = (length onsets - 1)%nat
    /\ Melody._pitches_per_interval audio_length pv' onsets = Ok table
    /\ Melody._average_per_interval pv' table onsets = Ok avgs
    /\ Melody.extract_features audio_length tempo_bpm pv' onsets
       = Melody.extract_features audio_length tempo_bpm pv onsets.
Proof.
  intros Hlen Hsorted Hpos Hsame Hagree. cbv zeta in Hagree.
  set (d := IZR audio_length / IZR Melody.SAMPLE_RATE) in *.
  set (total := length pv) in *.
  set (bound := Melody.frame_idx d total (last onsets 0)) in *.
  set (table := map (Melody.frame_idx d total) onsets ++ [Z.of_nat total]).
  assert (Hd : 0 < d).
  { unfold d, Melody.SAMPLE_RATE. apply IZR_lt in Hlen.
    apply Rdiv_lt_0_compat; lra. }
  assert (Htable : Melody._pitches_per_interval audio_length pv onsets = Ok table)
    by now apply pitches_per_interval_table.
  assert (Htable' : Melody._pitches_per_interval audio_length pv' onsets = Ok table).
  { rewrite pitches_per_interval_table by assumption. now rewrite Hsame. }
  assert (Hentry : forall i, (i < length onsets)%nat ->
            exists t, In t onsets
                      /\ nth_error table i = Some (Melody.frame_idx d total t)).
  { intros i Hi. destruct (nth_error onsets i) as [ t | ] eqn:Et.
    - exists t. split; [ now apply nth_error_In with i | ].
      unfold table. rewrite nth_error_app1 by now rewrite length_map.
      now apply map_nth_error.
    - apply nth_error_None in Et. lia. }
  assert (Hrange : forall t, In t onsets ->
            (0 <= Melody.frame_idx d total t <= bound)%Z).
  { intros t Ht. rewrite Forall_forall in Hpos. split.
    - apply frame_idx_nonneg; [ exact Hd | now apply Hpos ].
    - apply frame_idx_le; [ exact Hd | now apply Hpos | now apply sorted_le_last ]. }
  destruct (@average_loop_below pv pv' table bound
              (range (length onsets - 1))) as [ avgs [ E1 [ E2 EL ] ] ].
  { intros i Hi. unfold range in Hi. apply in_seq in Hi.
    destruct (Hentry i) as [ s [ Hs Es ] ]; [ lia | ].
    destruct (Hentry (i + 1)%nat) as [ e [ He Ee ] ]; [ lia | ].
    exists (Melody.frame_idx d total s), (Melody.frame_idx d total e).
    repeat split; try assumption; now apply Hrange. }
  { exact Hagree. }
  exists table, avgs. repeat split; try assumption.
  - unfold table. rewrite length_app, length_map. cbn. lia.
  - rewrite EL. unfold range. now rewrite length_seq.
  - unfold Melody.extract_features. rewrite Htable, Htable'. cbn [bind].
    unfold Melody._average_per_interval in E1, E2 |- *.
    now rewrite E1, E2.
Qed.

(** The theorem at two onsets (0 s and 1 s) over two seconds of audio and
    four pitch frames: the last two frames differ and nothing changes. *)
Lemma final_onset_interval_unused_witness :
  exists table avgs,
    Melody._pitches_per_interval 44100 [440; 440; 440; 880] [0; 1] = Ok table
    /\ length table = 3%nat
    /\ Melody._average_per_interval [440; 440; 440; 880] table [0; 1] = Ok avgs
    /\ length avgs = 1%nat
    /\ Melody._pitches_per_interval 44100 [440; 440; 100; 0] [0; 1] = Ok table
    /\ Melody._average_per_interval [440; 440; 100; 0] table [0; 1] = Ok avgs
    /\ Melody.extract_features 44100 120 [440; 440; 100; 0] [0; 1]
       = Melody.extract_features 44100 120 [440; 440; 440; 880] [0; 1].
Proof.
  apply (@final_onset_interval_unused 44100 120
           [440; 440; 440; 880] [440; 440; 100; 0] [0; 1]).
  - lia.
  - repeat constructor. lra.
  - repeat constructor; lra.
  - reflexivity.
  - cbv zeta.
    assert (E : Melody.frame_idx (IZR 44100 / IZR Melody.SAMPLE_RATE)
                  (length [440; 440; 440; 880]) (last [0; 1] 0) = 2%Z).
    { unfold Melody.frame_idx, Melody.SAMPLE_RATE. cbn [length last].
      replace (1 / (44100 / 22050) * INR 4) with (IZR 2) by (cbn; field).
      apply int_IZR. }
    rewrite E. reflexivity.
Defined.

End FinalInterval.

(** ** dsp_utils.py: the interval contour *)

Section IntervalContour.

Open Scope R_scope.

Lemma diff_length (l : list R) : length (diff l) = (length l - 1)%nat.
Proof.
  induction l as [ | a rest IH ]; [ reflexivity | ].
  destruct rest as [ | b rest' ]; [ reflexivity | ].
  change (diff (a :: b :: rest')) with ((b - a) :: diff (b :: rest')).
  cbn [length] in *. lia.
Qed.

Lemma diff_nth (l : list R) (i : nat) :
  (i < length l - 1)%nat -> nth i (diff l) 0 = nth (S i) l 0 - nth i l 0.
Proof.
  revert i. induction l as [ | a rest IH ]; intros i Hi; [ cbn in Hi; lia | ].
  destruct rest as [ | b rest' ]; [ cbn in Hi; lia | ].
  change (diff (a :: b :: rest')) with ((b - a) :: diff (b :: rest')).
  destruct i as [ | i ]; [ reflexivity | ].
  cbn [nth]. rewrite IH; [ reflexivity | cbn [length] in *; lia ].
Qed.

Lemma clip_IZR (lo hi z : Z) :
  clip (IZR lo) (IZR hi) (IZR z) = IZR (Z.min (Z.max z lo) hi).
Proof.
  unfold clip, Rmax, Rmin.
  destruct (Rle_dec (IZR z) (IZR lo)) as [ H1 | H1 ].
  - apply le_IZR in H1. replace (Z.max z lo) with lo by lia.
    destruct (Rle_dec (IZR lo) (IZR hi)) as [ H2 | H2 ].
    + apply le_IZR in H2. f_equal. lia.
    + assert (hi < lo)%Z by (apply lt_IZR; lra). f_equal. lia.
  - assert (lo < z)%Z by (apply lt_IZR; lra).
    replace (Z.max z lo) with z by lia.
    destruct (Rle_dec (IZR z) (IZR hi)) as [ H2 | H2 ].
    + apply le_IZR in H2. f_equal. lia.
    + assert (hi < z)%Z by (apply lt_IZR; lra). f_equal. lia.
Qed.

(** What the specification asks for is the code's output followed by a
    mean subtraction, which the code does not perform. *)
Lemma spec_interval_contour_unfold (pitch : list R) :
  DspUtils.spec_interval_contour pitch
  = map (fun d => d - mean (DspUtils.normalize_to_intervals pitch))
        (DspUtils.normalize_to_intervals pitch).
Proof.
  unfold DspUtils.spec_interval_contour, DspUtils.normalize_to_intervals.
  destruct (Nat.ltb_spec (length pitch) 2) as [ Hshort | _ ]; [ | reflexivity ].
  destruct pitch as [ | a [ | b rest ] ]; [ reflexivity | reflexivity | ].
  cbn [length] in Hshort. lia.
Qed.

(** C2, as the code has it: the interval contour is the sequence of first
    differences, each rounded to the nearest integer and clipped to
    [-7, 7]; no mean is subtracted (the specification's contour is this one
    minus its mean). *)
Theorem normalize_to_intervals_rounds_and_clips (pitch_midi : list R) :
  length (DspUtils.normalize_to_intervals pitch_midi) = (length pitch_midi - 1)%nat
  /\ (forall i, (i < length pitch_midi - 1)%nat ->
        nth i (DspUtils.normalize_to_intervals pitch_midi) 0
        = IZR (Z.min (Z.max (round (nth (S i) pitch_midi 0 - nth i pitch_midi 0))
                            (-7)) 7))
  /\ DspUtils.spec_interval_contour pitch_midi
     = map (fun d => d - mean (DspUtils.normalize_to_intervals pitch_midi))
           (DspUtils.normalize_to_intervals pitch_midi).
Proof.
  split; [ | split; [ | apply spec_interval_contour_unfold ] ].
  - unfold DspUtils.normalize_to_intervals.
    destruct (Nat.ltb_spec (length pitch_midi) 2) as [ Hshort | _ ].
    + cbn [length]. lia.
    + now rewrite !length_map, diff_length.
  - intros i Hi. unfold DspUtils.normalize_to_intervals.
    destruct (Nat.ltb_spec (length pitch_midi) 2) as [ Hshort | _ ]; [ lia | ].
    rewrite map_map.
    rewrite (nth_indep _ 0 (clip (-7) 7 (IZR (round 0))))
      by now rewrite length_map, diff_length.
    rewrite (map_nth (fun d => clip (-7) 7 (IZR (round d))) (diff pitch_midi) 0 i).
    rewrite diff_nth by exact Hi.
    apply (clip_IZR (-7) 7).
Qed.

(** C2 fails as stated: on the example of the docstring the code returns
    [2; 2; 1; -1], whose mean is 1, and not the mean-subtracted contour. *)
Lemma normalize_to_intervals_keeps_mean :
  DspUtils.normalize_to_intervals [60; 62; 64; 65; 64] = [2; 2; 1; -1]
  /\ DspUtils.normalize_to_intervals [60; 62; 64; 65; 64]
     <> DspUtils.spec_interval_contour [60; 62; 64; 65; 64].
Proof.
  assert (E : DspUtils.normalize_to_intervals [60; 62; 64; 65; 64] = [2; 2; 1; -1]).
  { unfold DspUtils.normalize_to_intervals. cbn [length Nat.ltb Nat.leb diff map].
    replace (62 - 60) with (IZR 2) by lra.
    replace (64 - 62) with (IZR 2) by lra.
    replace (65 - 64) with (IZR 1) by lra.
    replace (64 - 65) with (IZR (-1)) by lra.
    rewrite !round_IZR.
    rewrite !(clip_IZR (-7) 7). reflexivity. }
  split; [ exact E | ].
  rewrite spec_interval_contour_unfold, E. cbn [map].
  intros H. injection H as H _ _ _.
  unfold mean, sum in H. cbn [fold_right length INR] in H. lra.
Qed.

End IntervalContour.

(** ** dsp_engine.py: the sliding windows *)

Section SlidingWindows.

Open Scope Z_scope.

Lemma slice_to_end (A : Type) (l : list A) (s : Z) :
  0 <= s -> slice l (Some s) None = skipn (Z.to_nat s) l.
Proof.
  intros Hs. unfold slice, clamp_index.
  destruct (Z.ltb_spec s 0) as [ ? | _ ]; [ lia | ].
  set (len := Z.of_nat (length l)).
  destruct (Z.le_gt_cases len s) as [ Hls | Hls ].
  - rewrite (skipn_all2 (n := Z.to_nat (Z.min s len))) by (unfold len in *; lia).
    rewrite (skipn_all2 (n := Z.to_nat s)) by (unfold len in *; lia).
    apply firstn_nil.
  - replace (Z.min s len) with s by lia.
    apply firstn_all2. rewrite length_skipn. unfold len in *. lia.
Qed.

Lemma remaining_next (len W step start : Z) :
  0 < step -> start + W <= len ->
  DspEngine.remaining len W step start
  = S (DspEngine.remaining len W step (start + step)).
Proof.
  intros Hstep Hfits. unfold DspEngine.remaining.
  destruct (Z.leb_spec (start + W) len) as [ _ | ? ]; [ | lia ].
  destruct (Z.leb_spec (start + step + W) len) as [ Hnext | Hnext ].
  - replace (len - W - (start + step)) with (len - W - start + (-1) * step) by lia.
    rewrite Z.div_add by lia.
    assert (1 <= (len - W - start) / step)
      by (apply Z.div_le_lower_bound; lia).
    lia.
  - rewrite Z.div_small by lia. reflexivity.
Qed.

Lemma remaining_bound (len W step : Z) :
  0 < step -> 0 <= W -> 0 <= len ->
  (DspEngine.remaining len W step 0 <= Z.to_nat len + 1)%nat.
Proof.
  intros Hstep HW Hlen. unfold DspEngine.remaining.
  destruct (Z.leb_spec (0 + W) len) as [ Hfits | _ ]; [ | lia ].
  assert ((len - W - 0) / step <= len - W - 0)
    by (apply Z.div_le_upper_bound; nia).
  lia.
Qed.

(** The full windows start exactly at the multiples [k * step] with
    [k * step + W <= len]. *)
Lemma remaining_iff (len W step : Z) (k : nat) :
  0 < step ->
  (k < DspEngine.remaining len W step 0)%nat <-> Z.of_nat k * step + W <= len.
Proof.
  intros Hstep. unfold DspEngine.remaining.
  destruct (Z.leb_spec (0 + W) len) as [ Hfits | Hfits ].
  - replace (len - W - 0) with (len - W) by lia.
    assert (Hq : 0 <= (len - W) / step) by (apply Z.div_pos; lia).
    split; intros H.
    + assert (Z.of_nat k <= (len - W) / step) by lia.
      assert (step * ((len - W) / step) <= len - W)
        by (apply Z.mul_div_le; lia).
      nia.
    + assert (Z.of_nat k <= (len - W) / step)
        by (apply Z.div_le_lower_bound; lia).
      lia.
  - split; intros H; [ lia | nia ].
Qed.

(** The loop: it ends, and it appends the window of each start. *)
Lemma window_loop_spec (contour : list R) (fps : R) (W step : Z) :
  fps <> 0%R -> 0 <= W -> 0 < step ->
  forall (fuel : nat) (start : Z) (acc : list DspEngine.Window),
    0 <= start ->
    (DspEngine.remaining (Z.of_nat (length contour)) W step start < fuel)%nat ->
    DspEngine.window_loop fuel contour fps W step start acc
    = Ok (acc ++ map (fun k => DspEngine.full_window contour fps W
                                 (start + Z.of_nat k * step))
                     (seq 0 (DspEngine.remaining (Z.of_nat (length contour)) W step start)),
          start + Z.of_nat (DspEngine.remaining (Z.of_nat (length contour)) W step start)
                  * step).
Proof.
  intros Hfps HW Hstep. set (len := Z.of_nat (length contour)).
  induction fuel as [ | fuel IH ]; intros start acc Hstart Hfuel; [ lia | ].
  cbn [DspEngine.window_loop]. fold len.
  destruct (Z.leb_spec (start + W) len) as [ Hfits | Hover ].
  - unfold truediv. destruct (Req_dec_T fps 0) as [ ? | _ ]; [ contradiction | ].
    cbn [bind].
    rewrite (@remaining_next len W step start Hstep Hfits) in Hfuel |- *.
    rewrite IH by lia.
    f_equal. f_equal.
    + rewrite <- app_assoc. f_equal.
      cbn [seq map app]. f_equal.
      * unfold DspEngine.full_window. rewrite slice_nonneg by lia.
        replace (start + Z.of_nat 0 * step) with start by lia.
        do 2 f_equal. lia.
      * rewrite <- seq_shift, map_map. apply map_ext. intros k.
        f_equal. lia.
    + lia.
  - unfold DspEngine.remaining.
    destruct (Z.leb_spec (start + W) len) as [ ? | _ ]; [ lia | ].
    cbn [seq map]. rewrite app_nil_r. f_equal. f_equal. lia.
Qed.

End SlidingWindows.

Section WindowCoverage.

Open Scope Z_scope.

(** C5: with a step of at least one frame, [create_sliding_windows] ends
    and returns the full windows that start at 0, step, 2 step, ... as long
    as start + window length <= contour length, each of exactly the window
    length, followed by one last window from the next start to the end of
    the contour if and only if at least [MIN_VALID_FRAMES] frames remain
    there; every window is a slice of the contour, so none runs past its
    end. *)
Theorem sliding_windows_cover
    (fuel : nat) (contour : list R) (sr : Z) (window_sec overlap_sec : R) :
  let fps := (IZR sr / IZR DspEngine.HOP_LENGTH)%R in
  let W := int (window_sec * fps) in
  let step := int ((window_sec - overlap_sec) * fps) in
  0 < sr -> 0 <= W -> 0 < step ->
  (length contour + 1 < fuel)%nat ->
  exists n : nat,
    (forall k : nat, (k < n)%nat <-> Z.of_nat k * step + W <= Z.of_nat (length contour))
    /\ DspEngine.create_sliding_windows fuel contour sr window_sec overlap_sec
       = Ok (map (fun k => DspEngine.full_window contour fps W (Z.of_nat k * step))
                 (seq 0 n)
             ++ (if (DspEngine.MIN_VALID_FRAMES
                     <=? length contour - Z.to_nat (Z.of_nat n * step))%nat
                 then [DspEngine.tail_window contour fps (Z.of_nat n * step)]
                 else []))
    /\ (forall k : nat, (k < n)%nat ->
          length (fst (DspEngine.full_window contour fps W (Z.of_nat k * step)))
          = Z.to_nat W).
Proof.
  intros fps W step Hsr HW Hstep Hfuel.
  set (len := Z.of_nat (length contour)).
  set (n := DspEngine.remaining len W step 0).
  assert (Hfps : fps <> 0%R).
  { unfold fps, DspEngine.HOP_LENGTH. apply IZR_lt in Hsr.
    assert (0 < IZR sr / 512)%R; [ apply Rdiv_lt_0_compat; lra | lra ]. }
  assert (Hn : forall k : nat, (k < n)%nat <-> Z.of_nat k * step + W <= len)
    by (intros k; now apply remaining_iff).
  exists n. split; [ exact Hn | split ].
  - unfold DspEngine.create_sliding_windows. fold fps. fold W. fold step.
    rewrite (@window_loop_spec contour fps W step Hfps HW Hstep fuel 0 []).
    2: lia.
    2: { pose proof (@remaining_bound len W step Hstep HW). unfold len in *. lia. }
    fold len. fold n. cbn [bind app].
    replace (0 + Z.of_nat n * step) with (Z.of_nat n * step) by lia.
    assert (Hmap : map (fun k : nat =>
                          DspEngine.full_window contour fps W (0 + Z.of_nat k * step))
                       (seq 0 n)
                   = map (fun k : nat =>
                            DspEngine.full_window contour fps W (Z.of_nat k * step))
                         (seq 0 n)).
    { apply map_ext. intros k. f_equal. }
    rewrite Hmap.
    assert (Hpos : 0 <= Z.of_nat n * step) by nia.
    destruct (Z.ltb_spec (Z.of_nat n * step) len) as [ Hleft | Hnone ].
    + rewrite slice_to_end by exact Hpos. rewrite length_skipn.
      destruct (Nat.leb_spec DspEngine.MIN_VALID_FRAMES
                  (length contour - Z.to_nat (Z.of_nat n * step))) as [ _ | _ ].
      * unfold truediv.
        destruct (Req_dec_T fps 0) as [ ? | _ ]; [ contradiction | ].
        reflexivity.
      * now rewrite app_nil_r.
    + destruct (Nat.leb_spec DspEngine.MIN_VALID_FRAMES
                  (length contour - Z.to_nat (Z.of_nat n * step))) as [ Hten | _ ].
      * unfold DspEngine.MIN_VALID_FRAMES, len in *. lia.
      * now rewrite app_nil_r.
  - intros k Hk. apply Hn in Hk. unfold DspEngine.full_window. cbn [fst].
    rewrite length_firstn, length_skipn. unfold len in Hk.
    assert (0 <= Z.of_nat k * step) by nia. lia.
Qed.

(** The theorem at 30 frames, one frame per second, windows of 20 s that
    overlap by 5 s: one full window at 0, and a last window of the 15
    frames from frame 15 on. *)
Lemma sliding_windows_cover_witness :
  exists n : nat,
    (forall k : nat,
        (k < n)%nat <->
        Z.of_nat k * int ((20 - 5) * (IZR 512 / IZR DspEngine.HOP_LENGTH))
        + int (20 * (IZR 512 / IZR DspEngine.HOP_LENGTH))
        <= Z.of_nat (length (repeat 0%R 30)))
    /\ DspEngine.create_sliding_windows 32 (repeat 0%R 30) 512 20 5
       = Ok (map (fun k =>
                    DspEngine.full_window (repeat 0%R 30)
                      (IZR 512 / IZR DspEngine.HOP_LENGTH)
                      (int (20 * (IZR 512 / IZR DspEngine.HOP_LENGTH)))
                      (Z.of_nat k * int ((20 - 5) * (IZR 512 / IZR DspEngine.HOP_LENGTH))))
                 (seq 0 n)
             ++ (if (DspEngine.MIN_VALID_FRAMES
                     <=? length (repeat 0%R 30)
                         - Z.to_nat (Z.of_nat n
                                     * int ((20 - 5) * (IZR 512 / IZR DspEngine.HOP_LENGTH))))%nat
                 then [DspEngine.tail_window (repeat 0%R 30)
                         (IZR 512 / IZR DspEngine.HOP_LENGTH)
                         (Z.of_nat n * int ((20 - 5) * (IZR 512 / IZR DspEngine.HOP_LENGTH)))]
                 else []))
    /\ (forall k : nat, (k < n)%nat ->
          length (fst (DspEngine.full_window (repeat 0%R 30)
                         (IZR 512 / IZR DspEngine.HOP_LENGTH)
                         (int (20 * (IZR 512 / IZR DspEngine.HOP_LENGTH)))
                         (Z.of_nat k * int ((20 - 5) * (IZR 512 / IZR DspEngine.HOP_LENGTH)))))
          = Z.to_nat (int (20 * (IZR 512 / IZR DspEngine.HOP_LENGTH)))).
Proof.
  assert (EW : int (20 * (IZR 512 / IZR DspEngine.HOP_LENGTH)) = 20).
  { unfold DspEngine.HOP_LENGTH.
    replace (20 * (512 / 512))%R with (IZR 20) by field. apply int_IZR. }
  assert (ES : int ((20 - 5) * (IZR 512 / IZR DspEngine.HOP_LENGTH)) = 15).
  { unfold DspEngine.HOP_LENGTH.
    replace ((20 - 5) * (512 / 512))%R with (IZR 15) by field. apply int_IZR. }
  apply (@sliding_windows_cover 32 (repeat 0%R 30) 512 20 5).
  - lia.
  - rewrite EW. lia.
  - rewrite ES. lia.
  - cbn. lia.
Defined.

End WindowCoverage.

(** ** dsp_utils.py and dsp_engine.py: the normalized contour *)

Section NormalizedContour.

Open Scope R_scope.

Lemma sum_shift (c : R) (l : list R) :
  sum (map (fun m => m - c) l) = sum l - INR (length l) * c.
Proof.
  induction l as [ | a rest IH ].
  - cbn. lra.
  - change (sum (map (fun m => m - c) (a :: rest)))
      with ((a - c) + sum (map (fun m => m - c) rest)).
    change (sum (a :: rest)) with (a + sum rest).
    change (length (a :: rest)) with (S (length rest)).
    rewrite IH, S_INR. lra.
Qed.

(** Subtracting the mean of a non-empty sequence leaves a sequence of
    mean 0. *)
Lemma mean_centered (l : list R) :
  (0 < length l)%nat -> mean (map (fun m => m - mean l) l) = 0.
Proof.
  intros Hlen. unfold mean at 1. rewrite sum_shift, length_map.
  assert (Hn : 0 < INR (length l)) by now apply lt_0_INR.
  unfold mean. field. lra.
Qed.

Lemma voiced_midi (f0 : DspUtils.PitchTrack) :
  DspUtils.voiced (map (option_map DspUtils.hz_to_midi) f0)
  = map DspUtils.hz_to_midi (DspUtils.voiced f0).
Proof.
  induction f0 as [ | [ f | ] rest IH ]; cbn; [ reflexivity | now rewrite IH | exact IH ].
Qed.

Lemma medfilt_length (x : list R) (k : nat) : length (DspUtils.medfilt x k) = length x.
Proof. unfold DspUtils.medfilt, range. now rewrite length_map, length_seq. Qed.

(** C6: a pitch track with at least the threshold of voiced frames is
    normalized to a contour of mean 0 (exactly 0 over the reals), with one
    value per voiced frame, and the mean is what is subtracted last:
    [normalize_pitch_contour] (threshold 10) returns the semitones of the
    voiced frames minus their mean; [extract_pitch] (threshold 15, audio
    that is not too quiet) returns the clipped values minus their mean,
    where the clipped values are the semitones of the median-filtered
    voiced frames (kernel 5) clipped to their 5th and 95th percentiles.
    The voiced frequencies are positive, as a pitch tracker gives them: the
    logarithm of the code is not defined elsewhere. *)
Theorem normalized_contour_mean_zero (f0 : DspUtils.PitchTrack) :
  Forall (fun f => 0 < f) (DspUtils.voiced f0) ->
  (DspEngine.MIN_VALID_FRAMES <= length (DspUtils.voiced f0))%nat ->
  (exists normalized,
      DspEngine.normalize_pitch_contour f0 = Ok normalized
      /\ length normalized = length (DspUtils.voiced f0)
      /\ mean normalized = 0
      /\ (let semitones := map DspUtils.hz_to_midi (DspUtils.voiced f0) in
          normalized = map (fun m => m - mean semitones) semitones))
  /\ (forall mean_rms : R,
        3 / 1000 <= mean_rms ->
        (15 <= length (DspUtils.voiced f0))%nat ->
        exists midi,
          DspUtils.extract_pitch (Ok (mean_rms, f0)) = Ok (Some midi)
          /\ length midi = length (DspUtils.voiced f0)
          /\ mean midi = 0
          /\ (let smoothed := DspUtils.medfilt (DspUtils.voiced f0) 5 in
              let semitones := map DspUtils.hz_to_midi smoothed in
              let clipped :=
                map (clip (DspUtils.percentile semitones 5)
                          (DspUtils.percentile semitones 95)) semitones in
              midi = map (fun m => m - mean clipped) clipped)).
Proof.
  intros _ Hmin. split.
  - unfold DspEngine.normalize_pitch_contour. rewrite voiced_midi, length_map.
    destruct (Nat.ltb_spec (length (DspUtils.voiced f0)) DspEngine.MIN_VALID_FRAMES)
      as [ Hshort | _ ]; [ lia | ].
    eexists. split; [ reflexivity | ].
    split; [ now rewrite !length_map | ].
    split; [ | reflexivity ].
    apply mean_centered. rewrite length_map.
    unfold DspEngine.MIN_VALID_FRAMES in Hmin. lia.
  - intros mean_rms Hloud Hlong.
    unfold DspUtils.extract_pitch. cbn [bind].
    unfold Rltb at 1. destruct (Rlt_dec mean_rms (3 / 1000)) as [ ? | _ ]; [ lra | ].
    destruct (Nat.ltb_spec (length (DspUtils.voiced f0)) 15) as [ Hshort | _ ]; [ lia | ].
    cbv zeta. cbn [try_except].
    assert (Hkernel : Nat.min 5 (if Nat.odd (length (DspUtils.voiced f0))
                                 then length (DspUtils.voiced f0)
                                 else (length (DspUtils.voiced f0) - 1)%nat) = 5%nat)
      by (destruct (Nat.odd (length (DspUtils.voiced f0))); lia).
    rewrite Hkernel. cbn [Nat.leb].
    eexists. split; [ reflexivity | ].
    split; [ now rewrite !length_map, medfilt_length | ].
    split; [ | reflexivity ].
    apply mean_centered. rewrite !length_map, medfilt_length. lia.
Qed.

(** The theorem at fifteen voiced frames of 440 Hz around one unvoiced
    frame. *)
Lemma normalized_contour_mean_zero_witness :
  (exists normalized,
      DspEngine.normalize_pitch_contour
        (repeat (Some 440%R) 7 ++ None :: repeat (Some 440%R) 8) = Ok normalized
      /\ length normalized
         = length (DspUtils.voiced (repeat (Some 440%R) 7 ++ None :: repeat (Some 440%R) 8))
      /\ mean normalized = 0
      /\ (let semitones :=
            map DspUtils.hz_to_midi
              (DspUtils.voiced (repeat (Some 440%R) 7 ++ None :: repeat (Some 440%R) 8)) in
          normalized = map (fun m => m - mean semitones) semitones))
  /\ (forall mean_rms : R,
        3 / 1000 <= mean_rms ->
        (15 <= length (DspUtils.voiced
                         (repeat (Some 440%R) 7 ++ None :: repeat (Some 440%R) 8)))%nat ->
        exists midi,
          DspUtils.extract_pitch
            (Ok (mean_rms, repeat (Some 440%R) 7 ++ None :: repeat (Some 440%R) 8))
          = Ok (Some midi)
          /\ length midi
             = length (DspUtils.voiced
                         (repeat (Some 440%R) 7 ++ None :: repeat (Some 440%R) 8))
          /\ mean midi = 0
          /\ (let smoothed :=
                DspUtils.medfilt
                  (DspUtils.voiced (repeat (Some 440%R) 7 ++ None :: repeat (Some 440%R) 8))
                  5 in
              let semitones := map DspUtils.hz_to_midi smoothed in
              let clipped :=
                map (clip (DspUtils.percentile semitones 5)
                          (DspUtils.percentile semitones 95)) semitones in
              midi = map (fun m => m - mean clipped) clipped)).
Proof.
  apply (@normalized_contour_mean_zero
           (repeat (Some 440%R) 7 ++ None :: repeat (Some 440%R) 8)).
  - cbn. repeat constructor; lra.
  - unfold DspEngine.MIN_VALID_FRAMES. cbn. lia.
Defined.

End NormalizedContour.

(** ** dtw.py: the correlation *)

Section Correlation.

Open Scope R_scope.

Lemma sum_nonneg (l : list R) : Forall (Rle 0) l -> 0 <= sum l.
Proof.
  induction 1 as [ | a rest Ha _ IH ]; [ cbn; lra | ].
  change (sum (a :: rest)) with (a + sum rest). lra.
Qed.

(** Sums over the pairs of two sequences of equal length. *)
Lemma sum_combine_fst (f : R -> R) (x y : list R) :
  length x = length y ->
  sum (map (fun p => f (fst p)) (combine x y)) = sum (map f x).
Proof.
  revert y. induction x as [ | a x IH ]; intros [ | b y ] Hlen;
    try reflexivity; try discriminate.
  cbn [combine map]. change (sum (?h :: ?t)) with (h + sum t).
  cbn [fst]. rewrite IH; [ reflexivity | now injection Hlen ].
Qed.

Lemma sum_combine_snd (f : R -> R) (x y : list R) :
  length x = length y ->
  sum (map (fun p => f (snd p)) (combine x y)) = sum (map f y).
Proof.
  revert y. induction x as [ | a x IH ]; intros [ | b y ] Hlen;
    try reflexivity; try discriminate.
  cbn [combine map]. change (sum (?h :: ?t)) with (h + sum t).
  cbn [snd]. rewrite IH; [ reflexivity | now injection Hlen ].
Qed.

Lemma sum_combine_self (f : R -> R -> R) (x : list R) :
  sum (map (fun p => f (fst p) (snd p)) (combine x x))
  = sum (map (fun v => f v v) x).
Proof.
  induction x as [ | a x IH ]; [ reflexivity | ].
  cbn [combine map]. change (sum (?h :: ?t)) with (h + sum t).
  now rewrite IH.
Qed.

Lemma co_deviation_self (x : list R) : Dtw.co_deviation x x = Dtw.sq_deviation x.
Proof.
  unfold Dtw.co_deviation, Dtw.sq_deviation.
  apply (sum_combine_self (fun u v => (u - mean x) * (v - mean x))).
Qed.

Lemma sq_deviation_nonneg (x : list R) : 0 <= Dtw.sq_deviation x.
Proof.
  unfold Dtw.sq_deviation. apply sum_nonneg. apply Forall_forall.
  intros t Ht. apply in_map_iff in Ht. destruct Ht as [ v [ <- _ ] ].
  apply (Rle_0_sqr (v - mean x)).
Qed.

Lemma sq_deviation_short (x : list R) :
  (length x < 2)%nat -> Dtw.sq_deviation x = 0.
Proof.
  destruct x as [ | a [ | b rest ] ]; intros Hlen.
  - reflexivity.
  - unfold Dtw.sq_deviation, mean, sum. cbn [map fold_right length INR]. field.
  - cbn [length] in Hlen. lia.
Qed.

(** For every t, the sum of the squares (u t + v)^2 over the pairs is
    non-negative: the quadratic behind the Cauchy-Schwarz inequality. *)
Lemma quadratic_nonneg (a b : R) (ps : list (R * R)) (t : R) :
  0 <= sum (map (fun p => (fst p - a) * (fst p - a)) ps) * (t * t)
       + 2 * sum (map (fun p => (fst p - a) * (snd p - b)) ps) * t
       + sum (map (fun p => (snd p - b) * (snd p - b)) ps).
Proof.
  induction ps as [ | [ u v ] ps IH ]; [ cbn; lra | ].
  cbn [map fst snd]. change (sum (?h :: ?r)) with (h + sum r).
  pose proof (Rle_0_sqr ((u - a) * t + (v - b))) as Hsq. unfold Rsqr in Hsq.
  nra.
Qed.

Lemma cauchy_schwarz (a b : R) (ps : list (R * R)) :
  let A := sum (map (fun p => (fst p - a) * (fst p - a)) ps) in
  let B := sum (map (fun p => (snd p - b) * (snd p - b)) ps) in
  let D := sum (map (fun p => (fst p - a) * (snd p - b)) ps) in
  D * D <= A * B.
Proof.
  intros A B D.
  assert (HA : 0 <= A).
  { apply sum_nonneg, Forall_forall. intros t Ht.
    apply in_map_iff in Ht. destruct Ht as [ p [ <- _ ] ].
    apply (Rle_0_sqr (fst p - a)). }
  assert (Hquad : forall t, 0 <= A * (t * t) + 2 * D * t + B)
    by (intros t; apply quadratic_nonneg).
  destruct (Req_dec_T A 0) as [ EA | NA ].
  - destruct (Req_dec_T D 0) as [ ED | ND ]; [ rewrite ED, EA; lra | ].
    exfalso. specialize (Hquad (- (B + 1) / (2 * D))).
    rewrite EA in Hquad.
    replace (0 * (- (B + 1) / (2 * D) * (- (B + 1) / (2 * D)))
             + 2 * D * (- (B + 1) / (2 * D)) + B) with (-1) in Hquad
      by (field; exact ND).
    lra.
  - assert (HApos : 0 < A) by lra.
    specialize (Hquad (- D / A)).
    replace (A * (- D / A * (- D / A)) + 2 * D * (- D / A) + B)
      with ((A * B - D * D) / A) in Hquad by (field; exact NA).
    assert (0 <= A * B - D * D); [ | lra ].
    replace (A * B - D * D) with ((A * B - D * D) / A * A) by (field; exact NA).
    apply Rmult_le_pos; lra.
Qed.

Lemma co_deviation_bound (x y : list R) :
  length x = length y ->
  Dtw.co_deviation x y * Dtw.co_deviation x y <= Dtw.sq_deviation x * Dtw.sq_deviation y.
Proof.
  intros Hlen.
  pose proof (cauchy_schwarz (mean x) (mean y) (combine x y)) as H.
  cbv zeta in H.
  rewrite (sum_combine_fst (fun u => (u - mean x) * (u - mean x)) x y Hlen) in H.
  rewrite (sum_combine_snd (fun v => (v - mean y) * (v - mean y)) x y Hlen) in H.
  exact H.
Qed.

(** Pearson's coefficient lies between -1 and 1. *)
Lemma pearson_range (x y : list R) (r : R) :
  length x = length y -> Dtw.pearson x y = Some r -> -1 <= r <= 1.
Proof.
  intros Hlen. unfold Dtw.pearson. rewrite !co_deviation_self.
  destruct (Req_dec_T (Dtw.sq_deviation x) 0) as [ | NA ]; [ discriminate | ].
  destruct (Req_dec_T (Dtw.sq_deviation y) 0) as [ | NB ]; [ discriminate | ].
  intros E. injection E as <-.
  pose proof (sq_deviation_nonneg x) as HA.
  pose proof (sq_deviation_nonneg y) as HB.
  pose proof (co_deviation_bound x y Hlen) as HCS.
  set (D := Dtw.co_deviation x y) in *.
  set (P := Dtw.sq_deviation x * Dtw.sq_deviation y) in *.
  assert (HP : 0 < P) by (unfold P; apply Rmult_lt_0_compat; lra).
  assert (Hroot : 0 < sqrt P) by now apply sqrt_lt_R0.
  assert (Habs : Rabs D <= sqrt P).
  { rewrite <- (sqrt_Rsqr_abs D). apply sqrt_le_1_alt. unfold Rsqr. exact HCS. }
  assert (Hboth : - sqrt P <= D <= sqrt P)
    by (unfold Rabs in Habs; destruct (Rcase_abs D); lra).
  split.
  - apply Rmult_le_reg_r with (sqrt P); [ exact Hroot | ].
    replace (D / sqrt P * sqrt P) with D by (field; lra). lra.
  - apply Rmult_le_reg_r with (sqrt P); [ exact Hroot | ].
    replace (D / sqrt P * sqrt P) with D by (field; lra). lra.
Qed.

End Correlation.

Section PitchSimilarity.

Open Scope R_scope.

Lemma np_std_unfold (x : list R) :
  Dtw.np_std x = sqrt (Dtw.sq_deviation x / INR (length x)).
Proof.
  unfold Dtw.np_std, mean at 1. now rewrite length_map.
Qed.

(** The guard [np.std(segment) > 0] holds exactly when the segment is not
    constant. *)
Lemma np_std_positive (x : list R) :
  (0 < length x)%nat ->
  Rltb 0 (Dtw.np_std x) = if Req_dec_T (Dtw.sq_deviation x) 0 then false else true.
Proof.
  intros Hlen. rewrite np_std_unfold.
  assert (Hn : 0 < INR (length x)) by now apply lt_0_INR.
  pose proof (sq_deviation_nonneg x) as HA.
  unfold Rltb.
  destruct (Req_dec_T (Dtw.sq_deviation x) 0) as [ E | NE ].
  - rewrite E. replace (0 / INR (length x)) with 0 by (field; lra).
    rewrite sqrt_0. destruct (Rlt_dec 0 0); [ lra | reflexivity ].
  - destruct (Rlt_dec 0 (sqrt (Dtw.sq_deviation x / INR (length x)))) as [ _ | n ];
      [ reflexivity | ].
    exfalso. apply n. apply sqrt_lt_R0. apply Rdiv_lt_0_compat; lra.
Qed.

(** On two non-constant sequences of equal length NumPy's coefficient is
    Pearson's: the normalisation by n - 1 cancels and the clipping to
    [-1, 1] changes nothing. *)
Lemma np_corrcoef_pearson (x y : list R) :
  length x = length y ->
  Dtw.sq_deviation x <> 0 -> Dtw.sq_deviation y <> 0 ->
  Dtw.np_corrcoef x y = Dtw.pearson x y.
Proof.
  intros Hlen NA NB.
  pose proof (sq_deviation_nonneg x) as HA.
  pose proof (sq_deviation_nonneg y) as HB.
  assert (Hx : (2 <= length x)%nat).
  { destruct (Nat.lt_ge_cases (length x) 2) as [ Hshort | ]; [ | assumption ].
    exfalso. apply NA. now apply sq_deviation_short. }
  assert (Hc : 0 < INR (length x) - 1).
  { apply le_INR in Hx. cbn in Hx. lra. }
  destruct (Dtw.pearson x y) as [ r | ] eqn:Er.
  2: { unfold Dtw.pearson in Er. rewrite !co_deviation_self in Er.
       destruct (Req_dec_T (Dtw.sq_deviation x) 0); [ contradiction | ].
       destruct (Req_dec_T (Dtw.sq_deviation y) 0); [ contradiction | discriminate ]. }
  pose proof (pearson_range x y Hlen Er) as Hr.
  unfold Dtw.pearson in Er. rewrite !co_deviation_self in Er.
  destruct (Req_dec_T (Dtw.sq_deviation x) 0); [ contradiction | ].
  destruct (Req_dec_T (Dtw.sq_deviation y) 0); [ contradiction | ].
  injection Er as Er.
  unfold Dtw.np_corrcoef.
  destruct (Nat.ltb_spec (length x) 2) as [ ? | _ ]; [ lia | ].
  assert (Ecx : Dtw.np_cov x x = Dtw.sq_deviation x / (INR (length x) - 1)).
  { unfold Dtw.np_cov. fold (Dtw.co_deviation x x). now rewrite co_deviation_self. }
  assert (Ecy : Dtw.np_cov y y = Dtw.sq_deviation y / (INR (length x) - 1)).
  { unfold Dtw.np_cov. fold (Dtw.co_deviation y y).
    now rewrite co_deviation_self, Hlen. }
  assert (Ecxy : Dtw.np_cov x y = Dtw.co_deviation x y / (INR (length x) - 1))
    by reflexivity.
  rewrite Ecx, Ecy, Ecxy.
  set (c := INR (length x) - 1) in *.
  set (A := Dtw.sq_deviation x) in *. set (B := Dtw.sq_deviation y) in *.
  set (D := Dtw.co_deviation x y) in *.
  assert (HsA : 0 < sqrt A) by (apply sqrt_lt_R0; lra).
  assert (HsB : 0 < sqrt B) by (apply sqrt_lt_R0; lra).
  assert (Hsc : 0 < sqrt c) by now apply sqrt_lt_R0.
  rewrite (sqrt_div_alt A c Hc), (sqrt_div_alt B c Hc).
  destruct (Req_dec_T (sqrt A / sqrt c) 0) as [ E0 | _ ].
  { exfalso. assert (0 < sqrt A / sqrt c) by (apply Rdiv_lt_0_compat; lra). lra. }
  destruct (Req_dec_T (sqrt B / sqrt c) 0) as [ E0 | _ ].
  { exfalso. assert (0 < sqrt B / sqrt c) by (apply Rdiv_lt_0_compat; lra). lra. }
  assert (Evalue : D / c / (sqrt A / sqrt c) / (sqrt B / sqrt c) = r).
  { rewrite <- Er. rewrite sqrt_mult by lra.
    replace (D / c / (sqrt A / sqrt c) / (sqrt B / sqrt c))
      with (D * (sqrt c * sqrt c) / c / (sqrt A * sqrt B)) by (field; lra).
    rewrite sqrt_sqrt by lra. field. lra. }
  rewrite Evalue. f_equal.
  unfold clip, Rmax, Rmin.
  destruct (Rle_dec r (-1)); destruct (Rle_dec (-1) 1);
    destruct (Rle_dec r 1); lra.
Qed.

Lemma truncated_lengths (song_pitches user_pitches : list Z) :
  length (fst (Dtw.truncated song_pitches user_pitches))
  = Nat.min (length song_pitches) (length user_pitches)
  /\ length (snd (Dtw.truncated song_pitches user_pitches))
     = Nat.min (length song_pitches) (length user_pitches).
Proof.
  unfold Dtw.truncated. cbn [fst snd].
  rewrite !length_map, !length_firstn. lia.
Qed.

(** The pitch component of the code is Pearson's correlation of the
    truncated sequences floored at 0, and one half where the correlation
    is undefined. *)
Lemma pitch_similarity_coded (song_pitches user_pitches : list Z) :
  song_pitches <> [] -> user_pitches <> [] ->
  Dtw.pitch_similarity song_pitches user_pitches
  = Dtw.coded_pitch_similarity song_pitches user_pitches.
Proof.
  intros Hs Hu.
  destruct (truncated_lengths song_pitches user_pitches) as [ Lx Ly ].
  unfold Dtw.pitch_similarity, Dtw.coded_pitch_similarity.
  destruct song_pitches as [ | s0 srest ]; [ contradiction | ].
  destruct user_pitches as [ | u0 urest ]; [ contradiction | ].
  change (0 <? length (s0 :: srest))%nat with true.
  change (0 <? length (u0 :: urest))%nat with true.
  cbn [andb]. unfold Dtw.np_array.
  revert Lx Ly. unfold Dtw.truncated. cbn [fst snd].
  set (x := map IZR (firstn _ (s0 :: srest))).
  set (y := map IZR (firstn _ (u0 :: urest))).
  intros Lx Ly.
  assert (Hx : (0 < length x)%nat) by (rewrite Lx; cbn [length]; lia).
  assert (Hy : (0 < length y)%nat) by (rewrite Ly; cbn [length]; lia).
  assert (Hlen : length x = length y) by congruence.
  rewrite (np_std_positive x Hx), (np_std_positive y Hy).
  unfold Dtw.pearson at 1. rewrite !co_deviation_self.
  destruct (Req_dec_T (Dtw.sq_deviation x) 0) as [ EA | NA ]; [ reflexivity | ].
  destruct (Req_dec_T (Dtw.sq_deviation y) 0) as [ EB | NB ]; [ reflexivity | ].
  cbn [andb]. rewrite (np_corrcoef_pearson x y Hlen NA NB).
  unfold Dtw.pearson. rewrite !co_deviation_self.
  destruct (Req_dec_T (Dtw.sq_deviation x) 0); [ contradiction | ].
  destruct (Req_dec_T (Dtw.sq_deviation y) 0); [ contradiction | reflexivity ].
Qed.

End PitchSimilarity.

(** ** dtw.py: the similarity score *)

Section SimilarityScore.

Import Records.
Open Scope R_scope.



(** [calculate_similarity] always returns a score. *)
Lemma calculate_similarity_total (song user : Dict) :
  exists score, Dtw.calculate_similarity song user = Ok score.
Proof.
  unfold Dtw.calculate_similarity, Dtw.similarity_try.
  destruct (Dtw.is_empty _ || Dtw.is_empty _); [ now exists 0 | ].
  unfold Dtw.tempo_similarity, truediv.
  destruct (Req_dec_T _ 0); cbn [bind try_except]; eexists; reflexivity.
Qed.






(** C4, as the code has it: when either interval sequence is empty or
    missing, [calculate_similarity] returns the score 0.0; it raises in no
    case. *)
Theorem calculate_similarity_empty (song user : Dict) :
  get (relative_pitches song) [] = [] \/ get (relative_pitches user) [] = [] ->
  Dtw.calculate_similarity song user = Ok 0.
Proof.
  intros Hempty. unfold Dtw.calculate_similarity, Dtw.similarity_try.
  destruct Hempty as [ E | E ]; rewrite E; cbn [Dtw.is_empty orb].
  - reflexivity.
  - now rewrite orb_true_r.
Qed.

(** The theorem on a song without contour. *)
Lemma calculate_similarity_empty_witness :
  Dtw.calculate_similarity (features (Some 96) None)
                           (features (Some 120) (Some [2; -1]%Z)) = Ok 0.
Proof.
  apply (@calculate_similarity_empty (features (Some 96) None)
                                     (features (Some 120) (Some [2; -1]%Z))).
  left. reflexivity.
Defined.

(** C4 fails as stated: on an empty interval sequence the scorer does not
    fail, it returns the valid score 0. *)
Lemma empty_sequence_scores_zero :
  Dtw.calculate_similarity (features (Some 120) (Some []))
                           (features (Some 120) (Some [2; -1]%Z)) = Ok 0
  /\ ~ (exists e, Dtw.calculate_similarity (features (Some 120) (Some []))
                    (features (Some 120) (Some [2; -1]%Z)) = Raise e).
Proof.
  assert (E : Dtw.calculate_similarity (features (Some 120) (Some []))
                (features (Some 120) (Some [2; -1]%Z)) = Ok 0) by reflexivity.
  split; [ exact E | ].
  intros [ e He ]. rewrite E in He. discriminate.
Qed.

End SimilarityScore.

(** ** The stable sort *)

Section StableSort.

Variable A : Type.
Variable key : A -> R.

Open Scope R_scope.

Lemma insert_perm (goes_before : A -> A -> bool) (x : A) (l : list A) :
  Permutation (insert goes_before x l) (x :: l).
Proof.
  induction l as [ | y l IH ]; [ reflexivity | ].
  cbn [insert]. destruct (goes_before x y); [ reflexivity | ].
  rewrite IH. apply perm_swap.
Qed.

Lemma sort_perm (goes_before : A -> A -> bool) (l : list A) :
  Permutation (sort goes_before l) l.
Proof.
  induction l as [ | x l IH ]; [ reflexivity | ].
  cbn [sort fold_right]. fold (sort goes_before l).
  rewrite insert_perm. now apply perm_skip.
Qed.

Lemma insert_sorted (x : A) (l : list A) :
  StronglySorted (key_not_below key) l ->
  StronglySorted (key_not_below key) (insert (fun a b => Rleb (key b) (key a)) x l).
Proof.
  induction 1 as [ | y l Hl IH Hy ]; [ repeat constructor | ].
  cbn [insert]. unfold Rleb at 1.
  destruct (Rle_dec (key y) (key x)) as [ Hle | Hgt ].
  - constructor; [ now constructor | ].
    constructor; [ exact Hle | ].
    apply Forall_impl with (P := key_not_below key y); [ | exact Hy ].
    unfold key_not_below. intros z Hz. lra.
  - constructor; [ exact IH | ].
    apply Permutation_Forall with (x :: l); [ symmetry; apply insert_perm | ].
    constructor; [ unfold key_not_below; lra | exact Hy ].
Qed.

Lemma sort_by_key_reverse_sorted (l : list A) :
  StronglySorted (key_not_below key) (sort_by_key_reverse key l).
Proof.
  induction l as [ | x l IH ]; [ constructor | ].
  change (sort_by_key_reverse key (x :: l))
    with (insert (fun a b => Rleb (key b) (key a)) x (sort_by_key_reverse key l)).
  apply insert_sorted. exact IH.
Qed.

(** Insertion keeps the new element in front of the elements of its key. *)
Lemma insert_with_key (k : R) (x : A) (l : list A) :
  with_key key k (insert (fun a b => Rleb (key b) (key a)) x l) = with_key key k (x :: l).
Proof.
  induction l as [ | y l IH ]; [ reflexivity | ].
  cbn [insert]. unfold Rleb at 1.
  destruct (Rle_dec (key y) (key x)) as [ Hle | Hgt ]; [ reflexivity | ].
  unfold with_key in *. cbn [filter] in *. rewrite IH.
  destruct (Req_dec_T (key y) k) as [ Ey | Ny ];
    destruct (Req_dec_T (key x) k) as [ Ex | Nx ]; try reflexivity.
  exfalso. lra.
Qed.

(** Stability: the elements of each key keep their original order. *)
Lemma sort_by_key_reverse_stable (k : R) (l : list A) :
  with_key key k (sort_by_key_reverse key l) = with_key key k l.
Proof.
  induction l as [ | x l IH ]; [ reflexivity | ].
  change (sort_by_key_reverse key (x :: l))
    with (insert (fun a b => Rleb (key b) (key a)) x (sort_by_key_reverse key l)).
  rewrite insert_with_key. unfold with_key in *. cbn [filter].
  now rewrite IH.
Qed.

End StableSort.

Section SliceFacts.

Open Scope Z_scope.

Lemma slice_prefix (A : Type) (l : list A) (n : Z) :
  0 <= n -> slice l None (Some n) = firstn (Z.to_nat n) l.
Proof.
  intros Hn. unfold slice, clamp_index.
  destruct (Z.ltb_spec n 0) as [ ? | _ ]; [ lia | ].
  cbn [Z.to_nat skipn]. rewrite Z.sub_0_r.
  destruct (Z.le_gt_cases n (Z.of_nat (length l))) as [ Hle | Hgt ].
  - now replace (Z.min n (Z.of_nat (length l))) with n by lia.
  - replace (Z.min n (Z.of_nat (length l))) with (Z.of_nat (length l)) by lia.
    rewrite !firstn_all2; [ reflexivity | lia | lia ].
Qed.

End SliceFacts.

(** ** matcher.py: the ranking *)

Section Ranking.

Import Records.
Open Scope R_scope.

(** Every song of the database gets its entry, in database order. *)
Lemma all_matches_total (user : Dict) (database : list Dict) :
  exists matches,
    Matcher.all_matches user database = Ok matches
    /\ Forall2 (fun song m => Matcher.match_entry user song = Ok m) database matches.
Proof.
  induction database as [ | song rest IH ].
  - exists []. split; [ reflexivity | constructor ].
  - destruct IH as [ matches [ E HF ] ].
    destruct (calculate_similarity_total song user) as [ score Escore ].
    eexists (_ :: matches). cbn [Matcher.all_matches].
    unfold Matcher.match_entry at 1. rewrite Escore. cbn [bind]. rewrite E. cbn [bind].
    split; [ reflexivity | ].
    constructor; [ | exact HF ].
    unfold Matcher.match_entry. rewrite Escore. reflexivity.
Qed.

(** C3, as the code has it: the ranker returns the first N entries
    (N = 5 unless given) of a ranking of all the songs by non-increasing
    similarity in which the songs of equal similarity keep their database
    order; the song identifiers play no part in the order. *)
Theorem find_best_matches_ranking
    (user : Dict) (database : list Dict) (top_n : option Z) :
  (0 <= get top_n Matcher.DEFAULT_TOP_N)%Z ->
  exists matches ranking,
    Forall2 (fun song m => Matcher.match_entry user song = Ok m) database matches
    /\ Permutation ranking matches
    /\ StronglySorted Matcher.by_similarity ranking
    /\ (forall s, Matcher.with_similarity s ranking = Matcher.with_similarity s matches)
    /\ Matcher.find_best_matches user database top_n
       = Ok (firstn (Z.to_nat (get top_n Matcher.DEFAULT_TOP_N)) ranking).
Proof.
  intros Hn.
  destruct (all_matches_total user database) as [ matches [ E HF ] ].
  exists matches, (sort_by_key_reverse Matcher.similarity matches).
  split; [ exact HF | ].
  split; [ apply sort_perm | ].
  split; [ apply sort_by_key_reverse_sorted | ].
  split; [ intros s; apply sort_by_key_reverse_stable | ].
  unfold Matcher.find_best_matches. rewrite E. cbn [bind].
  now rewrite slice_prefix.
Qed.

(** Two songs with the identifiers "b" and "a", in this order, and a query
    without any interval. *)
Lemma find_best_matches_ranking_witness :
  exists matches ranking,
    Forall2 (fun song m => Matcher.match_entry (features (Some 120) (Some [])) song = Ok m)
            [entry "b" "Song B" 120 [2; -1]%Z; entry "a" "Song A" 90 [1; 1]%Z] matches
    /\ Permutation ranking matches
    /\ StronglySorted Matcher.by_similarity ranking
    /\ (forall s, Matcher.with_similarity s ranking = Matcher.with_similarity s matches)
    /\ Matcher.find_best_matches (features (Some 120) (Some []))
         [entry "b" "Song B" 120 [2; -1]%Z; entry "a" "Song A" 90 [1; 1]%Z] None
       = Ok (firstn (Z.to_nat (get None Matcher.DEFAULT_TOP_N)) ranking).
Proof.
  apply (@find_best_matches_ranking (features (Some 120) (Some []))
           [entry "b" "Song B" 120 [2; -1]%Z; entry "a" "Song A" 90 [1; 1]%Z] None).
  unfold Matcher.DEFAULT_TOP_N. cbn. lia.
Defined.

(** C3 fails as stated: both songs score 0 against the empty query, and the
    result lists "b" before "a", the database order, not the ascending
    order of the identifiers. *)
Lemma equal_scores_keep_database_order :
  exists ms,
    Matcher.find_best_matches (features (Some 120) (Some []))
      [entry "b" "Song B" 120 [2; -1]%Z; entry "a" "Song A" 90 [1; 1]%Z] None = Ok ms
    /\ map Matcher.m_id ms = ["b"; "a"]%string
    /\ ~ Matcher.ties_by_ascending_id ms.
Proof.
  eexists. split; [ | split ].
  - unfold Matcher.find_best_matches.
    cbn [Matcher.all_matches Matcher.match_entry bind].
    assert (Eb : Dtw.calculate_similarity (entry "b" "Song B" 120 [2; -1]%Z)
                   (features (Some 120) (Some [])) = Ok 0) by reflexivity.
    assert (Ea : Dtw.calculate_similarity (entry "a" "Song A" 90 [1; 1]%Z)
                   (features (Some 120) (Some [])) = Ok 0) by reflexivity.
    unfold Matcher.match_entry. rewrite Eb, Ea. cbn [bind].
    unfold sort_by_key_reverse. cbn [sort fold_right insert Matcher.similarity].
    unfold Rleb. destruct (Rle_dec (round1 0) (round1 0)) as [ _ | n ];
      [ | exfalso; apply n; lra ].
    rewrite slice_prefix by (unfold Matcher.DEFAULT_TOP_N; cbn; lia).
    reflexivity.
  - reflexivity.
  - intros Hties.
    specialize (Hties 0%nat 1%nat _ _ (Nat.lt_0_succ 0) eq_refl eq_refl eq_refl).
    cbn in Hties. discriminate.
Qed.

End Ranking.

(** ** The empty corpus *)

Section EmptyCorpus.

Import Records.

Lemma load_file_unusable (file : DspEngine.AudioFile)
    (state : list (string * DspEngine.SongData) * nat) :
  DspEngine.unusable file -> DspEngine.load_file file state = Ok state.
Proof.
  intros Hun. unfold DspEngine.load_file. destruct state as [ cache count ].
  destruct (existsb _ DspEngine.audio_extensions) eqn:Eext; cbn [negb];
    [ | reflexivity ].
  destruct Hun as [ Hext | [ [ e He ] | [ f0 [ Hf0 Hshort ] ] ] ].
  - unfold DspEngine.audio_extensions in *. congruence.
  - rewrite He. reflexivity.
  - rewrite Hf0. cbn [bind].
    unfold DspEngine.normalize_pitch_contour.
    rewrite voiced_midi, length_map.
    destruct (Nat.ltb_spec (length (DspUtils.voiced f0)) DspEngine.MIN_VALID_FRAMES)
      as [ _ | ? ]; [ reflexivity | lia ].
Qed.

Lemma load_files_unusable (files : list DspEngine.AudioFile)
    (state : list (string * DspEngine.SongData) * nat) :
  Forall DspEngine.unusable files -> DspEngine.load_files files state = Ok state.
Proof.
  induction 1 as [ | file rest Hfile _ IH ]; [ reflexivity | ].
  cbn [DspEngine.load_files]. rewrite load_file_unusable by exact Hfile.
  cbn [bind]. exact IH.
Qed.

(** C8: with no song ready, matching returns an empty result and raises
    nothing.  [find_best_matches] on an empty database returns the empty
    list, whatever the query and N; [identify_melody] on a directory of
    which every file is unusable returns [None] without even reading the
    hummed file. *)
Theorem empty_corpus_gives_empty_result
    (user : Dict) (top_n : option Z)
    (fastdtw : DspUtils.FastDTW) (hum : py DspUtils.PitchTrack)
    (files : list DspEngine.AudioFile) :
  Forall DspEngine.unusable files ->
  Matcher.find_best_matches user [] top_n = Ok []
  /\ DspEngine.identify_melody fastdtw hum (Ok files) None
     = Ok (None, {| DspEngine.songs_directory := Ok files;
                    DspEngine.songs_cache := [];
                    DspEngine._loaded := true |}).
Proof.
  intros Hfiles. split.
  - unfold Matcher.find_best_matches. cbn [Matcher.all_matches bind].
    unfold sort_by_key_reverse, slice. cbn [sort fold_right length skipn].
    now rewrite skipn_nil, firstn_nil.
  - unfold DspEngine.identify_melody, DspEngine.load_database, DspEngine.new_database.
    cbn [DspEngine._loaded DspEngine.songs_directory DspEngine.songs_cache bind].
    rewrite load_files_unusable by exact Hfiles. reflexivity.
Qed.

(** The theorem on a directory with a text file and a recording of two
    frames, and a hummed file that cannot be read. *)
Lemma empty_corpus_gives_empty_result_witness :
  Matcher.find_best_matches (features (Some 120%R) (Some [2; -1]%Z)) [] None = Ok []
  /\ DspEngine.identify_melody (fun _ _ _ => Raise ValueError) (Raise OSError)
       (Ok [ {| DspEngine.file_name := "notes.txt";
                DspEngine.pitch_track := Raise OSError |};
             {| DspEngine.file_name := "short_hum.mp3";
                DspEngine.pitch_track := Ok [Some 440%R; None] |} ])
       None
     = Ok (None,
           {| DspEngine.songs_directory :=
                Ok [ {| DspEngine.file_name := "notes.txt";
                        DspEngine.pitch_track := Raise OSError |};
                     {| DspEngine.file_name := "short_hum.mp3";
                        DspEngine.pitch_track := Ok [Some 440%R; None] |} ];
              DspEngine.songs_cache := [];
              DspEngine._loaded := true |}).
Proof.
  apply (@empty_corpus_gives_empty_result
           (features (Some 120%R) (Some [2; -1]%Z)) None
           (fun _ _ _ => Raise ValueError) (Raise OSError)).
  constructor; [ | constructor; [ | constructor ] ].
  - left. reflexivity.
  - right. right. exists [Some 440%R; None]. split; [ reflexivity | ].
    unfold DspEngine.MIN_VALID_FRAMES. cbn. lia.
Defined.

End EmptyCorpus.

(** ** Further properties of the scores *)

Section Scores.

Import Records.
Open Scope R_scope.

Lemma clamp_range (x : R) : 0 <= Rmax 0 (Rmin 100 x) <= 100.
Proof.
  unfold Rmax, Rmin.
  destruct (Rle_dec 100 x); destruct (Rle_dec 0 _); lra.
Qed.

(** Whatever the two dictionaries hold, [calculate_similarity] returns a
    score between 0 and 100 and raises nothing: when the [try] block
    raises, the score is 0.  The block raises on two non-empty interval
    sequences whose greater tempo is 0, by the division of the tempo
    difference by it. *)
Theorem calculate_similarity_in_range (song user : Dict) :
  exists score,
    Dtw.calculate_similarity song user = Ok score
    /\ 0 <= score <= 100
    /\ (forall e, Dtw.similarity_try song user = Raise e -> score = 0)
    /\ (get (relative_pitches song) [] <> [] ->
        get (relative_pitches user) [] <> [] ->
        Rmax (get (tempo song) 120) (get (tempo user) 120) = 0 ->
        Dtw.similarity_try song user = Raise ZeroDivision).
Proof.
  unfold Dtw.calculate_similarity, Dtw.similarity_try.
  destruct (get (relative_pitches song) []) as [ | s0 srest ];
    [ | destruct (get (relative_pitches user) []) as [ | u0 urest ] ];
    cbn [Dtw.is_empty orb].
  - exists 0. repeat split; try lra; try discriminate. intros H; now contradiction H.
  - exists 0. repeat split; try lra; try discriminate. intros _ H; now contradiction H.
  - unfold Dtw.tempo_similarity, truediv.
    destruct (Req_dec_T _ 0) as [ Hzero | Hpos ]; cbn [bind try_except].
    + exists 0. repeat split; try lra.
    + eexists. split; [ reflexivity | ]. split; [ apply clamp_range | ].
      split; [ discriminate | ]. intros _ _ Hzero. contradiction.
Qed.

(** In [identify_melody], a first window at alignment distance 0 is kept
    as the best match with confidence 100. *)
Theorem zero_distance_full_confidence
    (fastdtw : DspUtils.FastDTW) (hum_normalized window_contour : list R)
    (title : string) (start_time : R) (path : list (nat * nat)) :
  fastdtw hum_normalized window_contour DspEngine.euclidean = Ok (0, path) ->
  DspEngine.match_window fastdtw hum_normalized title (window_contour, start_time)
    (None, None)
  = Ok (Some {| DspEngine.song_title := title;
                DspEngine.confidence_score := 100;
                DspEngine.match_start_time := round2 start_time;
                DspEngine.dtw_distance := 0;
                DspEngine.hum_pitch := hum_normalized;
                DspEngine.song_pitch := window_contour |},
        Some 0).
Proof.
  intros Hdtw. unfold DspEngine.match_window, DspEngine.compute_dtw_distance.
  rewrite Hdtw. cbn [bind fst snd].
  assert (Econf : round2 (Rmax 0 (Rmin 100 (100 - 0 / 50))) = 100).
  { replace (100 - 0 / 50) with 100 by lra.
    rewrite (Rmin_left 100 100) by lra. rewrite (Rmax_right 0 100) by lra.
    unfold round2. replace (100 * 100) with (IZR 10000) by lra.
    rewrite round_IZR. lra. }
  assert (Edist : round2 0 = 0).
  { unfold round2. replace (0 * 100) with (IZR 0) by lra.
    rewrite round_IZR. lra. }
  now rewrite Econf, Edist.
Qed.

(** The theorem with an alignment that always answers distance 0. *)
Lemma zero_distance_full_confidence_witness :
  DspEngine.match_window (fun _ _ _ => Ok (0, [(0%nat, 0%nat)])) [0; 2] "Song"
    ([0; 2], 0) (None, None)
  = Ok (Some {| DspEngine.song_title := "Song";
                DspEngine.confidence_score := 100;
                DspEngine.match_start_time := round2 0;
                DspEngine.dtw_distance := 0;
                DspEngine.hum_pitch := [0; 2];
                DspEngine.song_pitch := [0; 2] |},
        Some 0).
Proof.
  apply (@zero_distance_full_confidence
           (fun _ _ _ => Ok (0, [(0%nat, 0%nat)])) [0; 2] [0; 2] "Song" 0
           [(0%nat, 0%nat)]).
  reflexivity.
Defined.

End Scores.

(** ** melody.py: note numbers and features *)

Section NoteNumbers.

Open Scope R_scope.

(** Rounding stays between two integers that enclose the value. *)
Lemma round_between (a b : Z) (x : R) :
  IZR a <= x <= IZR b -> (a <= round x <= b)%Z.
Proof.
  intros [ Ha Hb ]. unfold round.
  pose proof (Zfloor_bound x) as [ Hlo Hhi ].
  assert (Hfa : (a <= Zfloor x)%Z) by now apply Zfloor_lub.
  assert (Hfb : (Zfloor x <= b)%Z) by (apply le_IZR; lra).
  assert (Hnext : IZR (Zfloor x) < x -> (Zfloor x + 1 <= b)%Z).
  { intros Hstrict. assert (Zfloor x < b)%Z by (apply lt_IZR; lra). lia. }
  destruct (Rlt_dec (x - IZR (Zfloor x)) (1 / 2)); [ lia | ].
  destruct (Rlt_dec (1 / 2) (x - IZR (Zfloor x))).
  - assert (Zfloor x + 1 <= b)%Z by (apply Hnext; lra). lia.
  - destruct (Z.even (Zfloor x)); [ lia | ].
    assert (Zfloor x + 1 <= b)%Z by (apply Hnext; lra). lia.
Qed.

(** Rounding commutes with a shift by twelve. *)
Lemma round_plus_12 (x : R) : round (x + 12) = (round x + 12)%Z.
Proof.
  unfold round.
  replace (x + 12) with (x + IZR 12) by reflexivity.
  rewrite Zfloor_addz, plus_IZR.
  replace (x + IZR 12 - (IZR (Zfloor x) + IZR 12)) with (x - IZR (Zfloor x)) by ring.
  assert (Heven : Z.even (Zfloor x + 12) = Z.even (Zfloor x)).
  { rewrite Z.even_add. cbn. now destruct (Z.even (Zfloor x)). }
  rewrite Heven.
  destruct (Rlt_dec (x - IZR (Zfloor x)) (1 / 2)); [ reflexivity | ].
  destruct (Rlt_dec (1 / 2) (x - IZR (Zfloor x))); [ lia | ].
  destruct (Z.even (Zfloor x)); lia.
Qed.

Lemma log2_double (x : R) : 0 < x -> Melody.log2 (2 * x) = 1 + Melody.log2 x.
Proof.
  intros Hx. unfold Melody.log2, Rlog.
  rewrite ln_mult by lra.
  assert (0 < ln 2) by (pose proof ln_lt_2; lra).
  field. lra.
Qed.

Lemma get_note_number_bounds (pitch_val : R) :
  (0 <= Melody._get_note_number pitch_val <= 88)%Z.
Proof.
  unfold Melody._get_note_number.
  destruct (Rle_dec pitch_val 0); [ lia | ].
  cbv zeta. destruct (Rle_dec 1 _) as [ H1 | ]; [ | lia ].
  destruct (Rle_dec _ 88) as [ H88 | ]; [ | lia ].
  assert (1 <= round (12 * Melody.log2 (pitch_val / 440) + 49) <= 88)%Z
    by (apply round_between; lra).
  lia.
Qed.

(** The note number is 0 for a frequency that is not positive and for one
    outside the keyboard, and a key number from 1 to 88 otherwise. *)
Theorem note_number_on_keyboard (pitch_val : R) :
  (0 <= Melody._get_note_number pitch_val <= 88)%Z
  /\ (pitch_val <= 0 -> Melody._get_note_number pitch_val = 0%Z)
  /\ (0 < pitch_val ->
      1 <= 12 * Melody.log2 (pitch_val / 440) + 49 <= 88 ->
      (1 <= Melody._get_note_number pitch_val)%Z).
Proof.
  split; [ apply get_note_number_bounds | split ].
  - intros Hneg. unfold Melody._get_note_number.
    destruct (Rle_dec pitch_val 0); [ reflexivity | contradiction ].
  - intros Hpos [ H1 H88 ]. unfold Melody._get_note_number.
    destruct (Rle_dec pitch_val 0); [ lra | ].
    cbv zeta. destruct (Rle_dec 1 _); [ | contradiction ].
    destruct (Rle_dec _ 88); [ | contradiction ].
    apply (round_between 1 88). lra.
Qed.

(** One octave up (twice the frequency) is twelve keys up, as long as both
    notes are on the keyboard. *)
Theorem octave_is_twelve_keys (pitch_val : R) :
  0 < pitch_val ->
  1 <= 12 * Melody.log2 (pitch_val / 440) + 49 <= 76 ->
  Melody._get_note_number (2 * pitch_val)
  = (Melody._get_note_number pitch_val + 12)%Z.
Proof.
  intros Hpos [ H1 H76 ]. unfold Melody._get_note_number.
  destruct (Rle_dec (2 * pitch_val) 0) as [ ? | _ ]; [ lra | ].
  destruct (Rle_dec pitch_val 0) as [ ? | _ ]; [ lra | ].
  cbv zeta.
  replace (2 * pitch_val / 440) with (2 * (pitch_val / 440)) by (field; lra).
  rewrite log2_double by (apply Rdiv_lt_0_compat; lra).
  set (n := 12 * Melody.log2 (pitch_val / 440) + 49) in *.
  replace (12 * (1 + Melody.log2 (pitch_val / 440)) + 49) with (n + 12)
    by (unfold n; ring).
  destruct (Rle_dec 1 (n + 12)); [ | lra ].
  destruct (Rle_dec (n + 12) 88); [ | lra ].
  destruct (Rle_dec 1 n); [ | lra ].
  destruct (Rle_dec n 88); [ | lra ].
  apply round_plus_12.
Qed.

(** The theorem at concert pitch: 440 Hz is key 49 and 880 Hz is key 61. *)
Lemma octave_is_twelve_keys_witness :
  Melody._get_note_number (2 * 440) = (Melody._get_note_number 440 + 12)%Z.
Proof.
  apply (@octave_is_twelve_keys 440).
  - lra.
  - replace (440 / 440) with 1 by (field; lra).
    unfold Melody.log2, Rlog. rewrite ln_1.
    replace (12 * (0 / ln 2) + 49) with 49 by (unfold Rdiv; ring). lra.
Defined.

End NoteNumbers.

Section Features.

Import Records.
Open Scope Z_scope.

Lemma interval_note_bounds (pv : list R) (s e : Z) :
  0 <= Melody.interval_note pv s e <= 88.
Proof.
  unfold Melody.interval_note.
  destruct (s <? e); [ | lia ].
  cbv zeta. destruct (filter _ _); [ lia | apply get_note_number_bounds ].
Qed.

(** The loop gives one key number per index when the table is long enough
    for every index it reads. *)
Lemma average_loop_total (pv : list R) (table : list Z) (indices : list nat) :
  (forall i, In i indices -> (i + 1 < length table)%nat) ->
  exists avgs,
    Melody.average_loop pv table indices = Ok avgs
    /\ length avgs = length indices
    /\ Forall (fun n => 0 <= n <= 88) avgs.
Proof.
  induction indices as [ | i rest IH ]; intros Hlong.
  - exists []. repeat split. constructor.
  - destruct IH as [ avgs [ E [ EL HR ] ] ].
    { intros j Hj. apply Hlong. now right. }
    assert (Hi : (i + 1 < length table)%nat) by (apply Hlong; now left).
    destruct (nth_error table i) as [ s | ] eqn:Es;
      [ | apply nth_error_None in Es; lia ].
    destruct (nth_error table (i + 1)) as [ e | ] eqn:Ee;
      [ | apply nth_error_None in Ee; lia ].
    exists (Melody.interval_note pv s e :: avgs).
    cbn [Melody.average_loop]. unfold getitem. rewrite Es, Ee. cbn [bind].
    rewrite E. cbn [bind].
    repeat split; [ cbn [length]; lia | ].
    constructor; [ apply interval_note_bounds | exact HR ].
Qed.

(** An index beyond the table ends the loop with [IndexError]. *)
Lemma average_loop_index_error (pv : list R) (table : list Z) (indices : list nat) :
  (exists i, In i indices /\ (length table <= i + 1)%nat) ->
  Melody.average_loop pv table indices = Raise IndexError.
Proof.
  induction indices as [ | i rest IH ]; intros [ j [ Hj Hshort ] ];
    [ contradiction | ].
  cbn [Melody.average_loop]. unfold getitem.
  destruct (nth_error table i) as [ s | ] eqn:Es; [ | reflexivity ].
  destruct (nth_error table (i + 1)) as [ e | ] eqn:Ee; [ | reflexivity ].
  cbn [bind].
  destruct Hj as [ <- | Hj ].
  - assert (nth_error table (i + 1) = None) by (apply nth_error_None; lia).
    congruence.
  - rewrite IH; [ reflexivity | ]. now exists j.
Qed.

(** With a table of at least as many entries as onsets,
    [_average_per_interval] returns one key number (0 to 88) for each pair
    of consecutive onsets, whatever the table holds. *)
Theorem average_per_interval_key_numbers
    (pv : list R) (table : list Z) (onsets : list R) :
  (length onsets <= length table)%nat ->
  exists avgs,
    Melody._average_per_interval pv table onsets = Ok avgs
    /\ length avgs = (length onsets - 1)%nat
    /\ Forall (fun n => 0 <= n <= 88) avgs.
Proof.
  intros Hlong. unfold Melody._average_per_interval.
  destruct (@average_loop_total pv table (range (length onsets - 1)))
    as [ avgs [ E [ EL HR ] ] ].
  { intros i Hi. unfold range in Hi. apply in_seq in Hi. lia. }
  exists avgs. repeat split; try assumption.
  rewrite EL. unfold range. apply length_seq.
Qed.

(** Three onsets over a table of three boundaries. *)
Lemma average_per_interval_key_numbers_witness :
  exists avgs,
    Melody._average_per_interval [440; 0; 220; 220]%R [0; 2; 4] [0; 1; 2]%R = Ok avgs
    /\ length avgs = (length [0; 1; 2]%R - 1)%nat
    /\ Forall (fun n => 0 <= n <= 88) avgs.
Proof.
  apply (@average_per_interval_key_numbers [440; 0; 220; 220]%R [0; 2; 4] [0; 1; 2]%R).
  cbn. lia.
Defined.

(** With two onsets or more and a table shorter than the onsets,
    [_average_per_interval] raises [IndexError]. *)
Theorem average_per_interval_short_table
    (pv : list R) (table : list Z) (onsets : list R) :
  (2 <= length onsets)%nat -> (length table < length onsets)%nat ->
  Melody._average_per_interval pv table onsets = Raise IndexError.
Proof.
  intros Htwo Hshort. unfold Melody._average_per_interval.
  apply average_loop_index_error.
  exists (length onsets - 2)%nat. split; [ | lia ].
  unfold range. apply in_seq. lia.
Qed.

Lemma average_per_interval_short_table_witness :
  Melody._average_per_interval [440; 220]%R [0; 1] [0; 1; 2]%R = Raise IndexError.
Proof.
  apply (@average_per_interval_short_table [440; 220]%R [0; 1] [0; 1; 2]%R);
    cbn; lia.
Defined.

Lemma find_relative_pitch_length (avg : list Z) :
  (length (Melody._find_relative_pitch avg) <= length avg - 1)%nat.
Proof.
  induction avg as [ | a rest IH ]; [ cbn; lia | ].
  destruct rest as [ | b rest' ]; [ cbn; lia | ].
  change (Melody._find_relative_pitch (a :: b :: rest')) with
    (let pitch_change := -1 * (a - b) in
     if (pitch_change =? 0) || (22 <=? Z.abs pitch_change)
     then Melody._find_relative_pitch (b :: rest')
     else pitch_change :: Melody._find_relative_pitch (b :: rest')).
  cbv zeta. cbn [length] in *.
  destruct ((-1 * (a - b) =? 0) || (22 <=? Z.abs (-1 * (a - b)))); cbn [length]; lia.
Qed.

(** [extract_features] on audio that is not empty, unfolded. *)
Lemma extract_features_value
    (audio_length : Z) (tempo_bpm : R) (pv : list R) (onsets : list R) :
  0 < audio_length ->
  exists avgs,
    length avgs = (length onsets - 1)%nat
    /\ Melody.extract_features audio_length tempo_bpm pv onsets
       = Ok (Some {| Melody.tempo := tempo_bpm;
                     Melody.relative_pitches :=
                       if (1 <? length avgs)%nat
                       then Melody._find_relative_pitch avgs else [];
                     Melody.pitch_count :=
                       length (if (1 <? length avgs)%nat
                               then Melody._find_relative_pitch avgs else []);
                     Melody.duration :=
                       (IZR audio_length / IZR Melody.SAMPLE_RATE)%R;
                     Melody.onset_count := length onsets |}).
Proof.
  intros Hlen. unfold Melody.extract_features.
  rewrite pitches_per_interval_table by exact Hlen. cbn [bind].
  unfold Melody._average_per_interval.
  destruct (@average_loop_total pv
              (map (Melody.frame_idx (IZR audio_length / IZR Melody.SAMPLE_RATE)
                      (length pv)) onsets ++ [Z.of_nat (length pv)])
              (range (length onsets - 1)))
    as [ avgs [ E [ EL _ ] ] ].
  { intros i Hi. unfold range in Hi. apply in_seq in Hi.
    rewrite length_app, length_map. cbn. lia. }
  exists avgs. split; [ rewrite EL; unfold range; apply length_seq | ].
  rewrite E. reflexivity.
Qed.

(** On audio that is not empty [extract_features] returns a dictionary
    whose counts agree with its contents: [pitch_count] is the number of
    relative pitches, [onset_count] the number of onsets, and there are at
    most (onsets - 2) relative pitches. *)
Theorem extract_features_counts
    (audio_length : Z) (tempo_bpm : R) (pv : list R) (onsets : list R) :
  0 < audio_length ->
  exists f,
    Melody.extract_features audio_length tempo_bpm pv onsets = Ok (Some f)
    /\ Melody.tempo f = tempo_bpm
    /\ Melody.pitch_count f = length (Melody.relative_pitches f)
    /\ Melody.onset_count f = length onsets
    /\ (length (Melody.relative_pitches f) <= length onsets - 2)%nat.
Proof.
  intros Hlen.
  destruct (@extract_features_value audio_length tempo_bpm pv onsets Hlen)
    as [ avgs [ EL E ] ].
  eexists. split; [ exact E | ].
  cbn [Melody.tempo Melody.pitch_count Melody.onset_count Melody.relative_pitches].
  repeat split.
  destruct (1 <? length avgs)%nat; [ | cbn; lia ].
  pose proof (find_relative_pitch_length avgs). lia.
Qed.

Lemma extract_features_counts_witness :
  exists f,
    Melody.extract_features 44100 120 [440; 440; 220; 220]%R [0; 1]%R = Ok (Some f)
    /\ Melody.tempo f = 120%R
    /\ Melody.pitch_count f = length (Melody.relative_pitches f)
    /\ Melody.onset_count f = length [0; 1]%R
    /\ (length (Melody.relative_pitches f) <= length [0; 1]%R - 2)%nat.
Proof.
  apply (@extract_features_counts 44100 120 [440; 440; 220; 220]%R [0; 1]%R). lia.
Defined.

(** A recording with fewer than three onsets has no relative pitch at
    all, and so scores 0 against every song of the database. *)
Theorem few_onsets_score_zero
    (audio_length : Z) (tempo_bpm : R) (pv : list R) (onsets : list R) :
  0 < audio_length -> (length onsets <= 2)%nat ->
  exists f,
    Melody.extract_features audio_length tempo_bpm pv onsets = Ok (Some f)
    /\ Melody.relative_pitches f = []
    /\ forall song, Dtw.calculate_similarity song (of_features f) = Ok 0%R.
Proof.
  intros Hlen Hfew.
  destruct (@extract_features_value audio_length tempo_bpm pv onsets Hlen)
    as [ avgs [ EL E ] ].
  eexists. split; [ exact E | ].
  cbn [Melody.relative_pitches].
  assert (Hrel : (if (1 <? length avgs)%nat
                  then Melody._find_relative_pitch avgs else []) = []).
  { destruct (Nat.ltb_spec 1 (length avgs)) as [ Hlong | _ ]; [ lia | reflexivity ]. }
  split; [ exact Hrel | ].
  intros song. unfold Dtw.calculate_similarity, Dtw.similarity_try, of_features.
  cbn [features relative_pitches get Melody.relative_pitches].
  rewrite Hrel. cbn [Dtw.is_empty]. now rewrite orb_true_r.
Qed.

Lemma few_onsets_score_zero_witness :
  exists f,
    Melody.extract_features 44100 120 [440; 440; 220; 220]%R [0; 1]%R = Ok (Some f)
    /\ Melody.relative_pitches f = []
    /\ forall song, Dtw.calculate_similarity song (of_features f) = Ok 0%R.
Proof.
  apply (@few_onsets_score_zero 44100 120 [440; 440; 220; 220]%R [0; 1]%R).
  - lia.
  - cbn. lia.
Defined.

(** [extract_features] answers [None] exactly when the audio is empty while
    onsets were reported (the division by the zero duration is caught);
    otherwise it returns a dictionary. *)
Theorem extract_features_none_iff
    (audio_length : Z) (tempo_bpm : R) (pv : list R) (onsets : list R) :
  0 <= audio_length ->
  (Melody.extract_features audio_length tempo_bpm pv onsets = Ok None
   <-> audio_length = 0 /\ onsets <> []).
Proof.
  intros Hnonneg. split.
  - intros Hnone.
    destruct (Z.eq_dec audio_length 0) as [ E0 | N0 ].
    + split; [ exact E0 | ]. intros ->. subst audio_length.
      cbv in Hnone. discriminate.
    + exfalso.
      destruct (@extract_features_value audio_length tempo_bpm pv onsets)
        as [ avgs [ _ E ] ]; [ lia | ].
      rewrite E in Hnone. discriminate.
  - intros [ -> Hons ]. destruct onsets as [ | t rest ]; [ contradiction | ].
    unfold Melody.extract_features, Melody._pitches_per_interval.
    destruct (Req_dec_T (IZR 0 / IZR Melody.SAMPLE_RATE) 0) as [ _ | NE ];
      [ reflexivity | ].
    exfalso. apply NE. unfold Rdiv. ring.
Qed.

Lemma extract_features_none_iff_witness :
  Melody.extract_features 0 120 [] [0%R] = Ok None <-> 0 = 0 /\ [0%R] <> [].
Proof.
  apply (@extract_features_none_iff 0 120 [] [0%R]). lia.
Defined.

End Features.

(** ** dtw.py: symmetry *)

Section ScoreSymmetry.

Import Records.
Open Scope R_scope.

Lemma co_deviation_sym (x y : list R) :
  Dtw.co_deviation x y = Dtw.co_deviation y x.
Proof.
  unfold Dtw.co_deviation. generalize (mean x) (mean y). intros mx my.
  revert y. induction x as [ | a x IH ]; intros [ | b y ]; try reflexivity.
  cbn [combine map fst snd]. change (sum (?h :: ?t)) with (h + sum t).
  rewrite IH. ring.
Qed.

Lemma pearson_sym (x y : list R) : Dtw.pearson x y = Dtw.pearson y x.
Proof.
  unfold Dtw.pearson. rewrite (co_deviation_sym x y).
  destruct (Req_dec_T (Dtw.co_deviation x x) 0);
    destruct (Req_dec_T (Dtw.co_deviation y y) 0); try reflexivity.
  now rewrite Rmult_comm.
Qed.

Lemma coded_pitch_similarity_sym (a b : list Z) :
  Dtw.coded_pitch_similarity a b = Dtw.coded_pitch_similarity b a.
Proof.
  unfold Dtw.coded_pitch_similarity, Dtw.truncated.
  rewrite (Nat.min_comm (length b) (length a)), pearson_sym. reflexivity.
Qed.

Lemma pitch_similarity_sym (a b : list Z) :
  Dtw.pitch_similarity a b = Dtw.pitch_similarity b a.
Proof.
  destruct a as [ | a0 a' ]; destruct b as [ | b0 b' ]; try reflexivity.
  rewrite !pitch_similarity_coded by discriminate.
  apply coded_pitch_similarity_sym.
Qed.

(** The score does not depend on which of the two dictionaries is the song
    and which the query. *)
Theorem calculate_similarity_symmetric (song user : Dict) :
  Dtw.calculate_similarity song user = Dtw.calculate_similarity user song.
Proof.
  unfold Dtw.calculate_similarity, Dtw.similarity_try.
  rewrite (orb_comm (Dtw.is_empty (get (relative_pitches user) []))).
  destruct (Dtw.is_empty _ || Dtw.is_empty _); [ reflexivity | ].
  unfold Dtw.tempo_similarity.
  rewrite (Rabs_minus_sym (get (tempo user) 120)).
  rewrite (Rmax_comm (get (tempo user) 120)).
  rewrite (pitch_similarity_sym (get (relative_pitches user) [])).
  reflexivity.
Qed.

End ScoreSymmetry.

(** ** matcher.py: size, bounds and head of the ranking *)

Section RankingBounds.

Import Records.
Open Scope R_scope.

Lemma sort_by_key_reverse_perm (A : Type) (key : A -> R) (l : list A) :
  Permutation (sort_by_key_reverse key l) l.
Proof. unfold sort_by_key_reverse. apply sort_perm. Qed.

Lemma in_firstn (A : Type) (n : nat) (l : list A) (x : A) :
  In x (firstn n l) -> In x l.
Proof.
  revert l. induction n as [ | n IH ]; intros [ | a l ] Hx; try contradiction.
  destruct Hx as [ <- | Hx ]; [ now left | right; now apply IH ].
Qed.

Lemma calculate_similarity_score_range (song user : Dict) (score : R) :
  Dtw.calculate_similarity song user = Ok score -> 0 <= score <= 100.
Proof.
  unfold Dtw.calculate_similarity, Dtw.similarity_try.
  destruct (Dtw.is_empty _ || Dtw.is_empty _).
  - intros E. injection E as <-. lra.
  - unfold Dtw.tempo_similarity, truediv.
    destruct (Req_dec_T _ 0); cbn [bind try_except]; intros E; injection E as <-.
    + lra.
    + apply clamp_range.
Qed.

Lemma round1_range (x : R) : 0 <= x <= 100 -> 0 <= round1 x <= 100.
Proof.
  intros Hx. unfold round1.
  assert (H : (0 <= round (x * 10) <= 1000)%Z) by (apply round_between; lra).
  destruct H as [ H0 H1 ]. apply IZR_le in H0, H1. lra.
Qed.

Lemma match_entry_similarity (user song : Dict) (m : Matcher.Match) :
  Matcher.match_entry user song = Ok m -> 0 <= Matcher.similarity m <= 100.
Proof.
  unfold Matcher.match_entry.
  destruct (Dtw.calculate_similarity song user) as [ score | e | ] eqn:E;
    cbn [bind]; intros Hm; try discriminate.
  injection Hm as <-. cbn [Matcher.similarity].
  apply round1_range. now apply calculate_similarity_score_range with song user.
Qed.

Lemma all_matches_entries (user : Dict) (database : list Dict)
    (matches : list Matcher.Match) :
  Forall2 (fun song m => Matcher.match_entry user song = Ok m) database matches ->
  length matches = length database
  /\ Forall (fun m => 0 <= Matcher.similarity m <= 100) matches
  /\ (forall song m, In song database -> Matcher.match_entry user song = Ok m ->
        In m matches).
Proof.
  induction 1 as [ | song m database matches Hm _ IH ].
  - repeat split; [ constructor | contradiction ].
  - destruct IH as [ EL [ HR Hin ] ]. repeat split.
    + cbn [length]. now rewrite EL.
    + constructor; [ now apply match_entry_similarity with user song | exact HR ].
    + intros song' m' [ <- | Hsong ] Hm'.
      * left. congruence.
      * right. now apply Hin with song'.
Qed.

(** For a top-N that is not negative the ranker returns min(N, number of
    songs) entries, each with a similarity between 0 and 100. *)
Theorem find_best_matches_size
    (user : Dict) (database : list Dict) (top_n : option Z) :
  (0 <= get top_n Matcher.DEFAULT_TOP_N)%Z ->
  exists ms,
    Matcher.find_best_matches user database top_n = Ok ms
    /\ length ms
       = Nat.min (Z.to_nat (get top_n Matcher.DEFAULT_TOP_N)) (length database)
    /\ Forall (fun m => 0 <= Matcher.similarity m <= 100) ms.
Proof.
  intros Hn.
  destruct (all_matches_total user database) as [ matches [ E HF ] ].
  destruct (@all_matches_entries user database matches HF) as [ EL [ HR _ ] ].
  unfold Matcher.find_best_matches. rewrite E. cbn [bind].
  rewrite slice_prefix by exact Hn.
  eexists. split; [ reflexivity | split ].
  - rewrite length_firstn.
    rewrite (Permutation_length (sort_by_key_reverse_perm Matcher.similarity matches)).
    now rewrite EL.
  - apply Forall_forall. intros m Hm. apply in_firstn in Hm.
    rewrite Forall_forall in HR. apply HR.
    apply Permutation_in with (sort_by_key_reverse Matcher.similarity matches);
      [ apply sort_by_key_reverse_perm | exact Hm ].
Qed.

Lemma find_best_matches_size_witness :
  exists ms,
    Matcher.find_best_matches (features (Some 120) (Some [1; 2]%Z))
      [entry "a" "Song A" 90 [1; 1]%Z; entry "b" "Song B" 120 [2; -1]%Z] (Some 1%Z)
    = Ok ms
    /\ length ms
       = Nat.min (Z.to_nat (get (Some 1%Z) Matcher.DEFAULT_TOP_N))
           (length [entry "a" "Song A" 90 [1; 1]%Z; entry "b" "Song B" 120 [2; -1]%Z])
    /\ Forall (fun m => 0 <= Matcher.similarity m <= 100) ms.
Proof.
  apply (@find_best_matches_size (features (Some 120) (Some [1; 2]%Z))
           [entry "a" "Song A" 90 [1; 1]%Z; entry "b" "Song B" 120 [2; -1]%Z]
           (Some 1%Z)).
  cbn. lia.
Defined.

(** A negative top-N is not refused: the ranker returns the whole ranking
    without its last |N| entries. *)
Theorem find_best_matches_negative_top_n
    (user : Dict) (database : list Dict) (n : Z) :
  (n < 0)%Z ->
  exists ranking,
    Matcher.find_best_matches user database (Some (Z.of_nat (length database)))
    = Ok ranking
    /\ length ranking = length database
    /\ Matcher.find_best_matches user database (Some n)
       = Ok (firstn (length database - Z.to_nat (- n)) ranking).
Proof.
  intros Hneg.
  destruct (all_matches_total user database) as [ matches [ E HF ] ].
  destruct (@all_matches_entries user database matches HF) as [ EL _ ].
  set (ranking := sort_by_key_reverse Matcher.similarity matches).
  assert (ELr : length ranking = length database).
  { unfold ranking.
    rewrite (Permutation_length (sort_by_key_reverse_perm Matcher.similarity matches)).
    exact EL. }
  exists ranking. split; [ | split; [ exact ELr | ] ].
  - unfold Matcher.find_best_matches. rewrite E. cbn [bind get]. fold ranking.
    rewrite slice_prefix by lia. f_equal. apply firstn_all2. lia.
  - unfold Matcher.find_best_matches. rewrite E. cbn [bind get]. fold ranking.
    unfold slice, clamp_index.
    destruct (Z.ltb_spec n 0) as [ _ | ? ]; [ | lia ].
    cbn [Z.to_nat skipn]. rewrite ELr. do 2 f_equal. lia.
Qed.

Lemma find_best_matches_negative_top_n_witness :
  exists ranking,
    Matcher.find_best_matches (features (Some 120) (Some [1; 2]%Z))
      [entry "a" "Song A" 90 [1; 1]%Z; entry "b" "Song B" 120 [2; -1]%Z]
      (Some (Z.of_nat (length [entry "a" "Song A" 90 [1; 1]%Z;
                               entry "b" "Song B" 120 [2; -1]%Z])))
    = Ok ranking
    /\ length ranking
       = length [entry "a" "Song A" 90 [1; 1]%Z; entry "b" "Song B" 120 [2; -1]%Z]
    /\ Matcher.find_best_matches (features (Some 120) (Some [1; 2]%Z))
         [entry "a" "Song A" 90 [1; 1]%Z; entry "b" "Song B" 120 [2; -1]%Z]
         (Some (-1)%Z)
       = Ok (firstn (length [entry "a" "Song A" 90 [1; 1]%Z;
                             entry "b" "Song B" 120 [2; -1]%Z]
                     - Z.to_nat (- (-1))) ranking).
Proof.
  apply (@find_best_matches_negative_top_n (features (Some 120) (Some [1; 2]%Z))
           [entry "a" "Song A" 90 [1; 1]%Z; entry "b" "Song B" 120 [2; -1]%Z] (-1)).
  lia.
Defined.

(** When at least one entry is asked for and the database is not empty,
    the first match returned has the highest similarity of all the songs
    of the database. *)
Theorem find_best_matches_best_first
    (user : Dict) (database : list Dict) (top_n : option Z) :
  (1 <= get top_n Matcher.DEFAULT_TOP_N)%Z -> database <> [] ->
  exists best others,
    Matcher.find_best_matches user database top_n = Ok (best :: others)
    /\ forall song m,
         In song database -> Matcher.match_entry user song = Ok m ->
         Matcher.similarity m <= Matcher.similarity best.
Proof.
  intros Hn Hdb.
  destruct (all_matches_total user database) as [ matches [ E HF ] ].
  destruct (@all_matches_entries user database matches HF) as [ EL [ _ Hin ] ].
  pose proof (sort_by_key_reverse_perm Matcher.similarity matches) as Hperm.
  pose proof (sort_by_key_reverse_sorted Matcher.similarity matches) as Hsorted.
  destruct (sort_by_key_reverse Matcher.similarity matches) as [ | best rest ] eqn:Es.
  - apply Permutation_length in Hperm. cbn in Hperm.
    destruct database; [ contradiction | cbn in EL; lia ].
  - exists best, (firstn (Z.to_nat (get top_n Matcher.DEFAULT_TOP_N) - 1) rest).
    split.
    + unfold Matcher.find_best_matches. rewrite E. cbn [bind]. rewrite Es.
      rewrite slice_prefix by lia.
      destruct (Z.to_nat (get top_n Matcher.DEFAULT_TOP_N)) as [ | k ] eqn:Ek;
        [ lia | ].
      cbn [firstn]. replace (S k - 1)%nat with k by lia. reflexivity.
    + intros song m Hsong Hm.
      assert (Hmr : In m (best :: rest)).
      { apply Permutation_in with matches; [ now symmetry | ].
        now apply Hin with song. }
      apply StronglySorted_inv in Hsorted. destruct Hsorted as [ _ Hall ].
      destruct Hmr as [ <- | Hmr ]; [ lra | ].
      rewrite Forall_forall in Hall. apply (Hall m Hmr).
Qed.

Lemma find_best_matches_best_first_witness :
  exists best others,
    Matcher.find_best_matches (features (Some 120) (Some [1; 2]%Z))
      [entry "a" "Song A" 90 [1; 1]%Z; entry "b" "Song B" 120 [2; -1]%Z] None
    = Ok (best :: others)
    /\ forall song m,
         In song [entry "a" "Song A" 90 [1; 1]%Z; entry "b" "Song B" 120 [2; -1]%Z] ->
         Matcher.match_entry (features (Some 120) (Some [1; 2]%Z)) song = Ok m ->
         Matcher.similarity m <= Matcher.similarity best.
Proof.
  apply (@find_best_matches_best_first (features (Some 120) (Some [1; 2]%Z))
           [entry "a" "Song A" 90 [1; 1]%Z; entry "b" "Song B" 120 [2; -1]%Z] None).
  - unfold Matcher.DEFAULT_TOP_N. cbn. lia.
  - discriminate.
Defined.

End RankingBounds.

(** ** Key invariance *)

Section KeyInvariance.

Open Scope R_scope.

Lemma diff_shift (c : R) (l : list R) : diff (map (fun v => v + c) l) = diff l.
Proof.
  induction l as [ | a rest IH ]; [ reflexivity | ].
  destruct rest as [ | b rest' ]; [ reflexivity | ].
  change (diff (map (fun v => v + c) (a :: b :: rest')))
    with ((b + c - (a + c)) :: diff (map (fun v => v + c) (b :: rest'))).
  change (diff (a :: b :: rest')) with ((b - a) :: diff (b :: rest')).
  rewrite IH. f_equal. ring.
Qed.

(** Transposing a pitch sequence by any number of semitones leaves its
    interval contour unchanged. *)
Theorem normalize_to_intervals_key_invariant (c : R) (pitch_midi : list R) :
  DspUtils.normalize_to_intervals (map (fun v => v + c) pitch_midi)
  = DspUtils.normalize_to_intervals pitch_midi.
Proof.
  unfold DspUtils.normalize_to_intervals.
  now rewrite length_map, diff_shift.
Qed.

Lemma voiced_map (g : R -> R) (f0 : DspUtils.PitchTrack) :
  DspUtils.voiced (map (option_map g) f0) = map g (DspUtils.voiced f0).
Proof.
  induction f0 as [ | [ f | ] rest IH ]; cbn; [ reflexivity | now rewrite IH | exact IH ].
Qed.

Lemma sum_plus (c : R) (l : list R) :
  sum (map (fun m => m + c) l) = sum l + INR (length l) * c.
Proof.
  induction l as [ | a rest IH ].
  - cbn. ring.
  - change (sum (map (fun m => m + c) (a :: rest)))
      with ((a + c) + sum (map (fun m => m + c) rest)).
    change (sum (a :: rest)) with (a + sum rest).
    change (length (a :: rest)) with (S (length rest)).
    rewrite IH, S_INR. ring.
Qed.

Lemma mean_plus (c : R) (l : list R) :
  (0 < length l)%nat -> mean (map (fun m => m + c) l) = mean l + c.
Proof.
  intros Hlen. unfold mean. rewrite sum_plus, length_map.
  assert (0 < INR (length l)) by now apply lt_0_INR.
  field. lra.
Qed.

(** Centering removes a constant offset. *)
Lemma centered_plus (c : R) (l : list R) :
  (0 < length l)%nat ->
  map (fun m => m - mean (map (fun v => v + c) l)) (map (fun v => v + c) l)
  = map (fun m => m - mean l) l.
Proof.
  intros Hlen. rewrite mean_plus by exact Hlen. rewrite map_map.
  apply map_ext. intros m. ring.
Qed.

Lemma hz_to_midi_scaled (k f : R) :
  0 < k -> 0 < f ->
  DspUtils.hz_to_midi (k * f) = DspUtils.hz_to_midi f + 12 * Melody.log2 k.
Proof.
  intros Hk Hf. unfold DspUtils.hz_to_midi, Melody.log2, Rlog.
  rewrite ln_mult by assumption. unfold Rdiv. ring.
Qed.

(** Humming the same melody in another key, every frequency multiplied by
    the same positive ratio, gives the same normalized contour (or the
    same refusal). *)
Theorem normalize_pitch_contour_key_invariant (k : R) (f0 : DspUtils.PitchTrack) :
  0 < k ->
  Forall (fun f => 0 < f) (DspUtils.voiced f0) ->
  DspEngine.normalize_pitch_contour (map (option_map (fun f => k * f)) f0)
  = DspEngine.normalize_pitch_contour f0.
Proof.
  intros Hk Hpos. unfold DspEngine.normalize_pitch_contour.
  rewrite !voiced_midi, voiced_map, !length_map.
  destruct (Nat.ltb_spec (length (DspUtils.voiced f0)) DspEngine.MIN_VALID_FRAMES)
    as [ _ | Hlong ]; [ reflexivity | ].
  f_equal.
  assert (Hmidi : map DspUtils.hz_to_midi (map (fun f => k * f) (DspUtils.voiced f0))
                  = map (fun m => m + 12 * Melody.log2 k)
                        (map DspUtils.hz_to_midi (DspUtils.voiced f0))).
  { rewrite !map_map. apply map_ext_in. intros f Hf.
    rewrite Forall_forall in Hpos. apply hz_to_midi_scaled; [ exact Hk | now apply Hpos ]. }
  rewrite Hmidi. apply centered_plus. rewrite length_map.
  unfold DspEngine.MIN_VALID_FRAMES in Hlong. lia.
Qed.

(** Ten frames of 220 Hz, an unvoiced frame and a frame of 440 Hz, sung a
    fifth higher (ratio 3/2). *)
Lemma normalize_pitch_contour_key_invariant_witness :
  DspEngine.normalize_pitch_contour
    (map (option_map (fun f => 3 / 2 * f)) (repeat (Some 220) 10 ++ [None; Some 440]))
  = DspEngine.normalize_pitch_contour (repeat (Some 220) 10 ++ [None; Some 440]).
Proof.
  apply (@normalize_pitch_contour_key_invariant (3 / 2)
           (repeat (Some 220) 10 ++ [None; Some 440])).
  - lra.
  - cbn. repeat constructor; lra.
Defined.

(** On a pitch track whose voiced frequencies are positive, as a pitch
    tracker gives them, [normalize_pitch_contour] raises [ValueError]
    exactly when fewer than [MIN_VALID_FRAMES] frames are voiced; otherwise
    it returns one value per voiced frame. *)
Theorem normalize_pitch_contour_insufficient (f0 : DspUtils.PitchTrack) :
  Forall (fun f => 0 < f) (DspUtils.voiced f0) ->
  (DspEngine.normalize_pitch_contour f0 = Raise ValueError
   <-> (length (DspUtils.voiced f0) < DspEngine.MIN_VALID_FRAMES)%nat)
  /\ ((DspEngine.MIN_VALID_FRAMES <= length (DspUtils.voiced f0))%nat ->
      exists normalized,
        DspEngine.normalize_pitch_contour f0 = Ok normalized
        /\ length normalized = length (DspUtils.voiced f0)).
Proof.
  intros _.
  unfold DspEngine.normalize_pitch_contour. rewrite voiced_midi, length_map.
  destruct (Nat.ltb_spec (length (DspUtils.voiced f0)) DspEngine.MIN_VALID_FRAMES)
    as [ Hshort | Hlong ].
  - split; [ split; [ intros _; exact Hshort | reflexivity ] | lia ].
  - split; [ split; [ discriminate | lia ] | ].
    intros _. eexists. split; [ reflexivity | now rewrite !length_map ].
Qed.

(** Nine voiced frames among eleven. *)
Lemma normalize_pitch_contour_insufficient_witness :
  (DspEngine.normalize_pitch_contour
     (None :: repeat (Some 220%R) 9 ++ [None]) = Raise ValueError
   <-> (length (DspUtils.voiced (None :: repeat (Some 220%R) 9 ++ [None]))
        < DspEngine.MIN_VALID_FRAMES)%nat)
  /\ ((DspEngine.MIN_VALID_FRAMES
       <= length (DspUtils.voiced (None :: repeat (Some 220%R) 9 ++ [None])))%nat ->
      exists normalized,
        DspEngine.normalize_pitch_contour (None :: repeat (Some 220%R) 9 ++ [None])
        = Ok normalized
        /\ length normalized
           = length (DspUtils.voiced (None :: repeat (Some 220%R) 9 ++ [None]))).
Proof.
  apply (@normalize_pitch_contour_insufficient (None :: repeat (Some 220%R) 9 ++ [None])).
  cbn. repeat constructor; lra.
Defined.

End KeyInvariance.

(** ** dsp_engine.py: more on the sliding windows *)

Section WindowEdges.

Open Scope Z_scope.

Lemma frames_per_second_nonzero (sr : Z) :
  0 < sr -> (IZR sr / IZR DspEngine.HOP_LENGTH)%R <> 0%R.
Proof.
  intros Hsr. unfold DspEngine.HOP_LENGTH. apply IZR_lt in Hsr.
  assert (0 < IZR sr / 512)%R; [ apply Rdiv_lt_0_compat; lra | lra ].
Qed.

(** The result of [create_sliding_windows] in closed form. *)
Lemma sliding_windows_closed_form
    (fuel : nat) (contour : list R) (sr : Z) (window_sec overlap_sec : R) :
  let fps := (IZR sr / IZR DspEngine.HOP_LENGTH)%R in
  let W := int (window_sec * fps) in
  let step := int ((window_sec - overlap_sec) * fps) in
  let n := DspEngine.remaining (Z.of_nat (length contour)) W step 0 in
  0 < sr -> 0 <= W -> 0 < step -> (length contour + 1 < fuel)%nat ->
  DspEngine.create_sliding_windows fuel contour sr window_sec overlap_sec
  = Ok (map (fun k => DspEngine.full_window contour fps W (Z.of_nat k * step))
            (seq 0 n)
        ++ (if (DspEngine.MIN_VALID_FRAMES
                <=? length contour - Z.to_nat (Z.of_nat n * step))%nat
            then [DspEngine.tail_window contour fps (Z.of_nat n * step)]
            else [])).
Proof.
  intros fps W step n Hsr HW Hstep Hfuel.
  set (len := Z.of_nat (length contour)) in *.
  assert (Hfps : fps <> 0%R) by now apply frames_per_second_nonzero.
  unfold DspEngine.create_sliding_windows. fold fps. fold W. fold step.
  rewrite (@window_loop_spec contour fps W step Hfps HW Hstep fuel 0 []).
  2: lia.
  2: { pose proof (@remaining_bound len W step Hstep HW). unfold len in *. lia. }
  fold len. fold n. cbn [bind app].
  replace (0 + Z.of_nat n * step) with (Z.of_nat n * step) by lia.
  assert (Hmap : map (fun k : nat =>
                        DspEngine.full_window contour fps W (0 + Z.of_nat k * step))
                     (seq 0 n)
                 = map (fun k : nat =>
                          DspEngine.full_window contour fps W (Z.of_nat k * step))
                       (seq 0 n)).
  { apply map_ext. intros k. f_equal. }
  rewrite Hmap.
  assert (Hpos : 0 <= Z.of_nat n * step) by nia.
  destruct (Z.ltb_spec (Z.of_nat n * step) len) as [ Hleft | Hnone ].
  - rewrite slice_to_end by exact Hpos. rewrite length_skipn.
    destruct (Nat.leb_spec DspEngine.MIN_VALID_FRAMES
                (length contour - Z.to_nat (Z.of_nat n * step))) as [ _ | _ ].
    + unfold truediv.
      destruct (Req_dec_T fps 0) as [ ? | _ ]; [ contradiction | ].
      reflexivity.
    + now rewrite app_nil_r.
  - destruct (Nat.leb_spec DspEngine.MIN_VALID_FRAMES
                (length contour - Z.to_nat (Z.of_nat n * step))) as [ Hten | _ ].
    + unfold DspEngine.MIN_VALID_FRAMES, len in *. lia.
    + now rewrite app_nil_r.
Qed.



End WindowEdges.

Section WindowLoop.

Open Scope Z_scope.

(** With a step that is not positive the loop condition never changes. *)
Lemma window_loop_never_ends (contour : list R) (fps : R) (W step : Z) :
  fps <> 0%R -> step <= 0 ->
  forall (fuel : nat) (start : Z) (acc : list DspEngine.Window),
    start + W <= Z.of_nat (length contour) ->
    DspEngine.window_loop fuel contour fps W step start acc = Loop.
Proof.
  intros Hfps Hstep. induction fuel as [ | fuel IH ]; intros start acc Hfits;
    [ reflexivity | ].
  cbn [DspEngine.window_loop].
  destruct (Z.leb_spec (start + W) (Z.of_nat (length contour))) as [ _ | ? ]; [ | lia ].
  unfold truediv. destruct (Req_dec_T fps 0) as [ ? | _ ]; [ contradiction | ].
  cbn [bind]. apply IH. lia.
Qed.

(** When the difference between window and overlap is shorter than one
    frame, so that the step truncates to 0 (or when it is negative), and
    the contour holds at least one full window, the loop of
    [create_sliding_windows] never ends: no amount of fuel gives a
    result. *)
Theorem sliding_windows_zero_step_never_ends
    (fuel : nat) (contour : list R) (sr : Z) (window_sec overlap_sec : R) :
  let fps := (IZR sr / IZR DspEngine.HOP_LENGTH)%R in
  let W := int (window_sec * fps) in
  let step := int ((window_sec - overlap_sec) * fps) in
  0 < sr -> step <= 0 -> W <= Z.of_nat (length contour) ->
  DspEngine.create_sliding_windows fuel contour sr window_sec overlap_sec = Loop.
Proof.
  intros fps W step Hsr Hstep Hfits.
  unfold DspEngine.create_sliding_windows. fold fps. fold W. fold step.
  rewrite window_loop_never_ends;
    [ reflexivity | now apply frames_per_second_nonzero | exact Hstep | lia ].
Qed.

(** One frame per second, windows of 2 s overlapping by 1.5 s: the step is
    int(0.5) = 0 frames; a thousand iterations do not end the loop. *)
Lemma sliding_windows_zero_step_never_ends_witness :
  DspEngine.create_sliding_windows 1000 [0; 1; 2]%R 512 2 (3 / 2) = Loop.
Proof.
  assert (EW : int (2 * (IZR 512 / IZR DspEngine.HOP_LENGTH)) = 2).
  { unfold DspEngine.HOP_LENGTH.
    replace (2 * (512 / 512))%R with (IZR 2) by field. apply int_IZR. }
  assert (ES : int ((2 - 3 / 2) * (IZR 512 / IZR DspEngine.HOP_LENGTH)) = 0).
  { unfold DspEngine.HOP_LENGTH, int.
    destruct (Rle_dec 0 ((2 - 3 / 2) * (512 / 512))) as [ _ | n ]; [ | exfalso; lra ].
    apply Zfloor_eq. lra. }
  apply (@sliding_windows_zero_step_never_ends 1000 [0; 1; 2]%R 512 2 (3 / 2)).
  - lia.
  - rewrite ES. lia.
  - rewrite EW. cbn. lia.
Defined.

(** A contour shorter than one window gives a single window, the whole
    contour at time 0, when it has at least [MIN_VALID_FRAMES] frames, and
    no window at all otherwise. *)
Theorem sliding_windows_short_contour
    (fuel : nat) (contour : list R) (sr : Z) (window_sec overlap_sec : R) :
  let fps := (IZR sr / IZR DspEngine.HOP_LENGTH)%R in
  let W := int (window_sec * fps) in
  0 < sr -> Z.of_nat (length contour) < W -> (0 < fuel)%nat ->
  DspEngine.create_sliding_windows fuel contour sr window_sec overlap_sec
  = Ok (if (DspEngine.MIN_VALID_FRAMES <=? length contour)%nat
        then [(contour, 0%R)] else []).
Proof.
  intros fps W Hsr Hshort Hfuel.
  unfold DspEngine.create_sliding_windows. fold fps. fold W.
  destruct fuel as [ | fuel ]; [ lia | ].
  cbn [DspEngine.window_loop].
  destruct (Z.leb_spec (0 + W) (Z.of_nat (length contour))) as [ ? | _ ]; [ lia | ].
  cbn [bind app].
  assert (Hfps : fps <> 0%R) by now apply frames_per_second_nonzero.
  destruct (Z.ltb_spec 0 (Z.of_nat (length contour))) as [ Hsome | Hnone ].
  - rewrite slice_to_end by lia. cbn [Z.to_nat skipn].
    destruct (DspEngine.MIN_VALID_FRAMES <=? length contour)%nat; [ | reflexivity ].
    unfold truediv. destruct (Req_dec_T fps 0) as [ ? | _ ]; [ contradiction | ].
    cbn [bind]. do 3 f_equal. unfold Rdiv. ring.
  - destruct (Nat.leb_spec DspEngine.MIN_VALID_FRAMES (length contour))
      as [ Hten | _ ]; [ | reflexivity ].
    unfold DspEngine.MIN_VALID_FRAMES in Hten. lia.
Qed.

Lemma sliding_windows_short_contour_witness :
  DspEngine.create_sliding_windows 1 (repeat 1%R 12) 22050 15 5
  = Ok (if (DspEngine.MIN_VALID_FRAMES <=? length (repeat 1%R 12))%nat
        then [(repeat 1%R 12, 0%R)] else []).
Proof.
  apply (@sliding_windows_short_contour 1 (repeat 1%R 12) 22050 15 5).
  - lia.
  - assert (EW : int (15 * (IZR 22050 / IZR DspEngine.HOP_LENGTH)) = 645).
    { unfold DspEngine.HOP_LENGTH, int.
      destruct (Rle_dec 0 (15 * (22050 / 512))) as [ _ | n ]; [ | exfalso; lra ].
      apply Zfloor_eq. lra. }
    rewrite EW. cbn. lia.
  - lia.
Defined.

End WindowLoop.

(** ** dsp_engine.py: an overlap below the window length is not enough *)

Section WindowStep.

Open Scope Z_scope.

(** C5, as the claim words it, fails in two ways.  An overlap below the
    window length does not make the step positive: at one frame per second,
    windows of 1.5 s (1 frame) overlapping by 0.7 s have a step of
    int(0.8) = 0 frames, and on a contour of three frames no amount of fuel
    ends the loop, so no window is ever returned.  And the frames counted
    for the last window are those from the next start on, not those after
    the last full window: on 25 frames, with windows of 20 frames every 10
    frames, the only full window covers the frames 0 to 19 and leaves
    5 frames, fewer than [MIN_VALID_FRAMES], yet a last window of the 15
    frames from frame 10 on is returned. *)
Lemma sliding_windows_overlap_below_window :
  (7 / 10 < 3 / 2)%R
  /\ (forall fuel : nat,
        DspEngine.create_sliding_windows fuel [0; 1; 2]%R 512 (3 / 2) (7 / 10) = Loop)
  /\ DspEngine.create_sliding_windows 27 (repeat 0%R 25) 512 20 10
     = Ok [ (repeat 0%R 20, (0 / (512 / 512))%R); (repeat 0%R 15, (10 / (512 / 512))%R) ].
Proof.
  split; [ lra | split ].
  - intros fuel.
    assert (EW : int (3 / 2 * (IZR 512 / IZR DspEngine.HOP_LENGTH)) = 1).
    { unfold DspEngine.HOP_LENGTH, int.
      destruct (Rle_dec 0 (3 / 2 * (512 / 512))) as [ _ | n ]; [ | exfalso; lra ].
      apply Zfloor_eq. lra. }
    assert (ES : int ((3 / 2 - 7 / 10) * (IZR 512 / IZR DspEngine.HOP_LENGTH)) = 0).
    { unfold DspEngine.HOP_LENGTH, int.
      destruct (Rle_dec 0 ((3 / 2 - 7 / 10) * (512 / 512))) as [ _ | n ];
        [ | exfalso; lra ].
      apply Zfloor_eq. lra. }
    unfold DspEngine.create_sliding_windows. rewrite EW, ES.
    rewrite window_loop_never_ends;
      [ reflexivity | apply frames_per_second_nonzero; lia | lia | cbn; lia ].
  - assert (EW : int (20 * (IZR 512 / IZR DspEngine.HOP_LENGTH)) = 20).
    { unfold DspEngine.HOP_LENGTH.
      replace (20 * (512 / 512))%R with (IZR 20) by field. apply int_IZR. }
    assert (ES : int ((20 - 10) * (IZR 512 / IZR DspEngine.HOP_LENGTH)) = 10).
    { unfold DspEngine.HOP_LENGTH.
      replace ((20 - 10) * (512 / 512))%R with (IZR 10) by field. apply int_IZR. }
    rewrite (@sliding_windows_closed_form 27 (repeat 0%R 25) 512 20 10);
      [ | lia | rewrite EW; lia | rewrite ES; lia | cbn; lia ].
    rewrite EW, ES. reflexivity.
Qed.

End WindowStep.

(** ** dsp_engine.py: the index built by [load_database] *)

Section Index.

Open Scope Z_scope.

Lemma default_window_frames :
  int (DspEngine.WINDOW_DURATION_SEC
       * (IZR DspEngine.SAMPLE_RATE / IZR DspEngine.HOP_LENGTH)) = 645.
Proof.
  unfold DspEngine.WINDOW_DURATION_SEC, DspEngine.SAMPLE_RATE, DspEngine.HOP_LENGTH, int.
  destruct (Rle_dec 0 (15 * (22050 / 512))) as [ _ | n ]; [ | exfalso; lra ].
  apply Zfloor_eq. lra.
Qed.

Lemma default_step_frames :
  int ((DspEngine.WINDOW_DURATION_SEC - DspEngine.WINDOW_OVERLAP_SEC)
       * (IZR DspEngine.SAMPLE_RATE / IZR DspEngine.HOP_LENGTH)) = 430.
Proof.
  unfold DspEngine.WINDOW_DURATION_SEC, DspEngine.WINDOW_OVERLAP_SEC,
    DspEngine.SAMPLE_RATE, DspEngine.HOP_LENGTH, int.
  destruct (Rle_dec 0 ((15 - 5) * (22050 / 512))) as [ _ | n ]; [ | exfalso; lra ].
  apply Zfloor_eq. lra.
Qed.

(** With the default durations a contour of at least [MIN_VALID_FRAMES]
    frames is cut into at least one window, each of 10 to 645 frames. *)
Lemma default_windows (contour : list R) :
  (DspEngine.MIN_VALID_FRAMES <= length contour)%nat ->
  exists ws,
    DspEngine.create_sliding_windows (length contour + 2) contour
      DspEngine.SAMPLE_RATE DspEngine.WINDOW_DURATION_SEC DspEngine.WINDOW_OVERLAP_SEC
    = Ok ws
    /\ ws <> []
    /\ Forall (fun w : DspEngine.Window =>
                 (DspEngine.MIN_VALID_FRAMES <= length (fst w) <= 645)%nat) ws.
Proof.
  intros Hlong. unfold DspEngine.MIN_VALID_FRAMES in *.
  pose proof (@sliding_windows_closed_form (length contour + 2) contour
                DspEngine.SAMPLE_RATE DspEngine.WINDOW_DURATION_SEC
                DspEngine.WINDOW_OVERLAP_SEC) as Hclosed.
  cbv zeta in Hclosed. rewrite default_window_frames, default_step_frames in Hclosed.
  specialize (Hclosed ltac:(unfold DspEngine.SAMPLE_RATE; lia) ltac:(lia) ltac:(lia)
                      ltac:(lia)).
  set (len := Z.of_nat (length contour)) in *.
  set (n := DspEngine.remaining len 645 430 0) in *.
  assert (Hn : forall k : nat, (k < n)%nat <-> Z.of_nat k * 430 + 645 <= len)
    by (intros k; apply remaining_iff; lia).
  eexists. split; [ exact Hclosed | ].
  unfold DspEngine.MIN_VALID_FRAMES.
  assert (Htail : (n = 0)%nat -> (10 <= length contour - Z.to_nat (Z.of_nat n * 430))%nat)
    by (intros ->; cbn; lia).
  split.
  - destruct n as [ | n' ] eqn:En.
    + destruct (Nat.leb_spec 10 (length contour - Z.to_nat (Z.of_nat 0 * 430)))
        as [ _ | Hfew ]; [ discriminate | ].
      specialize (Htail eq_refl). lia.
    + cbn [seq map app]. discriminate.
  - apply Forall_app. split.
    + apply Forall_forall. intros w Hw. apply in_map_iff in Hw.
      destruct Hw as [ k [ <- Hk ] ]. apply in_seq in Hk.
      assert (Hfit : Z.of_nat k * 430 + 645 <= len) by (apply Hn; lia).
      unfold DspEngine.full_window. cbn [fst].
      rewrite length_firstn, length_skipn. unfold len in Hfit. lia.
    + destruct (Nat.leb_spec 10 (length contour - Z.to_nat (Z.of_nat n * 430)))
        as [ Hten | _ ]; [ | constructor ].
      constructor; [ | constructor ].
      unfold DspEngine.tail_window. cbn [fst]. rewrite length_skipn.
      split; [ exact Hten | ].
      assert (Hnext : ~ Z.of_nat n * 430 + 645 <= len).
      { intros Hfit. apply (proj2 (Hn n)) in Hfit. lia. }
      unfold len in Hnext. lia.
Qed.

Lemma dict_set_forall (V : Type) (P : V -> Prop) (d : list (string * V))
    (key : string) (value : V) :
  Forall (fun e => P (snd e)) d -> P value ->
  Forall (fun e => P (snd e)) (DspEngine.dict_set d key value).
Proof.
  intros Hd Hv. induction Hd as [ | [ k v ] rest Hkv Hrest IH ].
  - repeat constructor. exact Hv.
  - cbn [DspEngine.dict_set]. destruct (String.eqb k key).
    + constructor; [ exact Hv | exact Hrest ].
    + constructor; [ exact Hkv | exact IH ].
Qed.

Lemma dict_set_length (V : Type) (d : list (string * V)) (key : string) (value : V) :
  (length d <= length (DspEngine.dict_set d key value) <= length d + 1)%nat.
Proof.
  induction d as [ | [ k v ] rest IH ]; [ cbn; lia | ].
  cbn [DspEngine.dict_set]. destruct (String.eqb k key); cbn [length]; lia.
Qed.

(** One file of the directory: the cache keeps its invariant, and the
    count grows at least as much as the cache. *)
Lemma load_file_step (file : DspEngine.AudioFile)
    (cache : list (string * DspEngine.SongData)) (count : nat) :
  DspEngine.pitch_track file <> Loop ->
  Forall (fun e => DspEngine.well_indexed (snd e)) cache ->
  exists cache' count',
    DspEngine.load_file file (cache, count) = Ok (cache', count')
    /\ Forall (fun e => DspEngine.well_indexed (snd e)) cache'
    /\ (count <= count' <= count + 1)%nat
    /\ (length cache <= length cache')%nat
    /\ (length cache' + count <= length cache + count')%nat.
Proof.
  intros Hends Hcache.
  assert (Hskip : exists cache' count',
             Ok (cache, count) = Ok (cache', count')
             /\ Forall (fun e => DspEngine.well_indexed (snd e)) cache'
             /\ (count <= count' <= count + 1)%nat
             /\ (length cache <= length cache')%nat
             /\ (length cache' + count <= length cache + count')%nat).
  { exists cache, count. repeat split; try assumption; lia. }
  unfold DspEngine.load_file.
  destruct (negb _); [ exact Hskip | ].
  destruct (DspEngine.pitch_track file) as [ f0 | e | ];
    [ | exact Hskip | contradiction ].
  cbn [bind]. unfold DspEngine.normalize_pitch_contour at 1.
  rewrite voiced_midi, length_map.
  destruct (Nat.ltb_spec (length (DspUtils.voiced f0)) DspEngine.MIN_VALID_FRAMES)
    as [ _ | Hlong ]; [ exact Hskip | ].
  set (normalized := map _ (map DspUtils.hz_to_midi (DspUtils.voiced f0))).
  assert (Hlen : length normalized = length (DspUtils.voiced f0))
    by (unfold normalized; now rewrite !length_map).
  destruct (@default_windows normalized) as [ ws [ Ews [ Hne Hws ] ] ];
    [ lia | ].
  cbn [bind]. rewrite Ews. cbn [bind try_except].
  eexists _, _. split; [ reflexivity | ].
  pose proof (dict_set_length cache (DspEngine._get_song_title (DspEngine.file_name file))
                {| DspEngine.file_path := DspEngine.file_name file;
                   DspEngine.full_contour := normalized;
                   DspEngine.windows := ws;
                   DspEngine.sample_rate := DspEngine.SAMPLE_RATE |}) as Hdl.
  split; [ | lia ].
  apply dict_set_forall; [ exact Hcache | ].
  unfold DspEngine.well_indexed. cbn.
  repeat split; try assumption; try lia.
  unfold normalized. apply mean_centered. rewrite length_map.
  unfold DspEngine.MIN_VALID_FRAMES in Hlong. lia.
Qed.

Lemma load_files_steps (files : list DspEngine.AudioFile) :
  Forall (fun file => DspEngine.pitch_track file <> Loop) files ->
  forall (cache : list (string * DspEngine.SongData)) (count : nat),
    Forall (fun e => DspEngine.well_indexed (snd e)) cache ->
    exists cache' count',
      DspEngine.load_files files (cache, count) = Ok (cache', count')
      /\ Forall (fun e => DspEngine.well_indexed (snd e)) cache'
      /\ (count <= count' <= count + length files)%nat
      /\ (length cache' + count <= length cache + count')%nat.
Proof.
  induction 1 as [ | file rest Hfile _ IH ]; intros cache count Hcache.
  - exists cache, count. cbn. repeat split; try assumption; lia.
  - destruct (@load_file_step file cache count Hfile Hcache)
      as [ c1 [ n1 [ E1 [ H1 [ Hn1 [ _ Hd1 ] ] ] ] ] ].
    destruct (IH c1 n1 H1) as [ c2 [ n2 [ E2 [ H2 [ Hn2 Hd2 ] ] ] ] ].
    exists c2, n2. cbn [DspEngine.load_files]. rewrite E1. cbn [bind].
    rewrite E2. cbn [length]. repeat split; try assumption; lia.
Qed.

(** The first [load_database] of a new database returns a count of loaded
    files between the size of the cache and the number of files, marks the
    database loaded, and leaves a cache of which every entry has a centred
    contour of at least [MIN_VALID_FRAMES] frames and at least one window,
    no window shorter than [MIN_VALID_FRAMES] frames. *)
Theorem load_database_index_invariant (files : list DspEngine.AudioFile) :
  Forall (fun file => DspEngine.pitch_track file <> Loop) files ->
  exists num_songs db,
    DspEngine.load_database (DspEngine.new_database (Ok files)) = Ok (num_songs, db)
    /\ DspEngine._loaded db = true
    /\ (length (DspEngine.songs_cache db) <= num_songs <= length files)%nat
    /\ Forall (fun e => DspEngine.well_indexed (snd e)) (DspEngine.songs_cache db).
Proof.
  intros Hfiles.
  destruct (@load_files_steps files Hfiles [] O) as [ cache [ n [ E [ Hok [ Hn Hd ] ] ] ] ];
    [ constructor | ].
  eexists _, _. unfold DspEngine.load_database, DspEngine.new_database.
  cbn [DspEngine._loaded DspEngine.songs_directory DspEngine.songs_cache bind].
  rewrite E. split; [ reflexivity | ].
  cbn [DspEngine._loaded DspEngine.songs_cache length] in *.
  repeat split; try assumption; lia.
Qed.

(** A text file, a recording that cannot be decoded and one of twelve
    voiced frames. *)
Lemma load_database_index_invariant_witness :
  exists num_songs db,
    DspEngine.load_database
      (DspEngine.new_database
         (Ok [ {| DspEngine.file_name := "notes.txt";
                  DspEngine.pitch_track := Ok [] |};
               {| DspEngine.file_name := "broken.mp3";
                  DspEngine.pitch_track := Raise OSError |};
               {| DspEngine.file_name := "happy_birthday.wav";
                  DspEngine.pitch_track := Ok (repeat (Some 220%R) 12) |} ]))
    = Ok (num_songs, db)
    /\ DspEngine._loaded db = true
    /\ (length (DspEngine.songs_cache db) <= num_songs
        <= length [ {| DspEngine.file_name := "notes.txt";
                       DspEngine.pitch_track := Ok [] |};
                    {| DspEngine.file_name := "broken.mp3";
                       DspEngine.pitch_track := Raise OSError |};
                    {| DspEngine.file_name := "happy_birthday.wav";
                       DspEngine.pitch_track := Ok (repeat (Some 220%R) 12) |} ])%nat
    /\ Forall (fun e => DspEngine.well_indexed (snd e)) (DspEngine.songs_cache db).
Proof.
  apply (@load_database_index_invariant
           [ {| DspEngine.file_name := "notes.txt";
                DspEngine.pitch_track := Ok [] |};
             {| DspEngine.file_name := "broken.mp3";
                DspEngine.pitch_track := Raise OSError |};
             {| DspEngine.file_name := "happy_birthday.wav";
                DspEngine.pitch_track := Ok (repeat (Some 220%R) 12) |} ]).
  repeat constructor; discriminate.
Defined.

(** Once loaded, the database is not scanned again: [load_database]
    returns the size of the cache and leaves the database as it is,
    whatever the directory holds by then. *)
Theorem load_database_cached (db : DspEngine.SongDatabase)
    (num_songs : nat) (db' : DspEngine.SongDatabase) :
  DspEngine.load_database db = Ok (num_songs, db') ->
  DspEngine.load_database db' = Ok (length (DspEngine.songs_cache db'), db')
  /\ forall directory,
       DspEngine.load_database
         {| DspEngine.songs_directory := directory;
            DspEngine.songs_cache := DspEngine.songs_cache db';
            DspEngine._loaded := DspEngine._loaded db' |}
       = Ok (length (DspEngine.songs_cache db'),
             {| DspEngine.songs_directory := directory;
                DspEngine.songs_cache := DspEngine.songs_cache db';
                DspEngine._loaded := DspEngine._loaded db' |}).
Proof.
  intros Hload.
  assert (Hloaded : DspEngine._loaded db' = true).
  { unfold DspEngine.load_database in Hload.
    destruct (DspEngine._loaded db) eqn:El.
    - injection Hload as _ <-. exact El.
    - destruct (DspEngine.songs_directory db) as [ files | e | ];
        cbn [bind] in Hload; try discriminate.
      destruct (DspEngine.load_files files (DspEngine.songs_cache db, O))
        as [ [ cache n ] | e | ]; cbn [bind] in Hload; try discriminate.
      injection Hload as _ <-. reflexivity. }
  split.
  - unfold DspEngine.load_database. now rewrite Hloaded.
  - intros directory. unfold DspEngine.load_database.
    cbn [DspEngine._loaded DspEngine.songs_cache]. now rewrite Hloaded.
Qed.

Lemma load_database_cached_witness :
  DspEngine.load_database
    {| DspEngine.songs_directory := Ok []; DspEngine.songs_cache := [];
       DspEngine._loaded := true |}
  = Ok (length (DspEngine.songs_cache
                  {| DspEngine.songs_directory := Ok []; DspEngine.songs_cache := [];
                     DspEngine._loaded := true |}),
        {| DspEngine.songs_directory := Ok []; DspEngine.songs_cache := [];
           DspEngine._loaded := true |})
  /\ forall directory,
       DspEngine.load_database
         {| DspEngine.songs_directory := directory;
            DspEngine.songs_cache :=
              DspEngine.songs_cache
                {| DspEngine.songs_directory := Ok []; DspEngine.songs_cache := [];
                   DspEngine._loaded := true |};
            DspEngine._loaded :=
              DspEngine._loaded
                {| DspEngine.songs_directory := Ok []; DspEngine.songs_cache := [];
                   DspEngine._loaded := true |} |}
       = Ok (length (DspEngine.songs_cache
                       {| DspEngine.songs_directory := Ok [];
                          DspEngine.songs_cache := [];
                          DspEngine._loaded := true |}),
             {| DspEngine.songs_directory := directory;
                DspEngine.songs_cache :=
                  DspEngine.songs_cache
                    {| DspEngine.songs_directory := Ok []; DspEngine.songs_cache := [];
                       DspEngine._loaded := true |};
                DspEngine._loaded :=
                  DspEngine._loaded
                    {| DspEngine.songs_directory := Ok []; DspEngine.songs_cache := [];
                       DspEngine._loaded := true |} |}).
Proof.
  apply (@load_database_cached (DspEngine.new_database (Ok [])) 0%nat
           {| DspEngine.songs_directory := Ok []; DspEngine.songs_cache := [];
              DspEngine._loaded := true |}).
  reflexivity.
Defined.

End Index.

(** ** dsp_engine.py: the best match *)

Section BestMatch.

Open Scope R_scope.

Variable fastdtw : DspUtils.FastDTW.
Variable hum_normalized : list R.
Variable dist : list R -> R.

(** The alignment answers on every window. *)
Hypothesis fastdtw_answers :
  forall w, exists path, fastdtw hum_normalized w DspEngine.euclidean = Ok (dist w, path).

Lemma match_window_least (title : string) (w : DspEngine.Window)
    (seen : list (string * DspEngine.Window)) (best : DspEngine.Best) :
  DspEngine.least_so_far hum_normalized dist seen best ->
  exists best',
    DspEngine.match_window fastdtw hum_normalized title w best = Ok best'
    /\ DspEngine.least_so_far hum_normalized dist (seen ++ [(title, w)]) best'.
Proof.
  intros Hinv. destruct w as [ contour start_time ].
  unfold DspEngine.match_window, DspEngine.compute_dtw_distance.
  destruct (fastdtw_answers contour) as [ path Hdtw ]. rewrite Hdtw.
  cbn [bind fst snd].
  destruct best as [ [ r | ] [ d | ] ]; cbn [snd]; try contradiction.
  - destruct Hinv as [ t0 [ w0 [ before [ after [ Eseen [ Ed [ Er [ Hbefore Hafter ] ] ] ] ] ] ] ].
    unfold Rltb. destruct (Rlt_dec (dist contour) d) as [ Hless | Hnot ].
    + eexists. split; [ reflexivity | ].
      exists title, (contour, start_time), seen, []. cbn [fst snd].
      split; [ reflexivity | ].
      split; [ reflexivity | split; [ reflexivity | ] ].
      split; [ | intros e [] ].
      intros e He. rewrite Eseen in He. apply in_app_or in He.
      destruct He as [ He | [ <- | He ] ].
      * specialize (Hbefore e He). lra.
      * cbn [fst snd]. lra.
      * specialize (Hafter e He). lra.
    + eexists. split; [ reflexivity | ].
      exists t0, w0, before, (after ++ [(title, (contour, start_time))]).
      split; [ rewrite Eseen, <- app_assoc; reflexivity | ].
      split; [ exact Ed | split; [ exact Er | ] ].
      split; [ exact Hbefore | ].
      intros e He. apply in_app_or in He. destruct He as [ He | [ <- | [] ] ].
      * now apply Hafter.
      * cbn [fst snd]. lra.
  - cbn in Hinv. subst seen.
    eexists. split; [ reflexivity | ].
    exists title, (contour, start_time), [], []. cbn [fst snd app].
    split; [ reflexivity | ].
    split; [ reflexivity | split; [ reflexivity | ] ].
    split; intros e [].
Qed.

Lemma match_windows_least (title : string) (ws : list DspEngine.Window) :
  forall (seen : list (string * DspEngine.Window)) (best : DspEngine.Best),
    DspEngine.least_so_far hum_normalized dist seen best ->
    exists best',
      DspEngine.match_windows fastdtw hum_normalized title ws best = Ok best'
      /\ DspEngine.least_so_far hum_normalized dist (seen ++ map (pair title) ws) best'.
Proof.
  induction ws as [ | w rest IH ]; intros seen best Hinv.
  - exists best. cbn [map]. rewrite app_nil_r. now split.
  - destruct (@match_window_least title w seen best Hinv) as [ b1 [ E1 H1 ] ].
    destruct (IH _ _ H1) as [ b2 [ E2 H2 ] ].
    exists b2. cbn [DspEngine.match_windows]. rewrite E1. cbn [bind].
    split; [ exact E2 | ].
    cbn [map]. now rewrite <- app_assoc in H2.
Qed.

Lemma match_songs_least (songs : list (string * DspEngine.SongData)) :
  forall (seen : list (string * DspEngine.Window)) (best : DspEngine.Best),
    DspEngine.least_so_far hum_normalized dist seen best ->
    exists best',
      DspEngine.match_songs fastdtw hum_normalized songs best = Ok best'
      /\ DspEngine.least_so_far hum_normalized dist (seen ++ DspEngine.all_windows songs) best'.
Proof.
  induction songs as [ | [ title data ] rest IH ]; intros seen best Hinv.
  - exists best. cbn. rewrite app_nil_r. now split.
  - destruct (@match_windows_least title (DspEngine.windows data) seen best Hinv)
      as [ b1 [ E1 H1 ] ].
    destruct (IH _ _ H1) as [ b2 [ E2 H2 ] ].
    exists b2. cbn [DspEngine.match_songs]. rewrite E1. cbn [bind].
    split; [ exact E2 | ].
    unfold DspEngine.all_windows in *. cbn [flat_map fst snd].
    now rewrite <- app_assoc in H2.
Qed.

End BestMatch.

Section IdentifyMelody.

Open Scope R_scope.

Lemma round2_range (x : R) : 0 <= x <= 100 -> 0 <= round2 x <= 100.
Proof.
  intros Hx. unfold round2.
  assert (H : (0 <= round (x * 100) <= 10000)%Z) by (apply round_between; lra).
  destruct H as [ H0 H1 ]. apply IZR_le in H0, H1. lra.
Qed.

(** On a loaded database with at least one window, a hum that can be
    normalized and an alignment that answers on every window,
    [identify_melody] returns the first window of least distance over all
    the songs, in the order in which the cache lists the songs and each
    song its windows: no window has a smaller distance, and every window
    before the one returned has a greater one.  The confidence, between 0
    and 100, is computed from that distance, and the database is left as
    it was. *)
Theorem identify_melody_least_distance
    (fastdtw : DspUtils.FastDTW) (dist : list R -> R)
    (f0 : DspUtils.PitchTrack) (hum_normalized : list R)
    (directory : py (list DspEngine.AudioFile)) (db : DspEngine.SongDatabase) :
  DspEngine._loaded db = true ->
  DspEngine.all_windows (DspEngine.songs_cache db) <> [] ->
  DspEngine.normalize_pitch_contour f0 = Ok hum_normalized ->
  (forall w, exists path,
      fastdtw hum_normalized w DspEngine.euclidean = Ok (dist w, path)) ->
  exists title w,
    DspEngine.identify_melody fastdtw (Ok f0) directory (Some db)
    = Ok (Some (DspEngine.match_result hum_normalized title w (dist (fst w))), db)
    /\ In (title, w) (DspEngine.all_windows (DspEngine.songs_cache db))
    /\ (forall e, In e (DspEngine.all_windows (DspEngine.songs_cache db)) ->
          dist (fst w) <= dist (fst (snd e)))
    /\ 0 <= DspEngine.confidence_score
              (DspEngine.match_result hum_normalized title w (dist (fst w))) <= 100
    /\ exists before after,
         DspEngine.all_windows (DspEngine.songs_cache db) = before ++ (title, w) :: after
         /\ forall e, In e before -> dist (fst w) < dist (fst (snd e)).
Proof.
  intros Hloaded Hwindows Hnorm Hdtw.
  assert (Hsongs : DspEngine.songs_cache db <> []).
  { intros E. rewrite E in Hwindows. now apply Hwindows. }
  destruct (@match_songs_least fastdtw hum_normalized dist Hdtw
              (DspEngine.songs_cache db) [] (None, None) eq_refl)
    as [ best [ E Hleast ] ].
  cbn [app] in Hleast.
  destruct best as [ [ r | ] [ d | ] ]; cbn in Hleast; try contradiction.
  destruct Hleast as [ title [ w [ before [ after [ Eall [ Ed [ Er [ Hbefore Hafter ] ] ] ] ] ] ] ].
  exists title, w.
  split; [ | split; [ | split; [ | split ] ] ].
  - unfold DspEngine.identify_melody, DspEngine.load_database.
    rewrite Hloaded. cbn [bind].
    destruct (DspEngine.songs_cache db) as [ | s0 srest ] eqn:Ecache;
      [ contradiction | ].
    cbn [length Nat.eqb]. rewrite Hnorm. cbn [bind].
    unfold DspEngine.get_all_songs. rewrite Ecache, E. cbn [bind fst].
    now rewrite Er.
  - rewrite Eall. apply in_or_app. right. now left.
  - intros e He. rewrite <- Ed. rewrite Eall in He. apply in_app_or in He.
    destruct He as [ He | [ <- | He ] ].
    + specialize (Hbefore e He). lra.
    + cbn [fst snd]. lra.
    + now apply Hafter.
  - unfold DspEngine.match_result. cbn [DspEngine.confidence_score].
    apply round2_range. apply clamp_range.
  - exists before, after. split; [ exact Eall | ].
    intros e He. rewrite <- Ed. now apply Hbefore.
Qed.

Lemma normalize_constant_hum :
  DspEngine.normalize_pitch_contour (repeat (Some 440) 10) = Ok (repeat 0 10).
Proof.
  unfold DspEngine.normalize_pitch_contour. rewrite voiced_midi.
  cbn [repeat DspUtils.voiced map length Nat.ltb Nat.leb DspEngine.MIN_VALID_FRAMES].
  set (c := DspUtils.hz_to_midi 440).
  assert (Hmean : mean [c; c; c; c; c; c; c; c; c; c] = c).
  { unfold mean, sum. cbn [fold_right length INR]. field. }
  rewrite Hmean. replace (c - c) with 0 by ring. reflexivity.
Qed.

(** The theorem on the example database and a hum of ten frames of
    440 Hz. *)
Lemma identify_melody_least_distance_witness :
  exists title w,
    DspEngine.identify_melody DspEngine.demo_fastdtw (Ok (repeat (Some 440) 10))
      (Ok []) (Some DspEngine.demo_database)
    = Ok (Some (DspEngine.match_result (repeat 0 10) title w
                  (DspEngine.demo_dist (fst w))),
          DspEngine.demo_database)
    /\ In (title, w)
          (DspEngine.all_windows (DspEngine.songs_cache DspEngine.demo_database))
    /\ (forall e,
          In e (DspEngine.all_windows (DspEngine.songs_cache DspEngine.demo_database)) ->
          DspEngine.demo_dist (fst w) <= DspEngine.demo_dist (fst (snd e)))
    /\ 0 <= DspEngine.confidence_score
              (DspEngine.match_result (repeat 0 10) title w
                 (DspEngine.demo_dist (fst w))) <= 100
    /\ exists before after,
         DspEngine.all_windows (DspEngine.songs_cache DspEngine.demo_database)
         = before ++ (title, w) :: after
         /\ forall e, In e before ->
                      DspEngine.demo_dist (fst w) < DspEngine.demo_dist (fst (snd e)).
Proof.
  apply (@identify_melody_least_distance DspEngine.demo_fastdtw DspEngine.demo_dist
           (repeat (Some 440) 10) (repeat 0 10) (Ok []) DspEngine.demo_database).
  - reflexivity.
  - discriminate.
  - exact normalize_constant_hum.
  - intros w. exists []. reflexivity.
Defined.

End IdentifyMelody.

(** ** dsp_engine.py: what makes [identify_melody] fail *)

Section IdentifyFailures.

Open Scope R_scope.

(** On a loaded database that is not empty, a hummed file that cannot be
    read makes [identify_melody] raise the same exception, and one with
    fewer than [MIN_VALID_FRAMES] voiced frames makes it raise
    [ValueError]; no alignment is computed. *)
Theorem identify_melody_bad_hum
    (fastdtw : DspUtils.FastDTW) (hum : py DspUtils.PitchTrack)
    (directory : py (list DspEngine.AudioFile)) (db : DspEngine.SongDatabase) :
  DspEngine._loaded db = true -> DspEngine.songs_cache db <> [] ->
  (forall e, hum = Raise e ->
     DspEngine.identify_melody fastdtw hum directory (Some db) = Raise e)
  /\ (forall f0, hum = Ok f0 ->
        (length (DspUtils.voiced f0) < DspEngine.MIN_VALID_FRAMES)%nat ->
        DspEngine.identify_melody fastdtw hum directory (Some db) = Raise ValueError).
Proof.
  intros Hloaded Hsongs.
  assert (E : DspEngine.identify_melody fastdtw hum directory (Some db)
              = (hum_f0 <- hum ;;
                 hum_normalized <- DspEngine.normalize_pitch_contour hum_f0 ;;
                 best <- DspEngine.match_songs fastdtw hum_normalized
                           (DspEngine.get_all_songs db) (None, None) ;;
                 Ok (fst best, db))).
  { unfold DspEngine.identify_melody, DspEngine.load_database.
    rewrite Hloaded. cbn [bind].
    destruct (DspEngine.songs_cache db) as [ | s0 srest ]; [ contradiction | ].
    reflexivity. }
  rewrite E. split.
  - intros e ->. reflexivity.
  - intros f0 -> Hshort. cbn [bind].
    unfold DspEngine.normalize_pitch_contour. rewrite voiced_midi, length_map.
    destruct (Nat.ltb_spec (length (DspUtils.voiced f0)) DspEngine.MIN_VALID_FRAMES)
      as [ _ | ? ]; [ reflexivity | lia ].
Qed.

Lemma identify_melody_bad_hum_witness :
  (forall e, Ok [Some 440; None] = Raise e ->
     DspEngine.identify_melody DspEngine.demo_fastdtw (Ok [Some 440; None]) (Ok [])
       (Some DspEngine.demo_database) = Raise e)
  /\ (forall f0, Ok [Some 440; None] = Ok f0 ->
        (length (DspUtils.voiced f0) < DspEngine.MIN_VALID_FRAMES)%nat ->
        DspEngine.identify_melody DspEngine.demo_fastdtw (Ok [Some 440; None]) (Ok [])
          (Some DspEngine.demo_database) = Raise ValueError).
Proof.
  apply (@identify_melody_bad_hum DspEngine.demo_fastdtw (Ok [Some 440; None]) (Ok [])
           DspEngine.demo_database).
  - reflexivity.
  - discriminate.
Defined.

Lemma match_songs_first_failure
    (fastdtw : DspUtils.FastDTW) (hum_normalized : list R) (e : exn)
    (songs : list (string * DspEngine.SongData)) :
  forall (title : string) (w : DspEngine.Window)
         (others : list (string * DspEngine.Window)) (best : DspEngine.Best),
    DspEngine.all_windows songs = (title, w) :: others ->
    fastdtw hum_normalized (fst w) DspEngine.euclidean = Raise e ->
    DspEngine.match_songs fastdtw hum_normalized songs best = Raise e.
Proof.
  induction songs as [ | [ t data ] rest IH ]; intros title w others best Hfirst Hraise;
    [ discriminate | ].
  unfold DspEngine.all_windows in Hfirst. cbn [flat_map fst snd] in Hfirst.
  cbn [DspEngine.match_songs].
  destruct (DspEngine.windows data) as [ | w0 ws ].
  - cbn [map app] in Hfirst. cbn [DspEngine.match_windows bind].
    now apply IH with title w others.
  - cbn [map app] in Hfirst. injection Hfirst as -> -> _.
    cbn [DspEngine.match_windows].
    unfold DspEngine.match_window, DspEngine.compute_dtw_distance.
    destruct w as [ contour start_time ]. cbn [fst] in Hraise.
    rewrite Hraise. reflexivity.
Qed.

(** A failure of the alignment is not caught: when it raises on the first
    window compared, [identify_melody] raises the same exception, whatever
    the other windows and songs would have given. *)
Theorem identify_melody_alignment_failure
    (fastdtw : DspUtils.FastDTW) (f0 : DspUtils.PitchTrack) (hum_normalized : list R)
    (directory : py (list DspEngine.AudioFile)) (db : DspEngine.SongDatabase)
    (title : string) (w : DspEngine.Window)
    (others : list (string * DspEngine.Window)) (e : exn) :
  DspEngine._loaded db = true ->
  DspEngine.all_windows (DspEngine.songs_cache db) = (title, w) :: others ->
  DspEngine.normalize_pitch_contour f0 = Ok hum_normalized ->
  fastdtw hum_normalized (fst w) DspEngine.euclidean = Raise e ->
  DspEngine.identify_melody fastdtw (Ok f0) directory (Some db) = Raise e.
Proof.
  intros Hloaded Hfirst Hnorm Hraise.
  unfold DspEngine.identify_melody, DspEngine.load_database.
  rewrite Hloaded. cbn [bind].
  destruct (DspEngine.songs_cache db) as [ | s0 srest ] eqn:Ecache;
    [ discriminate | ].
  cbn [length Nat.eqb]. rewrite Hnorm. cbn [bind].
  unfold DspEngine.get_all_songs. rewrite Ecache.
  rewrite (@match_songs_first_failure fastdtw hum_normalized e (s0 :: srest)
             title w others (None, None) Hfirst Hraise).
  reflexivity.
Qed.

Lemma identify_melody_alignment_failure_witness :
  DspEngine.identify_melody (fun _ _ _ => Raise ValueError) (Ok (repeat (Some 440) 10))
    (Ok []) (Some DspEngine.demo_database) = Raise ValueError.
Proof.
  apply (@identify_melody_alignment_failure (fun _ _ _ => Raise ValueError)
           (repeat (Some 440) 10) (repeat 0 10) (Ok []) DspEngine.demo_database
           "Scale"%string ([3; 1], 0) [("Scale"%string, ([-1; -3], 2))] ValueError).
  - reflexivity.
  - reflexivity.
  - exact normalize_constant_hum.
  - reflexivity.
Defined.

End IdentifyFailures.

(** ** dsp_engine.py: the entries of the cache *)

Section IndexEntries.

Lemma dict_set_in_new (V : Type) (d : list (string * V)) (key : string) (value : V) :
  In (key, value) (DspEngine.dict_set d key value).
Proof.
  induction d as [ | [ k v ] rest IH ]; [ now left | ].
  cbn [DspEngine.dict_set]. destruct (String.eqb_spec k key) as [ -> | _ ].
  - now left.
  - right. exact IH.
Qed.

Lemma dict_set_in_kept (V : Type) (d : list (string * V)) (key : string) (value : V)
    (k : string) (v : V) :
  k <> key -> In (k, v) d -> In (k, v) (DspEngine.dict_set d key value).
Proof.
  intros Hk. induction d as [ | [ k0 v0 ] rest IH ]; [ contradiction | ].
  intros [ E | Hin ]; cbn [DspEngine.dict_set].
  - injection E as -> ->. destruct (String.eqb_spec k key); [ contradiction | now left ].
  - destruct (String.eqb k0 key); right; [ exact Hin | exact (IH Hin) ].
Qed.

Lemma dict_set_in_inv (V : Type) (d : list (string * V)) (key : string) (value : V)
    (e : string * V) :
  In e (DspEngine.dict_set d key value) -> e = (key, value) \/ In e d.
Proof.
  induction d as [ | [ k0 v0 ] rest IH ]; cbn [DspEngine.dict_set].
  - intros [ E | [] ]. now left.
  - destruct (String.eqb_spec k0 key) as [ -> | _ ].
    + intros [ E | Hin ]; [ now left | right; now right ].
    + intros [ E | Hin ]; [ right; now left | ].
      destruct (IH Hin) as [ E | Hin' ]; [ now left | right; now right ].
Qed.

Lemma dict_set_keys (V : Type) (d : list (string * V)) (key : string) (value : V)
    (k : string) :
  In k (map fst (DspEngine.dict_set d key value)) -> k = key \/ In k (map fst d).
Proof.
  intros Hin. apply in_map_iff in Hin. destruct Hin as [ e [ <- He ] ].
  destruct (dict_set_in_inv _ _ _ _ He) as [ -> | Hd ]; [ now left | right ].
  now apply in_map.
Qed.

(** Assigning to a key keeps the keys of a dict pairwise different. *)
Lemma dict_set_nodup (V : Type) (d : list (string * V)) (key : string) (value : V) :
  NoDup (map fst d) -> NoDup (map fst (DspEngine.dict_set d key value)).
Proof.
  induction d as [ | [ k0 v0 ] rest IH ]; cbn [DspEngine.dict_set map fst].
  - intros _. repeat constructor. intros [].
  - intros Hnd. inversion Hnd as [ | ? ? Hnotin Hrest ]; subst.
    destruct (String.eqb_spec k0 key) as [ -> | Hne ]; cbn [map fst].
    + constructor; assumption.
    + constructor; [ | exact (IH Hrest) ].
      intros Hin. destruct (dict_set_keys _ _ _ _ Hin) as [ E | Hin' ];
        [ now apply Hne | now apply Hnotin ].
Qed.

Lemma dict_set_length_new (V : Type) (d : list (string * V)) (key : string) (value : V) :
  ~ In key (map fst d) -> length (DspEngine.dict_set d key value) = S (length d).
Proof.
  induction d as [ | [ k0 v0 ] rest IH ]; cbn [DspEngine.dict_set map fst];
    [ reflexivity | ].
  intros Hnotin. destruct (String.eqb_spec k0 key) as [ -> | _ ].
  - exfalso. apply Hnotin. now left.
  - cbn [length]. rewrite IH; [ reflexivity | ]. intros Hin. apply Hnotin. now right.
Qed.

Lemma nodup_keys_unique (V : Type) (d : list (string * V)) (k : string) (x y : V) :
  NoDup (map fst d) -> In (k, x) d -> In (k, y) d -> x = y.
Proof.
  induction d as [ | [ k0 v0 ] rest IH ]; [ contradiction | ].
  cbn [map fst]. intros Hnd Hx Hy.
  inversion Hnd as [ | ? ? Hnotin Hrest ]; subst.
  destruct Hx as [ Ex | Hx ]; destruct Hy as [ Ey | Hy ].
  - congruence.
  - injection Ex as -> ->. exfalso. apply Hnotin.
    change k with (fst (k, y)). now apply in_map.
  - injection Ey as -> ->. exfalso. apply Hnotin.
    change k with (fst (k, x)). now apply in_map.
  - exact (IH Hrest Hx Hy).
Qed.

(** A file that is not skipped is stored under its title and counted. *)
Lemma load_file_stores (file : DspEngine.AudioFile) (f0 : DspUtils.PitchTrack)
    (cache : list (string * DspEngine.SongData)) (count : nat) :
  existsb (String.eqb (DspEngine.lower (DspEngine.suffix (DspEngine.file_name file))))
    DspEngine.audio_extensions = true ->
  DspEngine.pitch_track file = Ok f0 ->
  (DspEngine.MIN_VALID_FRAMES <= length (DspUtils.voiced f0))%nat ->
  exists data,
    DspEngine.indexed_as file data
    /\ DspEngine.load_file file (cache, count)
       = Ok (DspEngine.dict_set cache (DspEngine._get_song_title (DspEngine.file_name file))
               data, S count).
Proof.
  intros Hext Htrack Hlong.
  assert (Hnorm : exists normalized,
             DspEngine.normalize_pitch_contour f0 = Ok normalized
             /\ length normalized = length (DspUtils.voiced f0)).
  { unfold DspEngine.normalize_pitch_contour. rewrite voiced_midi, length_map.
    destruct (Nat.ltb_spec (length (DspUtils.voiced f0)) DspEngine.MIN_VALID_FRAMES);
      [ lia | ].
    eexists. split; [ reflexivity | now rewrite !length_map ]. }
  destruct Hnorm as [ normalized [ Enorm Hlen ] ].
  destruct (@default_windows normalized) as [ ws [ Ews _ ] ]; [ lia | ].
  exists {| DspEngine.file_path := DspEngine.file_name file;
            DspEngine.full_contour := normalized;
            DspEngine.windows := ws;
            DspEngine.sample_rate := DspEngine.SAMPLE_RATE |}.
  split.
  - unfold DspEngine.indexed_as. cbn.
    repeat split; try assumption; try reflexivity.
    exists f0. repeat split; assumption.
  - unfold DspEngine.load_file. rewrite Hext, Htrack. cbn [negb bind].
    rewrite Enorm. cbn [bind]. rewrite Ews. reflexivity.
Qed.

(** Any file is either skipped or stored under its title and counted. *)
Lemma load_file_cases (file : DspEngine.AudioFile)
    (cache : list (string * DspEngine.SongData)) (count : nat) :
  DspEngine.pitch_track file <> Loop ->
  DspEngine.load_file file (cache, count) = Ok (cache, count)
  \/ exists data,
       DspEngine.indexed_as file data
       /\ DspEngine.load_file file (cache, count)
          = Ok (DspEngine.dict_set cache
                  (DspEngine._get_song_title (DspEngine.file_name file)) data,
                S count).
Proof.
  intros Hends.
  destruct (existsb (String.eqb (DspEngine.lower (DspEngine.suffix (DspEngine.file_name file))))
              DspEngine.audio_extensions) eqn:Hext.
  - destruct (DspEngine.pitch_track file) as [ f0 | e | ] eqn:Htrack;
      [ | | contradiction ].
    + destruct (Nat.lt_ge_cases (length (DspUtils.voiced f0)) DspEngine.MIN_VALID_FRAMES)
        as [ Hshort | Hlong ].
      * left. unfold DspEngine.load_file. rewrite Hext, Htrack. cbn [negb bind].
        unfold DspEngine.normalize_pitch_contour. rewrite voiced_midi, length_map.
        destruct (Nat.ltb_spec (length (DspUtils.voiced f0)) DspEngine.MIN_VALID_FRAMES);
          [ reflexivity | lia ].
      * right. exact (@load_file_stores file f0 cache count Hext Htrack Hlong).
    + left. unfold DspEngine.load_file. rewrite Hext, Htrack. reflexivity.
  - left. unfold DspEngine.load_file. rewrite Hext. reflexivity.
Qed.

(** What the loop of [load_database] keeps true of the cache: the keys
    are pairwise different, entries under other titles stay, every entry is
    that of a file of the listing under its title, and the count and the
    cache grow together while no title comes twice. *)
Lemma load_files_entries (files : list DspEngine.AudioFile) :
  Forall (fun file => DspEngine.pitch_track file <> Loop) files ->
  forall (cache : list (string * DspEngine.SongData)) (count : nat),
    NoDup (map fst cache) ->
    exists cache' count',
      DspEngine.load_files files (cache, count) = Ok (cache', count')
      /\ NoDup (map fst cache')
      /\ (forall k v,
            Forall (fun file => DspEngine._get_song_title (DspEngine.file_name file) <> k)
              files ->
            In (k, v) cache -> In (k, v) cache')
      /\ (forall e, In e cache' ->
            In e cache
            \/ exists file, In file files
                 /\ fst e = DspEngine._get_song_title (DspEngine.file_name file)
                 /\ DspEngine.indexed_as file (snd e))
      /\ (NoDup (map (fun file => DspEngine._get_song_title (DspEngine.file_name file)) files) ->
          (forall file, In file files ->
             ~ In (DspEngine._get_song_title (DspEngine.file_name file)) (map fst cache)) ->
          (length cache' + count = length cache + count')%nat).
Proof.
  induction 1 as [ | file rest Hfile _ IH ]; intros cache count Hnd.
  - exists cache, count. cbn [DspEngine.load_files].
    repeat split; try assumption; auto.
  - set (title := DspEngine._get_song_title (DspEngine.file_name file)).
    destruct (@load_file_cases file cache count Hfile) as [ E1 | [ data [ Hdata E1 ] ] ].
    + destruct (IH cache count Hnd) as [ c2 [ n2 [ E2 [ Hnd2 [ Hkept [ Hfrom Hcount ] ] ] ] ] ].
      exists c2, n2. cbn [DspEngine.load_files]. rewrite E1. cbn [bind].
      split; [ exact E2 | ]. split; [ exact Hnd2 | ]. split; [ | split ].
      * intros k v Hk. inversion Hk; subst. now apply Hkept.
      * intros e He. destruct (Hfrom e He) as [ Hin | [ f [ Hf Hrest ] ] ];
          [ now left | right ].
        exists f. split; [ now right | exact Hrest ].
      * intros Htitles Hfresh. cbn [map] in Htitles.
        inversion Htitles; subst. apply Hcount; [ assumption | ].
        intros f Hf. apply Hfresh. now right.
    + destruct (IH (DspEngine.dict_set cache title data) (S count)
                  (dict_set_nodup cache title data Hnd))
        as [ c2 [ n2 [ E2 [ Hnd2 [ Hkept [ Hfrom Hcount ] ] ] ] ] ].
      exists c2, n2. cbn [DspEngine.load_files]. rewrite E1. cbn [bind].
      split; [ exact E2 | ]. split; [ exact Hnd2 | ]. split; [ | split ].
      * intros k v Hk Hin. inversion Hk as [ | ? ? Hne Hrest ]; subst.
        apply Hkept; [ exact Hrest | ].
        apply dict_set_in_kept; [ | exact Hin ].
        intros ->. now apply Hne.
      * intros e He. destruct (Hfrom e He) as [ Hin | [ f [ Hf Hrest ] ] ].
        -- destruct (dict_set_in_inv _ _ _ _ Hin) as [ -> | Hold ]; [ right | now left ].
           exists file. split; [ now left | ]. split; [ reflexivity | exact Hdata ].
        -- right. exists f. split; [ now right | exact Hrest ].
      * intros Htitles Hfresh. cbn [map] in Htitles.
        inversion Htitles as [ | ? ? Hnew Hothers ]; subst.
        assert (Hlen : length (DspEngine.dict_set cache title data) = S (length cache)).
        { apply dict_set_length_new. apply Hfresh. now left. }
        assert (Hsum : (length c2 + S count
                        = length (DspEngine.dict_set cache title data) + n2)%nat);
          [ | lia ].
        apply Hcount; [ exact Hothers | ].
        intros f Hf Hin. destruct (dict_set_keys _ _ _ _ Hin) as [ E | Hold ].
        -- apply Hnew. fold title. rewrite <- E.
           apply (in_map (fun file => DspEngine._get_song_title (DspEngine.file_name file))).
           exact Hf.
        -- apply (Hfresh f); [ now right | exact Hold ].
Qed.

Lemma load_files_app (first second : list DspEngine.AudioFile)
    (state : list (string * DspEngine.SongData) * nat) :
  DspEngine.load_files (first ++ second) state
  = (state' <- DspEngine.load_files first state ;; DspEngine.load_files second state').
Proof.
  revert state. induction first as [ | file rest IH ]; intros state; [ reflexivity | ].
  cbn [app DspEngine.load_files].
  destruct (DspEngine.load_file file state) as [ s1 | e | ]; cbn [bind];
    [ apply IH | reflexivity | reflexivity ].
Qed.

(** After the first [load_database], a file with an audio extension, a
    readable pitch track and at least [MIN_VALID_FRAMES] voiced frames is
    in the cache under its title, with its own name, contour and windows,
    and no other entry has that title, as long as no file listed after it
    has the same title; the files listed before it may have it. *)
Theorem load_database_keeps_latest_file
    (before after : list DspEngine.AudioFile) (file : DspEngine.AudioFile)
    (f0 : DspUtils.PitchTrack) :
  Forall (fun other => DspEngine.pitch_track other <> Loop) before ->
  Forall (fun other => DspEngine.pitch_track other <> Loop) after ->
  existsb (String.eqb (DspEngine.lower (DspEngine.suffix (DspEngine.file_name file))))
    DspEngine.audio_extensions = true ->
  DspEngine.pitch_track file = Ok f0 ->
  (DspEngine.MIN_VALID_FRAMES <= length (DspUtils.voiced f0))%nat ->
  Forall (fun later => DspEngine._get_song_title (DspEngine.file_name later)
                       <> DspEngine._get_song_title (DspEngine.file_name file)) after ->
  exists num_songs db data,
    DspEngine.load_database (DspEngine.new_database (Ok (before ++ file :: after)))
    = Ok (num_songs, db)
    /\ DspEngine.indexed_as file data
    /\ In (DspEngine._get_song_title (DspEngine.file_name file), data)
         (DspEngine.songs_cache db)
    /\ forall other,
         In (DspEngine._get_song_title (DspEngine.file_name file), other)
           (DspEngine.songs_cache db) ->
         other = data.
Proof.
  intros Hbefore Hafter Hext Htrack Hlong Hlater.
  destruct (@load_files_entries before Hbefore [] O (NoDup_nil _))
    as [ c1 [ n1 [ E1 [ Hnd1 _ ] ] ] ].
  destruct (@load_file_stores file f0 c1 n1 Hext Htrack Hlong) as [ data [ Hdata E2 ] ].
  set (title := DspEngine._get_song_title (DspEngine.file_name file)) in *.
  destruct (@load_files_entries after Hafter (DspEngine.dict_set c1 title data) (S n1)
              (dict_set_nodup c1 title data Hnd1))
    as [ c3 [ n3 [ E3 [ Hnd3 [ Hkept _ ] ] ] ] ].
  exists n3, {| DspEngine.songs_directory := Ok (before ++ file :: after);
                DspEngine.songs_cache := c3;
                DspEngine._loaded := true |}, data.
  assert (Hin : In (title, data) c3).
  { apply Hkept; [ exact Hlater | apply dict_set_in_new ]. }
  split; [ | split; [ exact Hdata | split; [ exact Hin | ] ] ].
  - unfold DspEngine.load_database, DspEngine.new_database.
    cbn [DspEngine._loaded DspEngine.songs_directory DspEngine.songs_cache bind].
    rewrite load_files_app, E1. cbn [bind DspEngine.load_files].
    rewrite E2. cbn [bind]. rewrite E3. reflexivity.
  - cbn [DspEngine.songs_cache]. intros other Hother.
    exact (nodup_keys_unique c3 title other data Hnd3 Hother Hin).
Qed.

(** Two recordings of the same title, then a text file: the second
    recording is the one in the cache. *)
Lemma load_database_keeps_latest_file_witness :
  exists num_songs db data,
    DspEngine.load_database
      (DspEngine.new_database
         (Ok ([ DspEngine.demo_file "happy_birthday.mp3" ]
              ++ DspEngine.demo_file "Happy-Birthday.wav"
                 :: [ {| DspEngine.file_name := "notes.txt";
                         DspEngine.pitch_track := Raise OSError |} ])))
    = Ok (num_songs, db)
    /\ DspEngine.indexed_as (DspEngine.demo_file "Happy-Birthday.wav") data
    /\ In (DspEngine._get_song_title
             (DspEngine.file_name (DspEngine.demo_file "Happy-Birthday.wav")), data)
         (DspEngine.songs_cache db)
    /\ forall other,
         In (DspEngine._get_song_title
               (DspEngine.file_name (DspEngine.demo_file "Happy-Birthday.wav")), other)
           (DspEngine.songs_cache db) ->
         other = data.
Proof.
  apply (@load_database_keeps_latest_file
           [ DspEngine.demo_file "happy_birthday.mp3" ]
           [ {| DspEngine.file_name := "notes.txt";
                DspEngine.pitch_track := Raise OSError |} ]
           (DspEngine.demo_file "Happy-Birthday.wav")
           (repeat (Some 220%R) 12)).
  - repeat constructor. discriminate.
  - repeat constructor. discriminate.
  - reflexivity.
  - reflexivity.
  - cbn. unfold DspEngine.MIN_VALID_FRAMES. lia.
  - repeat constructor. discriminate.
Defined.

(** After the first [load_database] the keys of the cache are pairwise
    different and every entry is that of a file of the directory: its key
    is the title of the file, and it holds the name of the file, its
    normalized contour and the windows cut from it. *)
Theorem load_database_entries_from_files (files : list DspEngine.AudioFile) :
  Forall (fun file => DspEngine.pitch_track file <> Loop) files ->
  exists num_songs db,
    DspEngine.load_database (DspEngine.new_database (Ok files)) = Ok (num_songs, db)
    /\ NoDup (map fst (DspEngine.songs_cache db))
    /\ forall title data,
         In (title, data) (DspEngine.songs_cache db) ->
         exists file,
           In file files
           /\ title = DspEngine._get_song_title (DspEngine.file_name file)
           /\ DspEngine.indexed_as file data.
Proof.
  intros Hfiles.
  destruct (@load_files_entries files Hfiles [] O (NoDup_nil _))
    as [ cache [ n [ E [ Hnd [ _ [ Hfrom _ ] ] ] ] ] ].
  exists n, {| DspEngine.songs_directory := Ok files;
               DspEngine.songs_cache := cache;
               DspEngine._loaded := true |}.
  split; [ | split; [ exact Hnd | ] ].
  - unfold DspEngine.load_database, DspEngine.new_database.
    cbn [DspEngine._loaded DspEngine.songs_directory DspEngine.songs_cache bind].
    rewrite E. reflexivity.
  - cbn [DspEngine.songs_cache]. intros title data Hin.
    destruct (Hfrom (title, data) Hin) as [ [] | Hfile ]. exact Hfile.
Qed.

Lemma load_database_entries_from_files_witness :
  exists num_songs db,
    DspEngine.load_database
      (DspEngine.new_database
         (Ok [ DspEngine.demo_file "scale.wav"; DspEngine.demo_file "readme.md" ]))
    = Ok (num_songs, db)
    /\ NoDup (map fst (DspEngine.songs_cache db))
    /\ forall title data,
         In (title, data) (DspEngine.songs_cache db) ->
         exists file,
           In file [ DspEngine.demo_file "scale.wav"; DspEngine.demo_file "readme.md" ]
           /\ title = DspEngine._get_song_title (DspEngine.file_name file)
           /\ DspEngine.indexed_as file data.
Proof.
  apply (@load_database_entries_from_files
           [ DspEngine.demo_file "scale.wav"; DspEngine.demo_file "readme.md" ]).
  repeat constructor; discriminate.
Defined.

(** When no two files of the directory have the same title, the number
    that the first [load_database] returns is the number of songs in the
    cache. *)
Theorem load_database_count_distinct_titles (files : list DspEngine.AudioFile) :
  Forall (fun file => DspEngine.pitch_track file <> Loop) files ->
  NoDup (map (fun file => DspEngine._get_song_title (DspEngine.file_name file)) files) ->
  exists num_songs db,
    DspEngine.load_database (DspEngine.new_database (Ok files)) = Ok (num_songs, db)
    /\ num_songs = length (DspEngine.songs_cache db).
Proof.
  intros Hfiles Htitles.
  destruct (@load_files_entries files Hfiles [] O (NoDup_nil _))
    as [ cache [ n [ E [ _ [ _ [ _ Hcount ] ] ] ] ] ].
  exists n, {| DspEngine.songs_directory := Ok files;
               DspEngine.songs_cache := cache;
               DspEngine._loaded := true |}.
  split.
  - unfold DspEngine.load_database, DspEngine.new_database.
    cbn [DspEngine._loaded DspEngine.songs_directory DspEngine.songs_cache bind].
    rewrite E. reflexivity.
  - cbn [DspEngine.songs_cache].
    assert (Hsum : (length cache + 0 = length (@nil (string * DspEngine.SongData)) + n)%nat).
    { apply Hcount; [ exact Htitles | ]. intros file _ []. }
    cbn [length] in Hsum. lia.
Qed.

Lemma load_database_count_distinct_titles_witness :
  exists num_songs db,
    DspEngine.load_database
      (DspEngine.new_database
         (Ok [ DspEngine.demo_file "scale.wav"; DspEngine.demo_file "twinkle_twinkle.mp3" ]))
    = Ok (num_songs, db)
    /\ num_songs = length (DspEngine.songs_cache db).
Proof.
  apply (@load_database_count_distinct_titles
           [ DspEngine.demo_file "scale.wav"; DspEngine.demo_file "twinkle_twinkle.mp3" ]).
  - repeat constructor; discriminate.
  - repeat constructor.
    + intros [ E | [] ]. discriminate E.
    + intros [].
Defined.

End IndexEntries.

(** ** dsp_utils.py: pitch extraction *)

Section PitchExtraction.

Open Scope R_scope.

(** [extract_pitch] never raises: whatever exception the analysis of the
    file meets, it returns [None].  It returns [None] in exactly three
    cases: an exception, a mean RMS energy below 0.003, fewer than 15
    voiced frames. *)
Theorem extract_pitch_never_raises (analysis : py (R * DspUtils.PitchTrack)) :
  analysis <> Loop ->
  exists result,
    DspUtils.extract_pitch analysis = Ok result
    /\ (result = None
        <-> (exists e, analysis = Raise e)
            \/ exists mean_rms f0,
                 analysis = Ok (mean_rms, f0)
                 /\ (mean_rms < 3 / 1000 \/ (length (DspUtils.voiced f0) < 15)%nat)).
Proof.
  intros Hends. destruct analysis as [ [ mean_rms f0 ] | e | ]; [ | | contradiction ].
  - unfold DspUtils.extract_pitch. cbn [bind]. unfold Rltb.
    destruct (Rlt_dec mean_rms (3 / 1000)) as [ Hquiet | Hloud ].
    + exists None. split; [ reflexivity | ]. split; [ | reflexivity ].
      intros _. right. exists mean_rms, f0. split; [ reflexivity | now left ].
    + destruct (Nat.ltb_spec (length (DspUtils.voiced f0)) 15) as [ Hshort | Hlong ].
      * exists None. split; [ reflexivity | ]. split; [ | reflexivity ].
        intros _. right. exists mean_rms, f0. split; [ reflexivity | now right ].
      * eexists. split; [ reflexivity | ]. split; [ discriminate | ].
        intros [ [ e E ] | [ r [ f [ E [ Hquiet | Hshort ] ] ] ] ];
          [ discriminate E | injection E as <- <-; contradiction
          | injection E as <- <-; lia ].
  - exists None. split; [ reflexivity | ]. split; [ | reflexivity ].
    intros _. left. now exists e.
Qed.

(** A file that cannot be opened. *)
Lemma extract_pitch_never_raises_witness :
  exists result,
    DspUtils.extract_pitch (Raise OSError) = Ok result
    /\ (result = None
        <-> (exists e, @Raise (R * DspUtils.PitchTrack) OSError = Raise e)
            \/ exists mean_rms f0,
                 @Raise (R * DspUtils.PitchTrack) OSError = Ok (mean_rms, f0)
                 /\ (mean_rms < 3 / 1000 \/ (length (DspUtils.voiced f0) < 15)%nat)).
Proof.
  apply (@extract_pitch_never_raises (Raise OSError)). discriminate.
Defined.

End PitchExtraction.
